(** * Dancing Links (Algorithm X): a shallow embedding of package dlx

    The Go package keeps a sparse matrix as a mesh of [Element]s linked
    through raw pointers.  The embedding keeps the mesh in an explicit
    store: a list of elements addressed by position.  Position 0 is the
    element [h] embedded in the [Matrix] struct (so [&m.h] is [Some 0]),
    every [&Element{...}] allocates the next free position, and the nil
    pointer is [None].  A Go panic (nil dereference, failed type
    assertion, index out of range) is the result [None] of the
    operation; loops whose termination depends on the shape of the mesh
    take fuel and also answer [None] when it runs out. *)

From Stdlib Require Import ZArith Lia Ascii.
From stdpp Require Import base option list strings.

Open Scope string_scope.
Open Scope list_scope.
Open Scope nat_scope.

(** ** Data model (dlx.go, types Head, Element, Matrix) *)

Definition ptr := option nat.

(** [Head] : name and size of a column; [size] is a uint64. *)
Record Head := mkHead { name : string; size : Z }.

Definition uint64_mod : Z := 18446744073709551616%Z.
Definition uint64_max : Z := 18446744073709551615%Z.
Definition wrap64 (z : Z) : Z := (z mod uint64_mod)%Z.

(** [Value interface{}] holds nothing, a [Head], or the [true] of an item. *)
Inductive value :=
  | VNil
  | VHead (hd : Head)
  | VBool (b : bool).

(** [matrix] is [true] when the element's matrix pointer is set (there is
    one matrix, so a non-nil pointer is a pointer to it). *)
Record Element := mkElement {
  up : ptr; down : ptr; left : ptr; right : ptr; column : ptr;
  matrix : bool;
  Value : value
}.

Record Matrix := mkMatrix {
  store : list Element;          (* position 0 is the field h *)
  o : list ptr;
  solutions : list (list string)
}.

Global Instance Head_eq_dec : EqDecision Head.
Proof. solve_decision. Defined.
Global Instance value_eq_dec : EqDecision value.
Proof. solve_decision. Defined.
Global Instance Element_eq_dec : EqDecision Element.
Proof. solve_decision. Defined.

(** The five pointer fields of an element, as selectors. *)
Inductive link := Lup | Ldown | Lleft | Lright | Lcolumn.

Global Instance link_eq_dec : EqDecision link.
Proof. solve_decision. Defined.

Definition getl (f : link) (e : Element) : ptr :=
  match f with
  | Lup => up e | Ldown => down e | Lleft => left e
  | Lright => right e | Lcolumn => column e
  end.

Definition setl (f : link) (v : ptr) (e : Element) : Element :=
  match f with
  | Lup => mkElement v (down e) (left e) (right e) (column e) (matrix e) (Value e)
  | Ldown => mkElement (up e) v (left e) (right e) (column e) (matrix e) (Value e)
  | Lleft => mkElement (up e) (down e) v (right e) (column e) (matrix e) (Value e)
  | Lright => mkElement (up e) (down e) (left e) v (column e) (matrix e) (Value e)
  | Lcolumn => mkElement (up e) (down e) (left e) (right e) v (matrix e) (Value e)
  end.

Definition set_matrix (b : bool) (e : Element) : Element :=
  mkElement (up e) (down e) (left e) (right e) (column e) b (Value e).

Definition set_Value (v : value) (e : Element) : Element :=
  mkElement (up e) (down e) (left e) (right e) (column e) (matrix e) v.

Definition zeroElement : Element :=
  mkElement None None None None None false VNil.

Definition ptr_eqb (p q : ptr) : bool := bool_decide (p = q).

(** ** Memory accesses; each one panics on a nil or dangling pointer *)

Definition deref (H : list Element) (p : ptr) : option Element :=
  a ← p; H !! a.

(** [p.f] *)
Definition load (H : list Element) (p : ptr) (f : link) : option ptr :=
  e ← deref H p; Some (getl f e).

(** [p.f = v] *)
Definition poke (H : list Element) (p : ptr) (f : link) (v : ptr)
  : option (list Element) :=
  a ← p; e ← H !! a; Some (<[a := setl f v e]> H).

(** [p.matrix = m] *)
Definition poke_matrix (H : list Element) (p : ptr) : option (list Element) :=
  a ← p; e ← H !! a; Some (<[a := set_matrix true e]> H).

(** [p.Value.(Head)] *)
Definition load_Head (H : list Element) (p : ptr) : option Head :=
  e ← deref H p;
  match Value e with VHead hd => Some hd | _ => None end.

(** [p.Value = v] *)
Definition poke_Value (H : list Element) (p : ptr) (v : value)
  : option (list Element) :=
  a ← p; e ← H !! a; Some (<[a := set_Value v e]> H).

(** [&Element{Value: v}] : the new element takes the next position. *)
Definition alloc (H : list Element) (v : value) : list Element * ptr :=
  (H ++ [set_Value v zeroElement], Some (length H)).

(** A [for] loop: [cond] is the loop condition, [body] the body followed
    by the post statement. *)
Fixpoint loop {S : Type} (fuel : nat) (cond : S → bool)
    (body : S → option S) (s : S) : option S :=
  match fuel with
  | 0 => None
  | Datatypes.S n =>
      if cond s then s' ← body s; loop n cond body s' else Some s
  end.

(** ** Element methods Up, Down, Left, Right *)

Definition neighbour (f : link) (H : list Element) (p : ptr) : option ptr :=
  e ← deref H p;
  Some (if matrix e && negb (ptr_eqb (getl f e) (Some 0))
        then getl f e else None).

Definition Up := neighbour Lup.
Definition Down := neighbour Ldown.
Definition Left := neighbour Lleft.
Definition Right := neighbour Lright.

(** ** Head methods Name, Size *)

Definition Name (h : Head) : string := name h.
Definition Size (h : Head) : Z := size h.

(** ** Matrix construction *)

Definition zeroMatrix : Matrix := mkMatrix [zeroElement] [] [].

Definition Init (m : Matrix) : option Matrix :=
  H ← poke (store m) (Some 0) Lup (Some 0);
  H ← poke H (Some 0) Ldown (Some 0);
  H ← poke H (Some 0) Lleft (Some 0);
  H ← poke H (Some 0) Lright (Some 0);
  H ← poke H (Some 0) Lcolumn (Some 0);
  Some (mkMatrix H [] []).

Definition New : option Matrix := Init zeroMatrix.

Definition MHead (m : Matrix) : option ptr :=
  r ← load (store m) (Some 0) Lright;
  Some (if ptr_eqb r (Some 0) then None else r).

Definition lazyInit (m : Matrix) : option Matrix :=
  r ← load (store m) (Some 0) Lright;
  if ptr_eqb r None then Init m else Some m.

Definition insertHead (H : list Element) (e at_ : ptr) : option (list Element) :=
  n ← load H at_ Lright;
  H ← poke H at_ Lright e;
  H ← poke H e Lleft at_;
  H ← poke H e Lright n;
  H ← poke H n Lleft e;
  H ← poke H e Lup e;
  H ← poke H e Ldown e;
  H ← poke_matrix H e;
  H ← poke H e Lcolumn e;
  Some H.

Definition insertHeadValue (H : list Element) (v : value) (at_ : ptr)
  : option (list Element * ptr) :=
  let '(H, e) := alloc H v in
  H ← insertHead H e at_;
  Some (H, e).

Definition PushHead (m : Matrix) (nm : string) : option (Matrix * ptr) :=
  m ← lazyInit m;
  let head := mkHead nm 0 in
  at_ ← load (store m) (Some 0) Lleft;
  '(H, e) ← insertHeadValue (store m) (VHead head) at_;
  Some (mkMatrix H (o m) (solutions m), e).

Definition insertItem (H : list Element) (e atR atC : ptr)
  : option (list Element) :=
  H ← (if ptr_eqb atR None then
         H ← poke H e Lleft e;
         poke H e Lright e
       else
         n ← load H atR Lright;
         H ← poke H atR Lright e;
         H ← poke H e Lleft atR;
         H ← poke H e Lright n;
         poke H n Lleft e);
  ch ← load H atC Ldown;
  H ← poke H atC Ldown e;
  H ← poke H e Lup atC;
  H ← poke H e Ldown ch;
  H ← poke H ch Lup e;
  H ← poke_matrix H e;
  H ← poke H e Lcolumn ch;
  hd ← load_Head H ch;
  hd' ← load_Head H ch;
  poke_Value H ch (VHead (mkHead (name hd) (wrap64 (size hd' + 1)))).

Definition PushItem (m : Matrix) (row colHead : ptr) : option (Matrix * ptr) :=
  let '(H, e) := alloc (store m) (VBool true) in
  atC ← load H colHead Lup;
  H ← insertItem H e row atC;
  Some (mkMatrix H (o m) (solutions m), e).

(** ** cover and uncover *)

(** Body of the inner loop of [cover], for one element [j]. *)
Definition cover_step (H : list Element) (j : ptr) : option (list Element) :=
  d ← load H j Ldown; u ← load H j Lup;
  H ← poke H d Lup u;
  u ← load H j Lup; d ← load H j Ldown;
  H ← poke H u Ldown d;
  c ← load H j Lcolumn;
  hd ← load_Head H c;
  c' ← load H j Lcolumn;
  hd' ← load_Head H c';
  poke_Value H c (VHead (mkHead (name hd) (wrap64 (size hd' - 1)))).

(** Body of the inner loop of [uncover], for one element [j]. *)
Definition uncover_step (H : list Element) (j : ptr) : option (list Element) :=
  c ← load H j Lcolumn;
  hd ← load_Head H c;
  c' ← load H j Lcolumn;
  hd' ← load_Head H c';
  H ← poke_Value H c (VHead (mkHead (name hd) (wrap64 (size hd' + 1))));
  d ← load H j Ldown;
  H ← poke H d Lup j;
  u ← load H j Lup;
  poke H u Ldown j.

(** [for j := i.F(); j != i; j = j.F() { step j }] *)
Definition ring_loop (fuel : nat) (nb : list Element → ptr → option ptr)
    (step : list Element → ptr → option (list Element))
    (H : list Element) (i : ptr) : option (list Element) :=
  j ← nb H i;
  fst <$> loop fuel (λ s : list Element * ptr, negb (ptr_eqb (snd s) i))
    (λ s, H' ← step (fst s) (snd s);
          j' ← nb H' (snd s);
          Some (H', j'))
    (H, j).

Definition cover (fuel : nat) (H : list Element) (c : ptr)
  : option (list Element) :=
  r ← load H c Lright; l ← load H c Lleft;
  H ← poke H r Lleft l;
  l ← load H c Lleft; r ← load H c Lright;
  H ← poke H l Lright r;
  ring_loop fuel Down (ring_loop fuel Right cover_step) H c.

Definition uncover (fuel : nat) (H : list Element) (c : ptr)
  : option (list Element) :=
  H ← ring_loop fuel Up (ring_loop fuel Left uncover_step) H c;
  r ← load H c Lright;
  H ← poke H r Lleft c;
  l ← load H c Lleft;
  poke H l Lright c.

(** ** Column choice, search and Solve *)

Definition getColumn (fuel : nat) (m : Matrix) : option ptr :=
  ce ← MHead m;
  s ← loop fuel (λ s : ptr * ptr * Z, negb (ptr_eqb (s.1.1) None))
        (λ s, let '(ce, c, s) := s in
              hd ← load_Head (store m) ce;
              let ces := size hd in
              let '(c, s) := if (ces <? s)%Z then (ce, ces) else (c, s) in
              ce' ← Right (store m) ce;
              Some (ce', c, s))
        (ce, None, uint64_max);
  Some (s.1.2).

(** The string of one chosen row [oi]: the name of its column, then the
    names met walking right until [oi] comes back.  (The counter [j] of
    the source is never read and is left out.) *)
Definition row_string (fuel : nat) (H : list Element) (oi : ptr)
  : option string :=
  c ← load H oi Lcolumn;
  hd ← load_Head H c;
  e ← Right H oi;
  snd <$> loop fuel (λ s : ptr * string, negb (ptr_eqb (fst s) oi))
    (λ s, c ← load H (fst s) Lcolumn;
          hd ← load_Head H c;
          e' ← Right H (fst s);
          Some (e', snd s +:+ (" " +:+ name hd)))
    (e, name hd).

(** The leaf of the search: one string per chosen row, appended to
    [m.solutions]. *)
Definition record (fuel : nat) (m : Matrix) : option Matrix :=
  solStr ← mapM (row_string fuel (store m)) (o m);
  Some (mkMatrix (store m) (o m) (solutions m ++ [solStr])).

Definition cover_row (fuel : nat) : list Element → ptr → option (list Element) :=
  ring_loop fuel Right (λ H j, c ← load H j Lcolumn; cover fuel H c).

Definition uncover_row (fuel : nat) : list Element → ptr → option (list Element) :=
  ring_loop fuel Left (λ H j, c ← load H j Lcolumn; uncover fuel H c).

Fixpoint search (fuel : nat) (m : Matrix) (k : nat) : option Matrix :=
  match fuel with
  | 0 => None
  | Datatypes.S n =>
      hd ← MHead m;
      if ptr_eqb hd None then record n m
      else
        c ← getColumn n m;
        H ← cover n (store m) c;
        r ← Down H c;
        s ← loop n (λ s : Matrix * ptr * ptr, negb (ptr_eqb (s.2) (s.1.2)))
              (λ s, let '(m, _, r) := s in
                    let m := mkMatrix (store m) (o m ++ [r]) (solutions m) in
                    H ← cover_row n (store m) r;
                    m ← search n (mkMatrix H (o m) (solutions m)) (k + 1);
                    r ← o m !! k;
                    let ok := <[k := None]> (o m) in
                    let ok := take (length ok - 1) ok in
                    c ← load (store m) r Lcolumn;
                    H ← uncover_row n (store m) r;
                    r' ← Down H r;
                    Some (mkMatrix H ok (solutions m), c, r'))
              (mkMatrix H (o m) (solutions m), c, r);
        H ← uncover n (store (s.1.1)) (s.1.2);
        Some (mkMatrix H (o (s.1.1)) (solutions (s.1.1)))
  end.

Definition Solve (fuel : nat) (m : Matrix) : option (Matrix * list (list string)) :=
  m ← search fuel m 0;
  Some (m, solutions m).

(** ** Scripts of API calls *)

Inductive call :=
  | CPushHead (nm : string)
  | CPushItem (row colHead : ptr).

Definition run_call (m : Matrix) (c : call) : option Matrix :=
  match c with
  | CPushHead nm => fst <$> PushHead m nm
  | CPushItem row colHead => fst <$> PushItem m row colHead
  end.

Fixpoint run_calls (m : Matrix) (cs : list call) : option Matrix :=
  match cs with
  | [] => Some m
  | c :: cs => m ← run_call m c; run_calls m cs
  end.

Definition build (cs : list call) : option Matrix :=
  m ← New; run_calls m cs.

(** ** Reading the store: total views of the fields *)

Definition fld (f : link) (H : list Element) (x : nat) : ptr :=
  e ← H !! x; getl f e.

Definition mtx (H : list Element) (x : nat) : bool :=
  default false (matrix <$> H !! x).

Definition val (H : list Element) (x : nat) : value :=
  default VNil (Value <$> H !! x).

Definition hset (H : list Element) (a : nat) (g : link) (v : ptr) : list Element :=
  match H !! a with Some e => <[a := setl g v e]> H | None => H end.

Definition hsetv (H : list Element) (a : nat) (v : value) : list Element :=
  match H !! a with Some e => <[a := set_Value v e]> H | None => H end.

Definition hsetm (H : list Element) (a : nat) : list Element :=
  match H !! a with Some e => <[a := set_matrix true e]> H | None => H end.

(** Size and name of the column header at [c] (0 and the empty string
    when [c] holds no [Head]). *)
Definition size_of (H : list Element) (c : nat) : Z :=
  match val H c with VHead hd => size hd | _ => 0%Z end.

Definition name_of (H : list Element) (c : nat) : string :=
  match val H c with VHead hd => name hd | _ => "" end.

(** The column an element points to, as an address (0 when nil). *)
Definition col_of (H : list Element) (x : nat) : nat :=
  default 0 (fld Lcolumn H x).

(** ** Results that hold from some amount of fuel on *)

Definition evt {A : Type} (F : nat → option A) (r : A) : Prop :=
  ∃ n0, ∀ n, n0 ≤ n → F n = Some r.

(** ** Cyclic lists: the successor of an element in a ring *)

Section cyclic.
Context {A : Type} `{EqDecision A}.

(** The element after [x] in [l], or [d] when [x] is last or absent. *)
Fixpoint nxt (d : A) (l : list A) (x : A) : A :=
  match l with
  | [] => d
  | y :: l' => if decide (x = y) then hd d l' else nxt d l' x
  end.

(** Successor and predecessor of [x] in the ring [L]. *)
Definition cnext (L : list A) (x : A) : A := nxt (hd x L) L x.
Definition cprev (L : list A) (x : A) : A := cnext (rev L) x.

(** The elements met from [x] on, going round the ring [L] until [x]
    comes back. *)
Fixpoint after (L : list A) (x : A) : list A :=
  match L with
  | [] => []
  | y :: L' => if decide (x = y) then L' else after L' x
  end.
Fixpoint before (L : list A) (x : A) : list A :=
  match L with
  | [] => []
  | y :: L' => if decide (x = y) then [] else y :: before L' x
  end.
Definition others (L : list A) (x : A) : list A := after L x ++ before L x.

(** [e] inserted in the ring just after [a]. *)
Fixpoint insert_after (a e : A) (L : list A) : list A :=
  match L with
  | [] => []
  | y :: L' => if decide (a = y) then y :: e :: L' else y :: insert_after a e L'
  end.

Definition remove1 (x : A) (L : list A) : list A :=
  filter (λ y, y ≠ x) L.
End cyclic.

(** * Inputs and observations

    What the properties below are stated with: sequences of calls, and
    what can be read off a store by following its pointers. *)

(** ** Construction scripts

    A script is run from [New] by [build]; its [i]-th call (counting from
    0) allocates the element at address [i + 1]. *)

(** The names pushed by a script, and the addresses of their headers. *)
Definition pushed_names (cs : list call) : list string :=
  omap (λ c, match c with CPushHead nm => Some nm | _ => None end) cs.

(** The addresses of the headers a script pushes. *)
Fixpoint heads_from (e : nat) (cs : list call) : list nat :=
  match cs with
  | [] => []
  | CPushHead _ :: cs => e :: heads_from (S e) cs
  | CPushItem _ _ :: cs => heads_from (S e) cs
  end.

Definition pushed_heads (cs : list call) : list nat := heads_from 1 cs.

(** The script pushes an item under the header [c]. *)
Definition pushes_under (c : nat) (cs : list call) : Prop :=
  Exists (λ a, match a with CPushItem _ (Some ch) => ch = c | _ => False end) cs.

#[global] Instance pushes_under_dec c cs : Decision (pushes_under c cs).
Proof.
  unfold pushes_under. apply Exists_dec. intros [nm|row [ch|]]; apply _.
Defined.

(** The addresses of the items a script pushes under the header [c]. *)
Fixpoint under_from (c e : nat) (cs : list call) : list nat :=
  match cs with
  | [] => []
  | CPushItem _ (Some ch) :: cs =>
      if decide (ch = c) then e :: under_from c (S e) cs else under_from c (S e) cs
  | _ :: cs => under_from c (S e) cs
  end.

Definition pushed_under (c : nat) (cs : list call) : list nat := under_from c 1 cs.

(** A script short enough for its store to fit a 64-bit address space. *)
Definition small (cs : list call) : Prop :=
  (Z.of_nat (S (length cs)) < uint64_mod)%Z.

(** ** Sequences of cover and uncover operations *)

(** [search] calls [cover] and [uncover] only; they are not exported. *)
Inductive op :=
  | OCover (c : ptr)
  | OUncover (c : ptr).

Definition run_op (n : nat) (H : list Element) (p : op) : option (list Element) :=
  match p with
  | OCover c => cover n H c
  | OUncover c => uncover n H c
  end.

Fixpoint run_ops (n : nat) (H : list Element) (ps : list op) : option (list Element) :=
  match ps with
  | [] => Some H
  | p :: ps => H ← run_op n H p; run_ops n H ps
  end.

(** A construction script followed by cover and uncover operations. *)
Definition session (n : nat) (cs : list call) (ps : list op) : option (list Element) :=
  m ← build cs; run_ops n (store m) ps.

(** ** Sequences of calls of the exported methods *)

(** [PushHead], [PushItem] and [Solve], in any order. *)
Inductive api :=
  | APushHead (nm : string)
  | APushItem (row colHead : ptr)
  | ASolve.

Definition run_api (n : nat) (m : Matrix) (a : api) : option Matrix :=
  match a with
  | APushHead nm => fst <$> PushHead m nm
  | APushItem row colHead => fst <$> PushItem m row colHead
  | ASolve => fst <$> Solve n m
  end.

Fixpoint run_apis (n : nat) (m : Matrix) (l : list api) : option Matrix :=
  match l with
  | [] => Some m
  | a :: l => m ← run_api n m a; run_apis n m l
  end.

(** ** Reading rings and strings *)

(** [e.f.g == e] *)
Definition round_trip (f g : link) (H : list Element) (e : nat) : Prop :=
  ∃ y, load H (Some e) f = Some (Some y) ∧ load H (Some y) g = Some (Some e).

(** The number of elements met going down from [x] before the header [c]
    is met. *)
Fixpoint count_down (n : nat) (H : list Element) (c x : nat) : option nat :=
  match n with
  | 0 => None
  | S n =>
      d ← load H (Some x) Ldown;
      match d with
      | None => None
      | Some y => if decide (y = c) then Some 0 else S <$> count_down n H c y
      end
  end.

(** The number of items in the vertical ring of the header [c]. *)
Definition ring_size (n : nat) (H : list Element) (c : nat) : option nat :=
  count_down n H c c.

(** The headers met from the sentinel rightwards, as [getColumn] scans
    them. *)
Definition headers (fuel : nat) (m : Matrix) : option (list nat) :=
  ce ← MHead m;
  s ← loop fuel (λ s : ptr * list nat, negb (ptr_eqb (s.1) None))
        (λ s, let '(ce, acc) := s in
              a ← ce;
              ce' ← Right (store m) ce;
              Some (ce', acc ++ [a]))
        (ce, []);
  Some (s.2).

(** The elements met by [for x := i.F(); x != i; x = x.F()], in order. *)
Definition walk (fuel : nat) (nb : list Element → ptr → option ptr)
    (H : list Element) (i : ptr) : option (list ptr) :=
  j ← nb H i;
  snd <$> loop fuel (λ s : ptr * list ptr, negb (ptr_eqb (s.1) i))
    (λ s, j' ← nb H (s.1); Some (j', s.2 ++ [s.1]))
    (j, []).

(** One branch of [search], from the call on the store [H] down to a
    leaf.  At each depth [getColumn] returns a column [c], which is
    covered; the row element [r] that [search] appends to [m.o] is one of
    the elements met by [for r := c.Down(); r != c; r = r.Down()], and the
    columns of the other elements of its row are covered before the
    recursive call.  [enters H os H'] : the elements appended along the
    branch are [os], and the leaf, where [Head()] is nil, is reached with
    the store [H']. *)
Inductive enters : list Element → list nat → list Element → Prop :=
  | enters_leaf (H : list Element) :
      MHead (mkMatrix H [] []) = Some None → enters H [] H
  | enters_row (H H1 H2 H' : list Element) (c r : nat) (rs : list ptr) (os : list nat) :
      evt (λ n, getColumn n (mkMatrix H [] [])) (Some c) →
      evt (λ n, cover n H (Some c)) H1 →
      evt (λ n, walk n Down H1 (Some c)) rs → Some r ∈ rs →
      evt (λ n, cover_row n H1 (Some r)) H2 →
      enters H2 os H' →
      enters H (r :: os) H'.

(** The names [ns] with one space between them, built as [search]
    builds the string of a row. *)
Definition join (ns : list string) : string :=
  match ns with
  | [] => ""
  | n :: ns => fold_left (λ acc y, acc +:+ (" " +:+ y)) ns n
  end.

(** The fields of a string between its spaces. *)
Fixpoint fields (s : string) : list string :=
  match s with
  | EmptyString => [EmptyString]
  | String a s' =>
      if Ascii.eqb a " "%char then EmptyString :: fields s'
      else match fields s' with
           | [] => [String a EmptyString]
           | w :: ws => String a w :: ws
           end
  end.

(** The string has no space. *)
Fixpoint no_space (s : string) : bool :=
  match s with
  | EmptyString => true
  | String a s' => negb (Ascii.eqb a " "%char) && no_space s'
  end.

(** ** Instances

    The matrix of Knuth's paper: seven columns [A] to [G], at the addresses
    1 to 7, and the six rows [C E F], [A D G], [B C F], [A D], [B G] and
    [D E G]; its only exact cover is made of the rows [A D], [B G] and
    [C E F]. *)

(** The matrix of the paper. *)
Definition knuth : list call :=
  [CPushHead "A"; CPushHead "B"; CPushHead "C"; CPushHead "D";
   CPushHead "E"; CPushHead "F"; CPushHead "G";
   CPushItem None (Some 3); CPushItem (Some 8) (Some 5); CPushItem (Some 9) (Some 6);
   CPushItem None (Some 1); CPushItem (Some 11) (Some 4); CPushItem (Some 12) (Some 7);
   CPushItem None (Some 2); CPushItem (Some 14) (Some 3); CPushItem (Some 15) (Some 6);
   CPushItem None (Some 1); CPushItem (Some 17) (Some 4);
   CPushItem None (Some 2); CPushItem (Some 19) (Some 7);
   CPushItem None (Some 4); CPushItem (Some 21) (Some 5); CPushItem (Some 22) (Some 7)].

(** Two columns, and one row in the first column only. *)
Definition lonely : list call :=
  [CPushHead "A"; CPushHead "B"; CPushItem None (Some 1)].

(** Two columns, and one row with an item in each. *)
Definition duo : list call :=
  [CPushHead "A"; CPushHead "B"; CPushItem None (Some 1); CPushItem (Some 3) (Some 2)].

(** Scripts the package accepts although they describe no 0/1 matrix: a
    row is given two items in one column.  [twin] has one column [A] and
    one row, with both its items in [A].  [tangle] has the columns [A] and
    [B], the row of the items 3 and 5, both in [A], and the row of the
    items 4, 6 and 7, in [B], [A] and [B]. *)
Definition twin : list call :=
  [CPushHead "A"; CPushItem None (Some 1); CPushItem (Some 2) (Some 1)].

Definition tangle : list call :=
  [CPushHead "A"; CPushHead "B";
   CPushItem None (Some 1); CPushItem None (Some 2);
   CPushItem (Some 3) (Some 1);
   CPushItem (Some 4) (Some 1); CPushItem (Some 6) (Some 2)].

(** * The shape of a matrix

    A [shape] is the mathematical content of a store: which addresses are
    column headers, which headers are still in the header ring, the rows
    (each the list of its items in ring order from the first one pushed),
    for every header the items currently linked in its vertical ring, top
    to bottom, and for every item its column and for every header its
    name.  Shapes are ghost state: the package knows nothing of them. *)

Record shape := mkShape {
  s_cols : list nat;
  s_live : list nat;
  s_rows : list (list nat);
  s_vr : nat → list nat;
  s_col : nat → nat;
  s_name : nat → string
}.

(** The items of a shape, and the row an item is in. *)
Definition items (A : shape) : list nat := concat (s_rows A).

Definition row_of (A : shape) (x : nat) : list nat :=
  hd [] (filter (λ R, x ∈ R) (s_rows A)).

(** The items met from [i] along its row. *)
Definition mates (A : shape) (i : nat) : list nat := others (row_of A i) i.

(** The items of the row of [r], from [r] on in ring order; the columns
    of the items met after [r], and the names [search] writes for the row. *)
Definition row_items (A : shape) (r : nat) : list nat := r :: mates A r.

Definition row_cols (A : shape) (r : nat) : list nat := s_col A <$> mates A r.

(** The name of the column of an item. *)
Definition col_name (A : shape) (y : nat) : string := s_name A (s_col A y).

Definition row_names (A : shape) (r : nat) : list string :=
  (λ y, s_name A (s_col A y)) <$> row_items A r.

Definition chosen_cols (A : shape) (os : list nat) : list nat :=
  concat ((λ r, s_col A <$> row_items A r) <$> os).

(** The last element of [l], or [d]. *)
Definition lastd {A} (d : A) (l : list A) : A := hd d (rev l).

(** ** The invariant

    [SInv H A]: the store [H] holds a matrix of shape [A].  The links of a
    covered header and of an unlinked item are not constrained by the
    header ring and by the vertical rings, which bypass them. *)

(** [L] is a ring of the store: [fn] leads to the successor and [fp] to
    the predecessor. *)
Definition ring (H : list Element) (fn fp : link) (L : list nat) : Prop :=
  ∀ x, x ∈ L → fld fn H x = Some (cnext L x) ∧ fld fp H x = Some (cprev L x).

Record SInv (H : list Element) (A : shape) : Prop := mkSInv {
  si_addr : ∀ a, a < length H ↔ a ∈ 0 :: s_cols A ++ items A;
  si_nodup : NoDup (0 :: s_cols A ++ items A);
  si_sent : mtx H 0 = false;
  si_sent_v : fld Lup H 0 = Some 0 ∧ fld Ldown H 0 = Some 0;
  si_hring : ring H Lright Lleft (0 :: s_live A);
  si_live_nodup : NoDup (s_live A);
  si_live : ∀ c, c ∈ s_live A → c ∈ s_cols A;
  si_head : ∀ c, c ∈ s_cols A →
     mtx H c = true ∧ fld Lcolumn H c = Some c ∧
     val H c = VHead (mkHead (s_name A c) (wrap64 (Z.of_nat (length (s_vr A c)))));
  si_vring : ∀ c, c ∈ s_cols A → ring H Ldown Lup (c :: s_vr A c);
  si_vr_nodup : ∀ c, c ∈ s_cols A → NoDup (s_vr A c);
  si_vr_item : ∀ c x, c ∈ s_cols A → x ∈ s_vr A c → x ∈ items A ∧ s_col A x = c;
  si_item : ∀ x, x ∈ items A →
     mtx H x = true ∧ val H x = VBool true ∧
     fld Lcolumn H x = Some (s_col A x) ∧ s_col A x ∈ s_cols A;
  si_row : ∀ R, R ∈ s_rows A →
     R ≠ [] ∧ ring H Lright Lleft R ∧ NoDup (s_col A <$> R)
}.

(** An item is linked when its column is live and it is in the vertical
    ring of its column; rows are linked as a whole. *)
Definition linked (A : shape) (x : nat) : Prop :=
  s_col A x ∈ s_live A ∧ x ∈ s_vr A (s_col A x).

(** [Inv H A]: the matrix [search] works on. *)
Definition whole_rows (A : shape) : Prop :=
  ∀ R x y, R ∈ s_rows A → x ∈ R → y ∈ R → linked A x → linked A y.

Definition Inv (H : list Element) (A : shape) : Prop :=
  SInv H A ∧ whole_rows A.

(** A freshly built matrix: nothing is covered. *)
Definition pristine (A : shape) : Prop :=
  s_live A = s_cols A ∧ ∀ x, x ∈ items A → x ∈ s_vr A (s_col A x).

(** An item taken out of the vertical ring of its column. *)
Definition unlinked (A : shape) (e : nat) : Prop :=
  e ∈ items A ∧ e ∉ s_vr A (s_col A e).

(** Every element fits in a 64-bit address space. *)
Definition fits (H : list Element) : Prop := (Z.of_nat (length H) < uint64_mod)%Z.

(** The shapes met during one search differ in what is linked only. *)
Definition same_static (A B : shape) : Prop :=
  s_cols A = s_cols B ∧ s_rows A = s_rows B ∧ s_col A = s_col B ∧ s_name A = s_name B.

(** ** The effect of the operations on shapes *)

(** The inner step of [cover] takes the item [j] out of its vertical ring;
    the first step of [cover] takes the header [c] out of the header ring. *)
Definition aunlink (A : shape) (j : nat) : shape :=
  mkShape (s_cols A) (s_live A) (s_rows A)
          (λ c, remove1 j (s_vr A c)) (s_col A) (s_name A).

Definition ahide (A : shape) (c : nat) : shape :=
  mkShape (s_cols A) (remove1 c (s_live A)) (s_rows A)
          (s_vr A) (s_col A) (s_name A).

(** The items [cover c] unlinks, in the order it does. *)
Definition cover_items (A : shape) (c : nat) : list nat :=
  concat ((λ i, others (row_of A i) i) <$> s_vr A c).

Definition acover (A : shape) (c : nat) : shape :=
  fold_left aunlink (cover_items A c) (ahide A c).

(** The columns of the mates of the chosen row [r] are covered in turn. *)
Definition acover_row (A : shape) (r : nat) : shape :=
  fold_left acover (row_cols A r) A.

(** [PushHead nm] and [PushItem row c] allocating the address [e]. *)
Definition apush_head (A : shape) (e : nat) (nm : string) : shape :=
  mkShape (s_cols A ++ [e]) (s_live A ++ [e]) (s_rows A)
          (λ c, if decide (c = e) then [] else s_vr A c)
          (s_col A)
          (λ c, if decide (c = e) then nm else s_name A c).

Definition apush_item (A : shape) (e : nat) (row : option nat) (c : nat) : shape :=
  mkShape (s_cols A) (s_live A)
          (match row with
           | None => s_rows A ++ [[e]]
           | Some a => (λ R, if decide (a ∈ R) then insert_after a e R else R) <$> s_rows A
           end)
          (λ c', if decide (c' = c) then s_vr A c ++ [e] else s_vr A c')
          (λ x, if decide (x = e) then c else s_col A x)
          (s_name A).

(** ** The effect of the operations on stores *)

(** The address in the field [f] of [x] (0 when nil), and the stores
    after the inner step of [cover] on the item [j] and after its first
    step on the header [c]. *)
Definition nfld (f : link) (H : list Element) (x : nat) : nat :=
  default 0 (fld f H x).

Definition ustep (H : list Element) (j : nat) : list Element :=
  let d := nfld Ldown H j in
  let u := nfld Lup H j in
  let c := nfld Lcolumn H j in
  let H1 := hset H d Lup (Some u) in
  let H2 := hset H1 u Ldown (Some d) in
  hsetv H2 c (VHead (mkHead (name_of H c) (wrap64 (size_of H c - 1)))).

Definition hide (H : list Element) (c : nat) : list Element :=
  let r := nfld Lright H c in
  let l := nfld Lleft H c in
  hset (hset H r Lleft (Some l)) l Lright (Some r).

(** The store after [cover c]. *)
Definition cover_store (H : list Element) (A : shape) (c : nat) : list Element :=
  fold_left ustep (cover_items A c) (hide H c).

(** [cover c] on a store and its shape. *)
Definition cstep (S : list Element * shape) (c : nat) : list Element * shape :=
  (cover_store (fst S) (snd S) c, acover (snd S) c).

(** The store after [PushHead nm]. *)
Definition head_store (H : list Element) (nm : string) : list Element :=
  let e := length H in
  let a := nfld Lleft H 0 in
  let H0 := H ++ [set_Value (VHead (mkHead nm 0)) zeroElement] in
  let n := nfld Lright H0 a in
  hset (hsetm (hset (hset (hset (hset (hset (hset
    H0 a Lright (Some e)) e Lleft (Some a)) e Lright (Some n))
    n Lleft (Some e)) e Lup (Some e)) e Ldown (Some e)) e) e Lcolumn (Some e).

(** The store after [PushItem row c]: the new item [e] sits between
    [pr] and [nx] in its row and at the bottom of column [c]. *)
Definition item_store (H : list Element) (row : option nat) (c : nat) : list Element :=
  let e := length H in
  let H0 := H ++ [set_Value (VBool true) zeroElement] in
  let t := nfld Lup H0 c in
  let H1 :=
    match row with
    | None => hset (hset H0 e Lleft (Some e)) e Lright (Some e)
    | Some ar =>
        let n := nfld Lright H0 ar in
        hset (hset (hset (hset H0 ar Lright (Some e)) e Lleft (Some ar))
                e Lright (Some n)) n Lleft (Some e)
    end in
  let ch := nfld Ldown H1 t in
  let H2 :=
    hset (hsetm (hset (hset (hset (hset H1 t Ldown (Some e)) e Lup (Some t))
            e Ldown (Some ch)) ch Lup (Some e)) e) e Lcolumn (Some ch) in
  hsetv H2 ch (VHead (mkHead (name_of H2 ch) (wrap64 (size_of H2 ch + 1)))).

(** ** Column choice and search on shapes *)

(** One round of the scan of [getColumn]: the pair is [(c, s)]. *)
Definition pick (sz : nat → Z) (st : ptr * Z) (ce : nat) : ptr * Z :=
  if (sz ce <? snd st)%Z then (Some ce, sz ce) else st.

Definition scan (sz : nat → Z) (l : list nat) : ptr * Z :=
  fold_left (pick sz) l (None, uint64_max).

(** The column [getColumn] returns, read off the shape. *)
Definition asize (A : shape) (c : nat) : Z := wrap64 (Z.of_nat (length (s_vr A c))).

Definition choose (A : shape) : ptr := fst (scan (asize A) (s_live A)).

(** The strings [search] records for the chosen rows [o]. *)
Definition render_row (A : shape) (r : nat) : string :=
  fold_left (λ acc y, acc +:+ (" " +:+ s_name A (s_col A y)))
            (mates A r) (s_name A (s_col A r)).

Definition render (A : shape) (o : list nat) : list string := render_row A <$> o.

(** Algorithm X on shapes: the solutions [search] records from the
    shape [A] with the rows [o] already chosen; [k] bounds the depth. *)
Fixpoint asearch (k : nat) (A : shape) (o : list nat) : list (list string) :=
  match s_live A with
  | [] => [render A o]
  | _ :: _ =>
      match k with
      | 0 => []
      | S k' =>
          match choose A with
          | None => []
          | Some c =>
              concat ((λ r, asearch k' (acover_row (acover A c) r) (o ++ [r]))
                        <$> s_vr A c)
          end
      end
  end.

(** The solutions one call of [Solve] adds. *)
Definition found (A : shape) : list (list string) :=
  asearch (length (s_live A)) A [].

(** The body of the loop of [search] over the rows of the chosen column,
    with the recursive call as a parameter. *)
Definition branch (srch : Matrix → nat → option Matrix) (n k : nat)
    (s : Matrix * ptr * ptr) : option (Matrix * ptr * ptr) :=
  let '(m, _, r) := s in
  let m := mkMatrix (store m) (o m ++ [r]) (solutions m) in
  H ← cover_row n (store m) r;
  m ← srch (mkMatrix H (o m) (solutions m)) (k + 1);
  r ← o m !! k;
  let ok := <[k := None]> (o m) in
  let ok := take (length ok - 1) ok in
  c ← load (store m) r Lcolumn;
  H ← uncover_row n (store m) r;
  r' ← Down H r;
  Some (mkMatrix H ok (solutions m), c, r').

(** [search] at depth at most [k] does what [asearch] says, and gives
    the store and the chosen rows back as it found them. *)
Definition search_ok (k : nat) : Prop :=
  ∀ H A o, Inv H A → fits H → length (s_live A) ≤ k →
    Forall (λ r, r ∈ items A) o →
    ∀ sols, evt (λ n, search n (mkMatrix H (Some <$> o) sols) (length o))
                (mkMatrix H (Some <$> o) (sols ++ asearch k A o)).

(** ** Well-formed scripts

    A script is well formed when every [PushItem] names the header of a
    column pushed before, a row element pushed before (or nil, for a new
    row), and a column in which the row has no item yet. *)

(** What the API expects of the arguments of [PushItem]: a column
    header, and either no row or an item whose row has no item in that
    column yet. *)
Definition item_args_ok (A : shape) (row : option nat) (c : nat) : Prop :=
  c ∈ s_cols A ∧
  match row with
  | None => True
  | Some ar => ar ∈ items A ∧ c ∉ (s_col A <$> row_of A ar)
  end.

(** The matrix of [New], and the effect of one call and of a script. *)
Definition empty_shape : shape :=
  mkShape [] [] [] (λ _, []) (λ _, 0) (λ _, "").

Definition new_store : list Element :=
  [mkElement (Some 0) (Some 0) (Some 0) (Some 0) (Some 0) false VNil].

Definition acall (A : shape) (e : nat) (c : call) : shape :=
  match c with
  | CPushHead nm => apush_head A e nm
  | CPushItem row (Some ch) => apush_item A e row ch
  | CPushItem _ None => A
  end.

Definition call_store (H : list Element) (c : call) : list Element :=
  match c with
  | CPushHead nm => head_store H nm
  | CPushItem row (Some ch) => item_store H row ch
  | CPushItem _ None => H
  end.

Definition call_ok (A : shape) (c : call) : Prop :=
  match c with
  | CPushHead _ => True
  | CPushItem row (Some ch) => item_args_ok A row ch
  | CPushItem _ None => False
  end.

Fixpoint shape_from (A : shape) (e : nat) (cs : list call) : shape :=
  match cs with
  | [] => A
  | c :: cs => shape_from (acall A e c) (S e) cs
  end.

Fixpoint script_ok (A : shape) (e : nat) (cs : list call) : Prop :=
  match cs with
  | [] => True
  | c :: cs => call_ok A c ∧ script_ok (acall A e c) (S e) cs
  end.

Definition shape_of (cs : list call) : shape := shape_from empty_shape 1 cs.

Definition store_of (cs : list call) : list Element := fold_left call_store cs new_store.

Definition well_formed (cs : list call) : Prop := script_ok empty_shape 1 cs.

#[global] Instance item_args_ok_dec A row c : Decision (item_args_ok A row c).
Proof. unfold item_args_ok. destruct row; apply _. Defined.

#[global] Instance call_ok_dec A c : Decision (call_ok A c).
Proof. destruct c as [nm|row [ch|]]; simpl; apply _. Defined.

#[global] Instance script_ok_dec cs : ∀ A e, Decision (script_ok A e cs).
Proof. induction cs as [|c cs IH]; intros A e; simpl; apply _. Defined.

#[global] Instance well_formed_dec cs : Decision (well_formed cs).
Proof. unfold well_formed. apply _. Defined.

(** ** Nested cover and uncover on shapes

    [search] covers live columns and uncovers them in the reverse order.
    The columns covered and not yet uncovered are kept on a stack, each
    with the shape of the matrix before it was covered. *)

(** The shape, and the stack of the columns covered. *)
Definition astate : Type := shape * list (nat * shape).

(** [cover] is applied to a live column, [uncover] to the column covered
    last. *)
Definition aop (S : astate) (p : op) : option astate :=
  match p with
  | OCover (Some c) =>
      if decide (c ∈ s_live S.1) then Some (acover S.1 c, (c, S.1) :: S.2) else None
  | OUncover (Some c) =>
      match S.2 with
      | (c', A0) :: stk => if decide (c = c') then Some (A0, stk) else None
      | [] => None
      end
  | _ => None
  end.

Fixpoint aops (S : astate) (ps : list op) : option astate :=
  match ps with
  | [] => Some S
  | p :: ps => S ← aop S p; aops S ps
  end.

(** The store and the shape are those [cover] made of the ones kept on
    the stack; at the bottom, nothing is covered. *)
Fixpoint stack_inv (H : list Element) (A : shape) (stk : list (nat * shape)) : Prop :=
  match stk with
  | [] => pristine A
  | (c, A0) :: stk =>
      ∃ H0, Inv H0 A0 ∧ c ∈ s_live A0 ∧
            H = cover_store H0 A0 c ∧ A = acover A0 c ∧ stack_inv H0 A0 stk
  end.

(** ** Balanced stacks and exact covers *)

(** The store and the shape are those [cover] made of the ones kept on
    the stack; at the bottom is the store [Hb] of shape [Ab]. *)
Fixpoint stack_base (Hb : list Element) (Ab : shape)
    (H : list Element) (A : shape) (stk : list (nat * shape)) : Prop :=
  match stk with
  | [] => H = Hb ∧ A = Ab
  | (c, A0) :: stk =>
      ∃ H0, Inv H0 A0 ∧ c ∈ s_live A0 ∧
            H = cover_store H0 A0 c ∧ A = acover A0 c ∧ stack_base Hb Ab H0 A0 stk
  end.

(** A row whose columns are all live has all its items in the vertical
    rings. *)
Definition rows_ready (A : shape) : Prop :=
  ∀ z, z ∈ items A → (∀ y, y ∈ row_of A z → s_col A y ∈ s_live A) →
       z ∈ s_vr A (s_col A z).

(** The rows [Rs] of the matrix of a script cover every column once. *)
Definition exact_cover (cs : list call) (Rs : list (list nat)) : Prop :=
  Forall (λ R, R ∈ s_rows (shape_of cs)) Rs ∧
  concat ((λ R : list nat, s_col (shape_of cs) <$> R) <$> Rs) ≡ₚ pushed_heads cs.

(** ** Heap algebra *)

Lemma getl_setl f g v e :
  getl f (setl g v e) = if decide (f = g) then v else getl f e.
Proof. destruct f, g; reflexivity. Qed.

Lemma poke_Some H a g v :
  a < length H → poke H (Some a) g v = Some (hset H a g v).
Proof.
  intros Ha. unfold poke, hset. simpl.
  destruct (lookup_lt_is_Some_2 H a Ha) as [e He]. rewrite He. reflexivity.
Qed.

Lemma poke_Value_Some H a v :
  a < length H → poke_Value H (Some a) v = Some (hsetv H a v).
Proof.
  intros Ha. unfold poke_Value, hsetv. simpl.
  destruct (lookup_lt_is_Some_2 H a Ha) as [e He]. rewrite He. reflexivity.
Qed.

Lemma poke_matrix_Some H a :
  a < length H → poke_matrix H (Some a) = Some (hsetm H a).
Proof.
  intros Ha. unfold poke_matrix, hsetm. simpl.
  destruct (lookup_lt_is_Some_2 H a Ha) as [e He]. rewrite He. reflexivity.
Qed.

Lemma load_Some H a f :
  a < length H → load H (Some a) f = Some (fld f H a).
Proof.
  intros Ha. unfold load, deref, fld. simpl.
  destruct (lookup_lt_is_Some_2 H a Ha) as [e He]. rewrite He. reflexivity.
Qed.

Lemma load_Head_Some H a hd :
  val H a = VHead hd → load_Head H (Some a) = Some hd.
Proof.
  unfold val, load_Head, deref. simpl.
  destruct (H !! a) as [e|]; simpl; [|discriminate].
  intros ->. reflexivity.
Qed.

Lemma neighbour_Some f H a :
  a < length H →
  neighbour f H (Some a) =
    Some (if mtx H a && negb (ptr_eqb (fld f H a) (Some 0))
          then fld f H a else None).
Proof.
  intros Ha. unfold neighbour, deref, fld, mtx. simpl.
  destruct (lookup_lt_is_Some_2 H a Ha) as [e He]. rewrite He. reflexivity.
Qed.

Lemma length_hset H a g v : length (hset H a g v) = length H.
Proof. unfold hset. destruct (H !! a); [apply length_insert | reflexivity]. Qed.

Lemma length_hsetv H a v : length (hsetv H a v) = length H.
Proof. unfold hsetv. destruct (H !! a); [apply length_insert | reflexivity]. Qed.

Lemma length_hsetm H a : length (hsetm H a) = length H.
Proof. unfold hsetm. destruct (H !! a); [apply length_insert | reflexivity]. Qed.

Lemma lookup_hset H a g v x :
  hset H a g v !! x = if decide (x = a) then setl g v <$> H !! a else H !! x.
Proof.
  unfold hset. destruct (H !! a) as [e|] eqn:He.
  - destruct (decide (x = a)) as [->|Hne].
    + rewrite list_lookup_insert_eq; [reflexivity|]. eapply lookup_lt_Some, He.
    + rewrite list_lookup_insert_ne; [reflexivity | congruence].
  - destruct (decide (x = a)) as [->|Hne]; [rewrite He|]; reflexivity.
Qed.

Lemma lookup_hsetv H a v x :
  hsetv H a v !! x = if decide (x = a) then set_Value v <$> H !! a else H !! x.
Proof.
  unfold hsetv. destruct (H !! a) as [e|] eqn:He.
  - destruct (decide (x = a)) as [->|Hne].
    + rewrite list_lookup_insert_eq; [reflexivity|]. eapply lookup_lt_Some, He.
    + rewrite list_lookup_insert_ne; [reflexivity | congruence].
  - destruct (decide (x = a)) as [->|Hne]; [rewrite He|]; reflexivity.
Qed.

Lemma lookup_hsetm H a x :
  hsetm H a !! x = if decide (x = a) then set_matrix true <$> H !! a else H !! x.
Proof.
  unfold hsetm. destruct (H !! a) as [e|] eqn:He.
  - destruct (decide (x = a)) as [->|Hne].
    + rewrite list_lookup_insert_eq; [reflexivity|]. eapply lookup_lt_Some, He.
    + rewrite list_lookup_insert_ne; [reflexivity | congruence].
  - destruct (decide (x = a)) as [->|Hne]; [rewrite He|]; reflexivity.
Qed.

Lemma fld_hset f H a g v x :
  a < length H →
  fld f (hset H a g v) x = if decide (x = a ∧ f = g) then v else fld f H x.
Proof.
  intros Ha. unfold fld. rewrite lookup_hset.
  destruct (lookup_lt_is_Some_2 H a Ha) as [e He].
  destruct (decide (x = a)) as [->|Hne].
  - rewrite He. simpl. rewrite getl_setl.
    destruct (decide (f = g)); destruct (decide (a = a ∧ f = g)); tauto.
  - destruct (decide (x = a ∧ f = g)); [tauto | reflexivity].
Qed.

Lemma mtx_hset H a g v x : mtx (hset H a g v) x = mtx H x.
Proof.
  unfold mtx. rewrite lookup_hset. destruct (decide (x = a)) as [->|]; [|reflexivity].
  destruct (H !! a) as [e|]; [destruct g|]; reflexivity.
Qed.

Lemma val_hset H a g v x : val (hset H a g v) x = val H x.
Proof.
  unfold val. rewrite lookup_hset. destruct (decide (x = a)) as [->|]; [|reflexivity].
  destruct (H !! a) as [e|]; [destruct g|]; reflexivity.
Qed.

Lemma fld_hsetv f H a v x : fld f (hsetv H a v) x = fld f H x.
Proof.
  unfold fld. rewrite lookup_hsetv. destruct (decide (x = a)) as [->|]; [|reflexivity].
  destruct (H !! a) as [e|]; [destruct f|]; reflexivity.
Qed.

Lemma mtx_hsetv H a v x : mtx (hsetv H a v) x = mtx H x.
Proof.
  unfold mtx. rewrite lookup_hsetv. destruct (decide (x = a)) as [->|]; [|reflexivity].
  destruct (H !! a) as [e|]; reflexivity.
Qed.

Lemma val_hsetv H a v x :
  a < length H →
  val (hsetv H a v) x = if decide (x = a) then v else val H x.
Proof.
  intros Ha. unfold val. rewrite lookup_hsetv.
  destruct (decide (x = a)) as [->|]; [|reflexivity].
  destruct (lookup_lt_is_Some_2 H a Ha) as [e ->]. reflexivity.
Qed.

Lemma fld_hsetm f H a x : fld f (hsetm H a) x = fld f H x.
Proof.
  unfold fld. rewrite lookup_hsetm. destruct (decide (x = a)) as [->|]; [|reflexivity].
  destruct (H !! a) as [e|]; [destruct f|]; reflexivity.
Qed.

Lemma val_hsetm H a x : val (hsetm H a) x = val H x.
Proof.
  unfold val. rewrite lookup_hsetm. destruct (decide (x = a)) as [->|]; [|reflexivity].
  destruct (H !! a) as [e|]; reflexivity.
Qed.

Lemma mtx_hsetm H a x :
  a < length H →
  mtx (hsetm H a) x = if decide (x = a) then true else mtx H x.
Proof.
  intros Ha. unfold mtx. rewrite lookup_hsetm.
  destruct (decide (x = a)) as [->|]; [|reflexivity].
  destruct (lookup_lt_is_Some_2 H a Ha) as [e ->]. reflexivity.
Qed.

Lemma fld_lt f H x y : fld f H x = Some y → x < length H.
Proof.
  unfold fld. destruct (H !! x) eqn:E; [|discriminate].
  intros _. eapply lookup_lt_Some, E.
Qed.

(** Two stores of the same length with the same fields are equal. *)
Lemma heap_ext (H1 H2 : list Element) :
  length H1 = length H2 →
  (∀ f x, fld f H1 x = fld f H2 x) →
  (∀ x, mtx H1 x = mtx H2 x) →
  (∀ x, val H1 x = val H2 x) →
  H1 = H2.
Proof.
  intros Hlen Hf Hm Hv. apply list_eq. intros i.
  destruct (H1 !! i) as [e1|] eqn:E1, (H2 !! i) as [e2|] eqn:E2.
  - f_equal.
    pose proof (Hf Lup i) as F1. pose proof (Hf Ldown i) as F2.
    pose proof (Hf Lleft i) as F3. pose proof (Hf Lright i) as F4.
    pose proof (Hf Lcolumn i) as F5.
    pose proof (Hm i) as F6. pose proof (Hv i) as F7.
    unfold fld, mtx, val in *. rewrite E1, E2 in *. simpl in *.
    destruct e1, e2; simpl in *; congruence.
  - apply lookup_lt_Some in E1. apply lookup_ge_None in E2. lia.
  - apply lookup_lt_Some in E2. apply lookup_ge_None in E1. lia.
  - reflexivity.
Qed.

(** ** Cyclic lists *)

Section cyclic_lemmas.
Context {A : Type} `{EqDecision A}.
Implicit Types (x y d : A) (l L : list A).

Lemma NoDup_rev' L : NoDup L → NoDup (rev L).
Proof. intros. apply NoDup_ListNoDup, List.NoDup_rev, NoDup_ListNoDup. assumption. Qed.

Lemma elem_of_rev' L x : x ∈ rev L ↔ x ∈ L.
Proof. rewrite !list_elem_of_In. symmetry. apply in_rev. Qed.

Lemma nxt_mid d a x b : x ∉ a → nxt d (a ++ x :: b) x = hd d b.
Proof.
  induction a as [|y a IH]; simpl; intros Hx.
  - rewrite decide_True by reflexivity. reflexivity.
  - rewrite decide_False by (intros ->; apply Hx; left).
    apply IH. intros Hin. apply Hx. right. exact Hin.
Qed.

Lemma cnext_mid a x b : x ∉ a → cnext (a ++ x :: b) x = hd (hd x a) b.
Proof.
  intros Hx. unfold cnext. rewrite nxt_mid by assumption.
  destruct a; reflexivity.
Qed.

Lemma cnext_rotate l1 l2 x :
  NoDup (l1 ++ l2) → x ∈ l1 ++ l2 → cnext (l1 ++ l2) x = cnext (l2 ++ l1) x.
Proof.
  intros Hnd Hin. apply NoDup_app in Hnd as (Hn1 & Hdis & Hn2).
  apply elem_of_app in Hin as [Hin|Hin].
  - destruct (list_elem_of_split_l _ _ Hin) as (a & b & -> & Ha).
    rewrite <- (app_assoc a), <- app_comm_cons.
    rewrite cnext_mid by assumption.
    rewrite (app_assoc l2 a). rewrite cnext_mid.
    2:{ intros Hx. apply elem_of_app in Hx as [Hx|Hx]; [|tauto].
        apply (Hdis x); [|assumption]. apply elem_of_app. right. left. }
    destruct b as [|y b]; simpl; [|reflexivity].
    destruct l2, a; reflexivity.
  - destruct (list_elem_of_split_l _ _ Hin) as (a & b & -> & Ha).
    rewrite (app_assoc l1 a). rewrite cnext_mid.
    2:{ intros Hx. apply elem_of_app in Hx as [Hx|Hx]; [|tauto].
        apply (Hdis x); [assumption|]. apply elem_of_app. right. left. }
    rewrite <- (app_assoc a), <- app_comm_cons.
    rewrite cnext_mid by assumption.
    destruct b as [|y b]; simpl; [|reflexivity].
    destruct l1, a; reflexivity.
Qed.

Lemma cprev_rotate l1 l2 x :
  NoDup (l1 ++ l2) → x ∈ l1 ++ l2 → cprev (l1 ++ l2) x = cprev (l2 ++ l1) x.
Proof.
  intros Hnd Hin. unfold cprev. rewrite !rev_app_distr.
  apply cnext_rotate.
  - rewrite <- rev_app_distr. apply NoDup_rev'. assumption.
  - rewrite <- rev_app_distr. apply elem_of_rev'. assumption.
Qed.

Lemma cprev_mid a x b :
  x ∉ b → cprev (a ++ x :: b) x = hd (hd x (rev b)) (rev a).
Proof.
  intros Hx. unfold cprev. rewrite rev_app_distr. simpl. rewrite <- app_assoc.
  simpl. apply cnext_mid. rewrite elem_of_rev'. exact Hx.
Qed.

Lemma cnext_in L x : x ∈ L → cnext L x ∈ L.
Proof.
  intros Hin. destruct (list_elem_of_split_l _ _ Hin) as (a & b & -> & Ha).
  rewrite cnext_mid by assumption.
  destruct b as [|y b]; simpl.
  - destruct a; simpl; [left | left].
  - apply elem_of_app. right. right. left.
Qed.

Lemma cprev_in L x : x ∈ L → cprev L x ∈ L.
Proof.
  intros Hin. unfold cprev.
  rewrite <- (elem_of_rev' L). apply cnext_in.
  rewrite elem_of_rev'. exact Hin.
Qed.

Lemma cprev_cnext L x : NoDup L → x ∈ L → cprev L (cnext L x) = x.
Proof.
  intros Hnd Hin. destruct (list_elem_of_split_l _ _ Hin) as (a & b & -> & Ha).
  rewrite cnext_mid by assumption.
  apply NoDup_app in Hnd as (Hna & Hdis & Hnb).
  apply NoDup_cons in Hnb as [Hxb Hnb].
  destruct b as [|y b]; simpl.
  - destruct a as [|z a]; simpl.
    + apply (cprev_mid [] x []). apply not_elem_of_nil.
    + pose proof (cprev_mid [] z (a ++ [x])) as E. simpl in E. rewrite E.
      * rewrite rev_app_distr. reflexivity.
      * apply NoDup_cons in Hna as [Hz _]. intros Hz'.
        apply elem_of_app in Hz' as [?|Hz']; [tauto|].
        apply list_elem_of_singleton in Hz' as ->.
        apply (Hdis x); left.
  - replace (a ++ x :: y :: b) with ((a ++ [x]) ++ y :: b)
      by (rewrite <- app_assoc; reflexivity).
    rewrite cprev_mid.
    + rewrite rev_app_distr. reflexivity.
    + apply NoDup_cons in Hnb as [Hy _]. exact Hy.
Qed.

Lemma cnext_cprev L x : NoDup L → x ∈ L → cnext L (cprev L x) = x.
Proof.
  intros Hnd Hin. unfold cprev.
  rewrite <- (rev_involutive L) at 1.
  apply (cprev_cnext (rev L)).
  - apply NoDup_rev'; assumption.
  - apply elem_of_rev'; assumption.
Qed.

Lemma cnext_inj L x y :
  NoDup L → x ∈ L → y ∈ L → cnext L x = cnext L y → x = y.
Proof.
  intros Hnd Hx Hy Heq.
  rewrite <- (cprev_cnext L x), <- (cprev_cnext L y) by assumption.
  congruence.
Qed.

Lemma cprev_inj L x y :
  NoDup L → x ∈ L → y ∈ L → cprev L x = cprev L y → x = y.
Proof.
  intros Hnd Hx Hy Heq.
  rewrite <- (cnext_cprev L x), <- (cnext_cprev L y) by assumption.
  congruence.
Qed.
End cyclic_lemmas.

Section cyclic_updates.
Context {A : Type} `{EqDecision A}.
Implicit Types (x y d : A) (l L : list A).

Lemma cnext_eq_cprev L x j :
  NoDup L → x ∈ L → j ∈ L → cnext L x = j ↔ x = cprev L j.
Proof.
  intros Hnd Hx Hj. split.
  - intros <-. symmetry. apply cprev_cnext; assumption.
  - intros ->. apply cnext_cprev; assumption.
Qed.

Lemma remove1_notin x l : x ∉ l → remove1 x l = l.
Proof.
  unfold remove1. induction l as [|y l IH]; intros Hx; [reflexivity|].
  rewrite filter_cons. rewrite decide_True.
  - f_equal. apply IH. intros ?. apply Hx. right. assumption.
  - intros ->. apply Hx. left.
Qed.

Lemma remove1_mid l1 j l2 :
  j ∉ l1 → j ∉ l2 → remove1 j (l1 ++ j :: l2) = l1 ++ l2.
Proof.
  intros H1 H2. unfold remove1. rewrite filter_app, filter_cons.
  rewrite decide_False by tauto.
  fold (remove1 j l1). fold (remove1 j l2).
  rewrite !remove1_notin by assumption. reflexivity.
Qed.

Lemma elem_of_remove1 x j l : x ∈ remove1 j l ↔ x ∈ l ∧ x ≠ j.
Proof. unfold remove1. rewrite list_elem_of_filter. tauto. Qed.

Lemma NoDup_remove1 j l : NoDup l → NoDup (remove1 j l).
Proof. apply NoDup_filter. Qed.

Lemma remove1_rev j l : remove1 j (rev l) = rev (remove1 j l).
Proof.
  unfold remove1. induction l as [|y l IH]; [reflexivity|].
  simpl. rewrite filter_app, IH, !filter_cons, filter_nil.
  destruct (decide (y ≠ j)); simpl; [reflexivity|].
  rewrite app_nil_r. reflexivity.
Qed.

Lemma length_remove1 j l :
  NoDup l → j ∈ l → S (length (remove1 j l)) = length l.
Proof.
  intros Hnd Hj. destruct (list_elem_of_split _ _ Hj) as (l1 & l2 & ->).
  apply NoDup_app in Hnd as (_ & Hd & Hn).
  apply NoDup_cons in Hn as [Hj2 _].
  rewrite remove1_mid; [|intros ?; eapply Hd; [eassumption|left]|assumption].
  rewrite !length_app. simpl. lia.
Qed.

(** Unlinking [j] from a ring: its predecessor now points to its successor. *)
Lemma cnext_remove L j x :
  NoDup L → j ∈ L → x ∈ L → x ≠ j →
  cnext (remove1 j L) x =
    if decide (x = cprev L j) then cnext L j else cnext L x.
Proof.
  intros Hnd Hj Hx Hne.
  assert (cnext (remove1 j L) x =
          if decide (cnext L x = j) then cnext L j else cnext L x) as E.
  { destruct (list_elem_of_split _ _ Hj) as (l1 & l2 & ->).
    pose proof Hnd as Hnd'.
    apply NoDup_app in Hnd' as (Hn1 & Hd & Hn2).
    apply NoDup_cons in Hn2 as [Hj2 Hn2].
    assert (j ∉ l1) as Hj1 by (intros ?; eapply Hd; [eassumption|left]).
    rewrite remove1_mid by assumption.
    assert (NoDup (l1 ++ l2)) as Hnd12.
    { apply NoDup_app. split_and!; [assumption| |assumption].
      intros y Hy1 Hy2. eapply Hd; [eassumption|right; assumption]. }
    assert (x ∈ l2 ++ l1) as HxM.
    { apply elem_of_app. apply elem_of_app in Hx as [?|Hx]; [tauto|].
      apply elem_of_cons in Hx as [?|?]; [congruence|tauto]. }
    rewrite cnext_rotate; [|assumption|].
    2:{ apply elem_of_app. apply elem_of_app in HxM. tauto. }
    rewrite !(cnext_rotate l1 (j :: l2)) by assumption.
    simpl. set (M := l2 ++ l1) in *.
    assert (j ∉ M) as HjM.
    { subst M. intros Hm. apply elem_of_app in Hm. tauto. }
    destruct (list_elem_of_split_l _ _ HxM) as (p & q & EM & Hp).
    rewrite EM.
    rewrite cnext_mid by assumption.
    rewrite (cnext_mid [] j (p ++ x :: q)) by apply not_elem_of_nil.
    pose proof (cnext_mid (j :: p) x q) as E1. simpl in E1. rewrite E1.
    2:{ intros Hin. apply elem_of_cons in Hin as [?|?]; [congruence|tauto]. }
    destruct q as [|y q]; simpl.
    - rewrite decide_True by reflexivity. destruct p; reflexivity.
    - rewrite decide_False; [reflexivity|].
      intros ->. apply HjM. rewrite EM. apply elem_of_app. right. right. left. }
  rewrite E.
  destruct (decide (cnext L x = j)) as [Hc|Hc], (decide (x = cprev L j)) as [Hp|Hp];
    try reflexivity.
  - exfalso. apply Hp. apply cnext_eq_cprev; assumption.
  - exfalso. apply Hc. apply cnext_eq_cprev; assumption.
Qed.

Lemma cprev_remove L j x :
  NoDup L → j ∈ L → x ∈ L → x ≠ j →
  cprev (remove1 j L) x =
    if decide (x = cnext L j) then cprev L j else cprev L x.
Proof.
  intros Hnd Hj Hx Hne. unfold cprev at 1. rewrite <- remove1_rev.
  rewrite cnext_remove.
  - unfold cprev. rewrite rev_involutive. reflexivity.
  - apply NoDup_rev'; assumption.
  - apply elem_of_rev'; assumption.
  - apply elem_of_rev'; assumption.
  - assumption.
Qed.

Lemma insert_after_mid a e l1 l2 :
  a ∉ l1 → insert_after a e (l1 ++ a :: l2) = l1 ++ a :: e :: l2.
Proof.
  induction l1 as [|y l1 IH]; simpl; intros Ha.
  - rewrite decide_True by reflexivity. reflexivity.
  - rewrite decide_False by (intros ->; apply Ha; left).
    f_equal. apply IH. intros ?. apply Ha. right. assumption.
Qed.

Lemma elem_of_insert_after a e L x :
  a ∈ L → x ∈ insert_after a e L ↔ x = e ∨ x ∈ L.
Proof.
  intros Ha. destruct (list_elem_of_split_l _ _ Ha) as (l1 & l2 & -> & Hl1).
  rewrite insert_after_mid by assumption.
  rewrite !elem_of_app, !elem_of_cons. tauto.
Qed.

Lemma NoDup_insert_after a e L :
  NoDup L → a ∈ L → e ∉ L → NoDup (insert_after a e L).
Proof.
  intros Hnd Ha He. destruct (list_elem_of_split_l _ _ Ha) as (l1 & l2 & -> & Hl1).
  rewrite insert_after_mid by assumption.
  apply NoDup_app in Hnd as (Hn1 & Hd & Hn2).
  apply NoDup_cons in Hn2 as [Ha2 Hn2].
  apply NoDup_app. split_and!.
  - assumption.
  - intros y Hy1 Hy2. apply elem_of_cons in Hy2 as [->|Hy2].
    + eapply Hd; [eassumption|left].
    + apply elem_of_cons in Hy2 as [->|Hy2].
      * apply He. apply elem_of_app. left. assumption.
      * eapply Hd; [eassumption|right; assumption].
  - apply NoDup_cons. split.
    + intros Hin. apply elem_of_cons in Hin as [->|Hin]; [|tauto].
      apply He. apply elem_of_app. right. left.
    + apply NoDup_cons. split; [|assumption].
      intros Hin. apply He. apply elem_of_app. right. right. assumption.
Qed.

Lemma length_insert_after a e L :
  a ∈ L → length (insert_after a e L) = S (length L).
Proof.
  intros Ha. destruct (list_elem_of_split_l _ _ Ha) as (l1 & l2 & -> & Hl1).
  rewrite insert_after_mid by assumption. rewrite !length_app. simpl. lia.
Qed.

(** Linking [e] into a ring just after [a]. *)
Lemma cnext_insert L a e x :
  NoDup L → a ∈ L → e ∉ L → x ∈ e :: L →
  cnext (insert_after a e L) x =
    if decide (x = e) then cnext L a
    else if decide (x = a) then e else cnext L x.
Proof.
  intros Hnd Ha He Hx.
  destruct (list_elem_of_split_l _ _ Ha) as (l1 & l2 & -> & Hl1).
  rewrite insert_after_mid by assumption.
  assert (a ≠ e) as Hae by (intros ->; apply He, elem_of_app; right; left).
  assert (e ∉ l1) as He1 by (intros ?; apply He, elem_of_app; tauto).
  assert (e ∉ l2) as He2 by (intros ?; apply He, elem_of_app; right; right; assumption).
  apply NoDup_app in Hnd as (Hn1 & Hd & Hn2).
  apply NoDup_cons in Hn2 as [Ha2 Hn2].
  destruct (decide (x = e)) as [->|Hxe].
  - replace (l1 ++ a :: e :: l2) with ((l1 ++ [a]) ++ e :: l2)
      by (rewrite <- app_assoc; reflexivity).
    rewrite cnext_mid.
    2:{ intros Hin. apply elem_of_app in Hin as [?|Hin]; [tauto|].
        apply list_elem_of_singleton in Hin. congruence. }
    rewrite cnext_mid by assumption.
    destruct l2; simpl; [|reflexivity]. destruct l1; reflexivity.
  - apply elem_of_cons in Hx as [?|Hx]; [congruence|].
    destruct (decide (x = a)) as [->|Hxa].
    + rewrite cnext_mid by assumption. reflexivity.
    + apply elem_of_app in Hx as [Hx|Hx].
      * destruct (list_elem_of_split_l _ _ Hx) as (p & q & -> & Hp).
        rewrite <- !(app_assoc p), <- !app_comm_cons.
        rewrite !cnext_mid by assumption.
        destruct q; reflexivity.
      * apply elem_of_cons in Hx as [?|Hx]; [congruence|].
        destruct (list_elem_of_split_l _ _ Hx) as (p & q & -> & Hp).
        replace (l1 ++ a :: e :: p ++ x :: q) with ((l1 ++ a :: e :: p) ++ x :: q)
          by (rewrite <- app_assoc; reflexivity).
        replace (l1 ++ a :: p ++ x :: q) with ((l1 ++ a :: p) ++ x :: q)
          by (rewrite <- app_assoc; reflexivity).
        rewrite !cnext_mid.
        -- destruct q; simpl; [|reflexivity]. destruct l1; reflexivity.
        -- intros Hin. apply elem_of_app in Hin as [Hin|Hin].
           ++ eapply Hd; [eassumption|]. right. apply elem_of_app. right. left.
           ++ apply elem_of_cons in Hin as [?|?]; [congruence|tauto].
        -- intros Hin. apply elem_of_app in Hin as [Hin|Hin].
           ++ eapply Hd; [eassumption|]. right. apply elem_of_app. right. left.
           ++ apply elem_of_cons in Hin as [?|Hin]; [congruence|].
              apply elem_of_cons in Hin as [?|?]; [congruence|tauto].
Qed.

Lemma cprev_insert L a e x :
  NoDup L → a ∈ L → e ∉ L → x ∈ e :: L →
  cprev (insert_after a e L) x =
    if decide (x = e) then a
    else if decide (x = cnext L a) then e else cprev L x.
Proof.
  intros Hnd Ha He Hx.
  assert (a ≠ e) as Hae by congruence.
  pose proof (NoDup_insert_after a e L Hnd Ha He) as Hnd'.
  assert (∀ y, y ∈ e :: L → y ∈ insert_after a e L) as Hin'.
  { intros y Hy. apply elem_of_insert_after; [assumption|].
    apply elem_of_cons in Hy. tauto. }
  assert (∀ y, y ∈ e :: L → cnext (insert_after a e L) y = x →
               cprev (insert_after a e L) x = y) as Hinv.
  { intros y Hy <-. apply cprev_cnext; auto. }
  destruct (decide (x = e)) as [->|Hxe].
  - apply Hinv; [right; assumption|].
    rewrite cnext_insert by (try assumption; right; assumption).
    rewrite decide_False by assumption. rewrite decide_True; reflexivity.
  - apply elem_of_cons in Hx as [?|Hx]; [congruence|].
    destruct (decide (x = cnext L a)) as [->|Hxn].
    + apply Hinv; [left|].
      rewrite cnext_insert by (try assumption; left).
      rewrite decide_True; reflexivity.
    + assert (cprev L x ∈ L) as Hp by (apply cprev_in; assumption).
      apply Hinv; [right; assumption|].
      rewrite cnext_insert by (try assumption; right; assumption).
      rewrite decide_False by congruence.
      rewrite decide_False.
      * apply cnext_cprev; assumption.
      * intros Hpa. apply Hxn. rewrite <- Hpa. symmetry.
        apply cnext_cprev; assumption.
Qed.

Lemma split_at L x :
  x ∈ L → L = before L x ++ x :: after L x ∧ x ∉ before L x.
Proof.
  induction L as [|y L IH]; intros Hx.
  - apply elem_of_nil in Hx. contradiction.
  - simpl. destruct (decide (x = y)) as [->|Hne].
    + split; [reflexivity | apply not_elem_of_nil].
    + apply elem_of_cons in Hx as [?|Hx]; [congruence|].
      destruct (IH Hx) as [E Hb]. split.
      * simpl. f_equal. exact E.
      * intros Hin. apply elem_of_cons in Hin as [?|?]; [congruence|tauto].
Qed.

Lemma elem_of_others L x y :
  NoDup L → x ∈ L → y ∈ others L x ↔ y ∈ L ∧ y ≠ x.
Proof.
  intros Hnd Hx. destruct (split_at L x Hx) as [E Hb].
  unfold others. rewrite E in Hnd.
  assert (y ∈ L ↔ y ∈ before L x ++ x :: after L x) as HL
    by (rewrite <- E; reflexivity).
  rewrite HL.
  apply NoDup_app in Hnd as (_ & Hd & Hn).
  apply NoDup_cons in Hn as [Ha _].
  rewrite !elem_of_app, elem_of_cons. split.
  - intros [?|?]; split; try tauto; intros ->; tauto.
  - tauto.
Qed.

Lemma NoDup_others L x : NoDup L → x ∈ L → NoDup (x :: others L x).
Proof.
  intros Hnd Hx. destruct (split_at L x Hx) as [E Hb].
  rewrite E in Hnd. unfold others.
  apply NoDup_app in Hnd as (Hn1 & Hd & Hn).
  apply NoDup_cons in Hn as [Ha Hn2].
  apply NoDup_cons. split.
  - rewrite elem_of_app. tauto.
  - apply NoDup_app. split_and!; [assumption| |assumption].
    intros y Hy1 Hy2. eapply Hd; [eassumption|right; assumption].
Qed.

Lemma length_others L x : x ∈ L → S (length (others L x)) = length L.
Proof.
  intros Hx. destruct (split_at L x Hx) as [E _].
  apply (f_equal length) in E. rewrite length_app in E. simpl in E.
  unfold others. rewrite length_app. lia.
Qed.

(** Walking the ring from [x]: the successor of [x] is the first of
    [others L x], and the walk follows [others L x] back to [x]. *)
Lemma cnext_others_hd L x :
  NoDup L → x ∈ L → cnext L x = hd x (others L x).
Proof.
  intros Hnd Hx. destruct (split_at L x Hx) as [E Hb].
  rewrite E at 1. rewrite cnext_mid by assumption.
  unfold others. destruct (after L x); simpl; [|reflexivity].
  destruct (before L x); reflexivity.
Qed.

Lemma cnext_others L x m1 y m2 :
  NoDup L → x ∈ L → others L x = m1 ++ y :: m2 → cnext L y = hd x m2.
Proof.
  intros Hnd Hx Em. destruct (split_at L x Hx) as [E Hb].
  pose proof (NoDup_others L x Hnd Hx) as Hno. rewrite Em in Hno.
  assert (y ∈ L) as Hy.
  { apply (elem_of_others L x y Hnd Hx). rewrite Em.
    apply elem_of_app. right. left. }
  rewrite E in Hnd, Hy. rewrite E.
  rewrite (cnext_rotate (before L x) (x :: after L x)) by assumption.
  simpl. fold (others L x). rewrite Em.
  pose proof (cnext_mid (x :: m1) y m2) as E1. simpl in E1. apply E1.
  apply NoDup_cons in Hno as [Hx1 Hno].
  apply NoDup_app in Hno as (_ & Hd & _).
  intros Hin. apply elem_of_cons in Hin as [->|Hin].
  - apply Hx1. apply elem_of_app. right. left.
  - eapply Hd; [eassumption|left].
Qed.

Lemma cprev_others_hd L x :
  NoDup L → x ∈ L → cprev L x = hd x (rev (others L x)).
Proof.
  intros Hnd Hx. destruct (split_at L x Hx) as [E Hb].
  rewrite E in Hnd. apply NoDup_app in Hnd as (_ & _ & Hn).
  apply NoDup_cons in Hn as [Ha _].
  rewrite E at 1. rewrite cprev_mid by assumption.
  unfold others. rewrite rev_app_distr.
  destruct (rev (before L x)); reflexivity.
Qed.

Lemma cprev_others L x m1 y m2 :
  NoDup L → x ∈ L → rev (others L x) = m1 ++ y :: m2 → cprev L y = hd x m2.
Proof.
  intros Hnd Hx Em. destruct (split_at L x Hx) as [E Hb].
  pose proof (NoDup_others L x Hnd Hx) as Hno.
  assert (y ∈ L) as Hy.
  { apply (elem_of_others L x y Hnd Hx). apply elem_of_rev'. rewrite Em.
    apply elem_of_app. right. left. }
  unfold cprev. rewrite E at 1. rewrite rev_app_distr. simpl.
  rewrite <- app_assoc. simpl.
  rewrite (cnext_rotate (rev (after L x)) (x :: rev (before L x))).
  - simpl. rewrite <- rev_app_distr. fold (others L x). rewrite Em.
    pose proof (cnext_mid (x :: m1) y m2) as E1. simpl in E1. apply E1.
    apply NoDup_cons in Hno as [Hx1 Hno].
    apply NoDup_rev' in Hno. rewrite Em in Hno.
    apply NoDup_app in Hno as (_ & Hd & _).
    intros Hin. apply elem_of_cons in Hin as [->|Hin].
    + apply Hx1. apply elem_of_rev'. rewrite Em. apply elem_of_app. right. left.
    + eapply Hd; [eassumption|left].
  - replace (rev (after L x) ++ x :: rev (before L x)) with (rev L).
    + apply NoDup_rev'; assumption.
    + rewrite E at 1. rewrite rev_app_distr. simpl. rewrite <- app_assoc. reflexivity.
  - replace (rev (after L x) ++ x :: rev (before L x)) with (rev L).
    + apply elem_of_rev'; assumption.
    + rewrite E at 1. rewrite rev_app_distr. simpl. rewrite <- app_assoc. reflexivity.
Qed.
End cyclic_updates.

Global Arguments load : simpl never.
Global Arguments poke : simpl never.
Global Arguments poke_Value : simpl never.
Global Arguments poke_matrix : simpl never.
Global Arguments load_Head : simpl never.
Global Arguments neighbour : simpl never.
Global Arguments hset : simpl never.
Global Arguments hsetv : simpl never.
Global Arguments hsetm : simpl never.
Global Arguments fld : simpl never.
Global Arguments mtx : simpl never.
Global Arguments val : simpl never.
Global Arguments cnext : simpl never.
Global Arguments cprev : simpl never.
Global Arguments wrap64 : simpl never.

(** ** Rules for fuelled computations *)

Lemma evt_ret {A} (r : A) : evt (λ _, Some r) r.
Proof. exists 0. reflexivity. Qed.

Lemma evt_bind {A B} (F : nat → option A) (G : nat → A → option B) a b :
  evt F a → evt (λ n, G n a) b → evt (λ n, x ← F n; G n x) b.
Proof.
  intros [n1 H1] [n2 H2]. exists (n1 `max` n2). intros n Hn.
  rewrite H1 by lia. simpl. apply H2. lia.
Qed.

Lemma evt_fmap {A B} (F : nat → option A) (g : A → B) a :
  evt F a → evt (λ n, g <$> F n) (g a).
Proof.
  intros [n1 H1]. exists n1. intros n Hn. rewrite H1 by lia. reflexivity.
Qed.

Lemma evt_ext {A} (F G : nat → option A) r :
  (∀ n, F n = G n) → evt F r → evt G r.
Proof. intros E [n0 H0]. exists n0. intros n Hn. rewrite <- E. auto. Qed.

Lemma evt_S {A} (F : nat → option A) r :
  evt (λ n, F n) r → evt (λ n, match n with 0 => None | S n' => F n' end) r.
Proof.
  intros [n0 H0]. exists (S n0). intros [|n] Hn; [lia|]. apply H0. lia.
Qed.

Lemma evt_det {A} (F : nat → option A) r1 r2 : evt F r1 → evt F r2 → r1 = r2.
Proof.
  intros [n1 H1] [n2 H2].
  specialize (H1 (n1 `max` n2) ltac:(lia)). specialize (H2 (n1 `max` n2) ltac:(lia)).
  congruence.
Qed.

(** A loop that goes once through the list [xs]: [J done s] holds when the
    elements [done] have been handled and the loop state is [s]. *)
Lemma loop_rule {X St : Type} (xs : list X) (J : list X → St → Prop)
    (cond : St → bool) (body : nat → St → option St) (s0 : St) :
  J [] s0 →
  (∀ s, J xs s → cond s = false) →
  (∀ done x rest s, xs = done ++ x :: rest → J done s →
     cond s = true ∧ ∃ s', evt (λ n, body n s) s' ∧ J (done ++ [x]) s') →
  ∃ s', (∃ n0, ∀ g n, n0 ≤ g → n0 ≤ n → loop g cond (body n) s0 = Some s')
        ∧ J xs s'.
Proof.
  intros H0 Hend Hstep.
  assert (∀ rest done s, xs = done ++ rest → J done s →
    ∃ s', (∃ n0, ∀ g n, n0 ≤ g → n0 ≤ n → loop g cond (body n) s = Some s')
          ∧ J xs s') as Hgen.
  { induction rest as [|x rest IH]; intros done s E HJ.
    - rewrite app_nil_r in E. subst done. exists s. split; [|assumption].
      exists 1. intros [|g] n Hg Hn; [lia|]. simpl. rewrite Hend by assumption.
      reflexivity.
    - destruct (Hstep done x rest s E HJ) as (Hc & s1 & [n1 Hb] & HJ1).
      destruct (IH (done ++ [x]) s1) as (s' & [n2 Hl] & HJ');
        [rewrite <- app_assoc; exact E | exact HJ1 |].
      exists s'. split; [|assumption].
      exists (S (n1 `max` n2)). intros [|g] n Hg Hn; [lia|]. simpl.
      rewrite Hc. rewrite Hb by lia. simpl. apply Hl; lia. }
  apply (Hgen xs [] s0); [reflexivity | assumption].
Qed.

Lemma lastd_snoc {A} (d : A) l x : lastd d (l ++ [x]) = x.
Proof. unfold lastd. rewrite rev_app_distr. reflexivity. Qed.

(** The loops of [cover], [uncover] and [search] that walk a ring from
    [i] through [xs] and back to [i]. *)
Lemma ring_loop_rule (f : link) (step : nat → list Element → ptr → option (list Element))
    (xs : list nat) (J : list nat → list Element → Prop) (i : nat) (H0 : list Element) :
  i ∉ xs → 0 ∉ i :: xs →
  J [] H0 →
  (∀ done rest H, xs = done ++ rest → J done H →
     lastd i done < length H ∧ mtx H (lastd i done) = true ∧
     fld f H (lastd i done) = Some (hd i rest)) →
  (∀ done x rest H, xs = done ++ x :: rest → J done H →
     ∃ H', evt (λ n, step n H (Some x)) H' ∧ J (done ++ [x]) H') →
  ∃ H', evt (λ n, ring_loop n (neighbour f) (step n) H0 (Some i)) H' ∧ J xs H'.
Proof.
  intros Hi H0' HJ0 Hnb Hstep.
  assert (∀ done rest H, xs = done ++ rest → J done H →
            neighbour f H (Some (lastd i done)) = Some (Some (hd i rest))) as Hnb'.
  { intros done rest H E HJ. destruct (Hnb done rest H E HJ) as (Hlt & Hm & Hf).
    rewrite neighbour_Some by assumption. rewrite Hm, Hf. simpl.
    unfold ptr_eqb. rewrite bool_decide_eq_false_2; [reflexivity|].
    intros [= E0]. apply H0'. rewrite <- E0.
    destruct rest; simpl; [left|]. right. rewrite E. apply elem_of_app. right. left. }
  destruct (loop_rule xs
    (λ done s, J done (fst s) ∧ snd s = Some (hd i (drop (length done) xs)))
    (λ s : list Element * ptr, negb (ptr_eqb (snd s) (Some i)))
    (λ n s, H' ← step n (fst s) (snd s);
            j' ← neighbour f H' (snd s);
            Some (H', j'))
    (H0, Some (hd i xs))) as (s' & [n0 Hl] & HJ' & _).
  - split; [assumption|reflexivity].
  - intros [H p] [HJ Hp]. simpl in *. subst p.
    rewrite drop_all. simpl. unfold ptr_eqb.
    rewrite bool_decide_eq_true_2; reflexivity.
  - intros done x rest [H p] E [HJ Hp]. simpl in *. subst p.
    assert (drop (length done) xs = x :: rest) as Ed.
    { rewrite E. rewrite drop_app_length. reflexivity. }
    rewrite Ed. simpl. split.
    + unfold ptr_eqb. rewrite bool_decide_eq_false_2; [reflexivity|].
      intros [= ->]. apply Hi. rewrite E. apply elem_of_app. right. left.
    + destruct (Hstep done x rest H E HJ) as (H' & Hev & HJ1).
      exists (H', Some (hd i rest)). split.
      * eapply evt_bind; [exact Hev|]. simpl.
        pose proof (Hnb' (done ++ [x]) rest H') as Hn.
        rewrite lastd_snoc in Hn. rewrite Hn.
        -- apply evt_ret.
        -- rewrite <- app_assoc. exact E.
        -- exact HJ1.
      * split; [assumption|]. simpl.
        rewrite E. rewrite (app_assoc done [x] rest : done ++ x :: rest = _).
        rewrite drop_app_length. reflexivity.
  - exists (fst s'). split; [|assumption].
    exists n0. intros n Hn. unfold ring_loop.
    pose proof (Hnb' [] xs H0 eq_refl HJ0) as Hn0. unfold lastd in Hn0. simpl in Hn0.
    rewrite Hn0. simpl. rewrite Hl by lia. reflexivity.
Qed.

(** ** First consequences of the invariant *)

Lemma cnext_ne {A} `{EqDecision A} (L : list A) (x y : A) :
  NoDup L → x ∈ L → y ∈ L → x ≠ y → cnext L x ≠ x.
Proof.
  intros Hnd Hx Hy Hne.
  destruct (list_elem_of_split_l _ _ Hx) as (a & b & -> & Ha).
  rewrite cnext_mid by assumption.
  apply NoDup_app in Hnd as (Hn1 & Hd & Hn2).
  apply NoDup_cons in Hn2 as [Hxb Hn2].
  destruct b as [|z b]; simpl.
  - destruct a as [|z a]; simpl.
    + apply list_elem_of_singleton in Hy. congruence.
    + intros ->. apply Ha. left.
  - intros ->. apply Hxb. left.
Qed.

Lemma cprev_ne {A} `{EqDecision A} (L : list A) (x y : A) :
  NoDup L → x ∈ L → y ∈ L → x ≠ y → cprev L x ≠ x.
Proof.
  intros Hnd Hx Hy Hne. unfold cprev.
  apply (cnext_ne (rev L) x y).
  - apply NoDup_rev'; assumption.
  - apply elem_of_rev'; assumption.
  - apply elem_of_rev'; assumption.
  - assumption.
Qed.

Lemma elem_of_concat {A} (x : A) (ls : list (list A)) :
  x ∈ concat ls ↔ ∃ l, l ∈ ls ∧ x ∈ l.
Proof.
  induction ls as [|l ls IH]; simpl.
  - split; [intros Hx; apply elem_of_nil in Hx; contradiction|].
    intros (l & Hl & _). apply elem_of_nil in Hl. contradiction.
  - rewrite elem_of_app, IH. split.
    + intros [Hx|(l' & Hl' & Hx)]; [exists l; split; [left|assumption]|].
      exists l'. split; [right|]; assumption.
    + intros (l' & Hl' & Hx). apply elem_of_cons in Hl' as [->|Hl']; [tauto|].
      right. exists l'. tauto.
Qed.

Ltac hlen :=
  repeat first [rewrite length_hset | rewrite length_hsetv | rewrite length_hsetm];
  try assumption; try lia.

Ltac hsimp :=
  repeat first
    [ rewrite fld_hsetv | rewrite fld_hsetm | rewrite mtx_hset | rewrite mtx_hsetv
    | rewrite val_hset | rewrite val_hsetm
    | rewrite length_hset | rewrite length_hsetv | rewrite length_hsetm
    | rewrite fld_hset by hlen | rewrite val_hsetv by hlen
    | rewrite mtx_hsetm by hlen ].

Ltac dec_tac :=
  repeat match goal with
  | |- context [decide ?P] =>
      first [ rewrite (decide_True (P:=P)) by (intuition (congruence || lia))
            | rewrite (decide_False (P:=P)) by (intuition (congruence || lia)) ]
  end.

Section SInv_facts.
Context {H : list Element} {A : shape} (HS : SInv H A).

Lemma si_col_lt c : c ∈ s_cols A → c < length H.
Proof.
  intros Hc. apply (si_addr _ _ HS). right. apply elem_of_app. left. assumption.
Qed.

Lemma si_col_ne0 c : c ∈ s_cols A → c ≠ 0.
Proof.
  intros Hc ->. pose proof (si_nodup _ _ HS) as Hn.
  apply NoDup_cons in Hn as [Hn _]. apply Hn. apply elem_of_app. left. assumption.
Qed.

Lemma si_col_not_item c : c ∈ s_cols A → c ∉ items A.
Proof.
  intros Hc Hi. pose proof (si_nodup _ _ HS) as Hn.
  apply NoDup_cons in Hn as [_ Hn]. apply NoDup_app in Hn as (_ & Hd & _).
  eapply Hd; eassumption.
Qed.

Lemma si_item_lt x : x ∈ items A → x < length H.
Proof.
  intros Hx. apply (si_addr _ _ HS). right. apply elem_of_app. right. assumption.
Qed.

Lemma si_item_ne0 x : x ∈ items A → x ≠ 0.
Proof.
  intros Hx ->. pose proof (si_nodup _ _ HS) as Hn.
  apply NoDup_cons in Hn as [Hn _]. apply Hn. apply elem_of_app. right. assumption.
Qed.

Lemma si_len : 0 < length H.
Proof. apply (si_addr _ _ HS). left. Qed.

Lemma si_vring_nodup c : c ∈ s_cols A → NoDup (c :: s_vr A c).
Proof.
  intros Hc. apply NoDup_cons. split; [|apply (si_vr_nodup _ _ HS); assumption].
  intros Hin. apply (si_col_not_item c Hc).
  apply (si_vr_item _ _ HS c c Hc Hin).
Qed.

Lemma si_vring_lt c x : c ∈ s_cols A → x ∈ c :: s_vr A c → x < length H ∧ x ≠ 0.
Proof.
  intros Hc Hx. apply elem_of_cons in Hx as [->|Hx].
  - split; [apply si_col_lt | apply si_col_ne0]; assumption.
  - destruct (si_vr_item _ _ HS c x Hc Hx) as [Hi _].
    split; [apply si_item_lt | apply si_item_ne0]; assumption.
Qed.

Lemma si_hring_nodup : NoDup (0 :: s_live A).
Proof.
  apply NoDup_cons. split; [|apply (si_live_nodup _ _ HS)].
  intros Hin. apply (si_col_ne0 0); [|reflexivity]. apply (si_live _ _ HS). assumption.
Qed.

Lemma si_vr_disjoint c c' x :
  c ∈ s_cols A → c' ∈ s_cols A → x ∈ c :: s_vr A c → x ∈ c' :: s_vr A c' → c = c'.
Proof.
  intros Hc Hc' Hx Hx'.
  apply elem_of_cons in Hx as [->|Hx]; apply elem_of_cons in Hx' as [->|Hx'].
  - reflexivity.
  - exfalso. apply (si_col_not_item c Hc). apply (si_vr_item _ _ HS c' c Hc' Hx').
  - exfalso. apply (si_col_not_item c' Hc'). apply (si_vr_item _ _ HS c c' Hc Hx).
  - destruct (si_vr_item _ _ HS c x Hc Hx) as [_ <-].
    destruct (si_vr_item _ _ HS c' x Hc' Hx') as [_ <-]. reflexivity.
Qed.

Lemma si_row_item R x : R ∈ s_rows A → x ∈ R → x ∈ items A.
Proof.
  intros HR Hx. unfold items. apply elem_of_concat. exists R. tauto.
Qed.

Lemma si_row_nodup R : R ∈ s_rows A → NoDup R.
Proof.
  intros HR. destruct (si_row _ _ HS R HR) as (_ & _ & Hn).
  eapply NoDup_fmap_1. exact Hn.
Qed.
End SInv_facts.

(** ** One step of cover, and its undoing by one step of uncover *)

Lemma wrap64_pred (n : nat) :
  0 < n → wrap64 (wrap64 (Z.of_nat n) - 1) = wrap64 (Z.of_nat (n - 1)).
Proof.
  intros Hn. unfold wrap64, uint64_mod.
  rewrite Zminus_mod_idemp_l. f_equal. lia.
Qed.

Lemma wrap64_succ_pred (z : Z) : wrap64 (wrap64 (wrap64 z - 1) + 1) = wrap64 z.
Proof.
  unfold wrap64, uint64_mod.
  rewrite Zplus_mod_idemp_l.
  replace (z `mod` 18446744073709551616 - 1 + 1)%Z
    with (z `mod` 18446744073709551616)%Z by lia.
  apply Z.mod_mod. lia.
Qed.

Lemma wrap64_succ (n : nat) :
  wrap64 (wrap64 (Z.of_nat n) + 1) = wrap64 (Z.of_nat (S n)).
Proof.
  unfold wrap64, uint64_mod. rewrite Zplus_mod_idemp_l. f_equal. lia.
Qed.

Section one_step.
Context {H : list Element} {A : shape} (HS : SInv H A).
Context (j : nat) (Hj : j ∈ items A) (Hl : j ∈ s_vr A (s_col A j)).

Let c := s_col A j.
Let L := c :: s_vr A c.
Let d := cnext L j.
Let u := cprev L j.

Local Lemma os_c : c ∈ s_cols A.
Proof. apply (si_item _ _ HS j Hj). Qed.

Local Lemma os_jL : j ∈ L.
Proof. right. exact Hl. Qed.

Local Lemma os_nd : NoDup L.
Proof. apply (si_vring_nodup HS). apply os_c. Qed.

Local Lemma os_jc : j ≠ c.
Proof. intros E. apply (si_col_not_item HS c os_c). rewrite <- E. exact Hj. Qed.

Local Lemma os_down : fld Ldown H j = Some d.
Proof. apply (si_vring _ _ HS c os_c j os_jL). Qed.

Local Lemma os_up : fld Lup H j = Some u.
Proof. apply (si_vring _ _ HS c os_c j os_jL). Qed.

Local Lemma os_col : fld Lcolumn H j = Some c.
Proof. apply (si_item _ _ HS j Hj). Qed.

Local Lemma os_dL : d ∈ L.
Proof. apply cnext_in, os_jL. Qed.

Local Lemma os_uL : u ∈ L.
Proof. apply cprev_in, os_jL. Qed.

Local Lemma os_d_lt : d < length H.
Proof. apply (si_vring_lt HS c d os_c os_dL). Qed.

Local Lemma os_u_lt : u < length H.
Proof. apply (si_vring_lt HS c u os_c os_uL). Qed.

Local Lemma os_c_lt : c < length H.
Proof. apply (si_col_lt HS), os_c. Qed.

Local Lemma os_j_lt : j < length H.
Proof. apply (si_item_lt HS), Hj. Qed.

Local Lemma os_dj : d ≠ j.
Proof. apply (cnext_ne L j c os_nd os_jL); [left | apply os_jc]. Qed.

Local Lemma os_uj : u ≠ j.
Proof. apply (cprev_ne L j c os_nd os_jL); [left | apply os_jc]. Qed.

Local Lemma os_val :
  val H c = VHead (mkHead (s_name A c) (wrap64 (Z.of_nat (length (s_vr A c))))).
Proof. apply (si_head _ _ HS c os_c). Qed.

Local Lemma os_pos : 0 < length (s_vr A c).
Proof.
  pose proof Hl as Hl'. unfold c.
  destruct (s_vr A (s_col A j)); [|simpl; lia].
  apply elem_of_nil in Hl'. contradiction.
Qed.

Lemma ustep_eq :
  ustep H j =
    hsetv (hset (hset H d Lup (Some u)) u Ldown (Some d)) c
      (VHead (mkHead (s_name A c)
                (wrap64 (Z.of_nat (length (s_vr A c) - 1))))).
Proof.
  unfold ustep, nfld, name_of, size_of.
  rewrite os_down, os_up, os_col. simpl. rewrite os_val. simpl.
  rewrite wrap64_pred; [reflexivity | apply os_pos].
Qed.

Lemma ustep_run : cover_step H (Some j) = Some (ustep H j).
Proof.
  pose proof os_j_lt. pose proof os_d_lt. pose proof os_u_lt. pose proof os_c_lt.
  pose proof os_dj. pose proof os_uj.
  unfold cover_step.
  rewrite !load_Some by assumption. rewrite os_down, os_up. simpl.
  rewrite poke_Some by assumption. simpl.
  rewrite !load_Some by hlen. hsimp. rewrite os_down, os_up. dec_tac. simpl.
  rewrite poke_Some by hlen. simpl.
  rewrite !load_Some by hlen. hsimp. dec_tac.
  rewrite os_col. simpl.
  rewrite (load_Head_Some _ c (mkHead (s_name A c) (wrap64 (Z.of_nat (length (s_vr A c))))))
    by (hsimp; apply os_val).
  simpl. rewrite poke_Value_Some by hlen.
  unfold ustep, nfld, name_of, size_of.
  rewrite os_down, os_up, os_col. simpl. rewrite os_val. reflexivity.
Qed.

Lemma length_ustep : length (ustep H j) = length H.
Proof. rewrite ustep_eq. hsimp. reflexivity. Qed.

Lemma fld_ustep f x :
  fld f (ustep H j) x =
    if decide (x = u ∧ f = Ldown) then Some d
    else if decide (x = d ∧ f = Lup) then Some u else fld f H x.
Proof.
  pose proof os_d_lt. pose proof os_u_lt.
  rewrite ustep_eq. hsimp. reflexivity.
Qed.

Lemma mtx_ustep x : mtx (ustep H j) x = mtx H x.
Proof. rewrite ustep_eq. hsimp. reflexivity. Qed.

Lemma val_ustep x :
  val (ustep H j) x =
    if decide (x = c)
    then VHead (mkHead (s_name A c) (wrap64 (Z.of_nat (length (s_vr A c) - 1))))
    else val H x.
Proof.
  pose proof os_c_lt. rewrite ustep_eq. hsimp. reflexivity.
Qed.

Lemma ustep_undo : uncover_step (ustep H j) (Some j) = Some H.
Proof.
  pose proof os_j_lt as Hjl. pose proof os_d_lt as Hdl.
  pose proof os_u_lt as Hul. pose proof os_c_lt as Hcl.
  pose proof os_dj. pose proof os_uj.
  pose proof length_ustep as Hlen.
  assert (∀ a, a < length H → a < length (ustep H j)) as Hlt
    by (intros; rewrite Hlen; assumption).
  unfold uncover_step.
  rewrite !load_Some by auto.
  rewrite fld_ustep. dec_tac. rewrite os_col. simpl.
  rewrite (load_Head_Some _ c (mkHead (s_name A c)
             (wrap64 (Z.of_nat (length (s_vr A c) - 1)))))
    by (rewrite val_ustep, decide_True by reflexivity; reflexivity).
  simpl. rewrite poke_Value_Some by auto. simpl.
  rewrite !load_Some by (hlen; auto).
  hsimp. rewrite fld_ustep. dec_tac. rewrite os_down. simpl.
  rewrite poke_Some by (hlen; auto). simpl.
  rewrite !load_Some by (hlen; auto).
  rewrite fld_hset by (hlen; auto). dec_tac.
  hsimp. rewrite fld_ustep. dec_tac. rewrite os_up. simpl.
  rewrite poke_Some by (hlen; auto).
  f_equal. apply heap_ext.
  - hsimp. exact Hlen.
  - intros f x.
    rewrite !fld_hset by (hlen; auto).
    hsimp. rewrite fld_ustep.
    destruct (decide (x = u ∧ f = Ldown)) as [[-> ->]|Hn1].
    + destruct (si_vring _ _ HS c os_c u os_uL) as [E _]. rewrite E.
      f_equal. symmetry. apply cnext_cprev; [apply os_nd | apply os_jL].
    + destruct (decide (x = d ∧ f = Lup)) as [[-> ->]|Hn2]; [|reflexivity].
      destruct (si_vring _ _ HS c os_c d os_dL) as [_ E]. rewrite E.
      f_equal. symmetry. apply cprev_cnext; [apply os_nd | apply os_jL].
  - intros x. hsimp. apply mtx_ustep.
  - intros x. hsimp.
    rewrite val_ustep.
    destruct (decide (x = c)) as [->|]; [|reflexivity].
    rewrite os_val. simpl. do 2 f_equal.
    rewrite <- wrap64_pred.
    + apply wrap64_succ_pred.
    + apply os_pos.
Qed.
End one_step.

Lemma ring_frame (H H' : list Element) fn fp L :
  (∀ x, x ∈ L → fld fn H' x = fld fn H x ∧ fld fp H' x = fld fp H x) →
  ring H fn fp L → ring H' fn fp L.
Proof.
  intros Hf Hr x Hx. destruct (Hf x Hx) as [-> ->]. apply Hr, Hx.
Qed.

Lemma aunlink_vr_other (H : list Element) (A : shape) j c' :
  SInv H A → c' ∈ s_cols A → c' ≠ s_col A j → remove1 j (s_vr A c') = s_vr A c'.
Proof.
  intros HS Hc' Hne. apply remove1_notin. intros Hin.
  destruct (si_vr_item _ _ HS c' j Hc' Hin) as [_ E]. congruence.
Qed.

Lemma ustep_SInv (H : list Element) (A : shape) (j : nat) :
  SInv H A → j ∈ items A → j ∈ s_vr A (s_col A j) →
  SInv (ustep H j) (aunlink A j).
Proof.
  intros HS Hj Hl.
  pose proof (os_c HS j Hj) as Hc. pose proof (os_nd HS j Hj) as Hnd.
  pose proof (os_jL j Hl) as HjL. pose proof (os_jc HS j Hj) as Hjc.
  pose proof (os_dL j Hl) as HdL. pose proof (os_uL j Hl) as HuL.
  set (c := s_col A j) in *. set (L := c :: s_vr A c) in *.
  set (d := cnext L j) in *. set (u := cprev L j) in *.
  assert (∀ f x, f ≠ Ldown → f ≠ Lup → fld f (ustep H j) x = fld f H x) as Hside.
  { intros f x ? ?. rewrite (fld_ustep HS j Hj Hl). dec_tac. reflexivity. }
  assert (∀ c' x, c' ∈ s_cols A → c' ≠ c → x ∈ c' :: s_vr A c' →
                  x ≠ u ∧ x ≠ d) as Hoth.
  { intros c' x Hc' Hne Hx. split; intros ->; apply Hne;
      eapply (si_vr_disjoint HS); eassumption. }
  constructor; simpl.
  - intros a. rewrite (length_ustep HS j Hj Hl). apply (si_addr _ _ HS).
  - apply (si_nodup _ _ HS).
  - rewrite (mtx_ustep HS j Hj Hl). apply (si_sent _ _ HS).
  - rewrite !(fld_ustep HS j Hj Hl). fold c L d u.
    destruct (si_vring_lt HS c d Hc HdL) as [_ Hd0].
    destruct (si_vring_lt HS c u Hc HuL) as [_ Hu0].
    dec_tac. apply (si_sent_v _ _ HS).
  - eapply ring_frame; [|apply (si_hring _ _ HS)].
    intros x _. split; apply Hside; discriminate.
  - apply (si_live_nodup _ _ HS).
  - apply (si_live _ _ HS).
  - intros c' Hc'. destruct (si_head _ _ HS c' Hc') as (Hm & Hcol & Hv).
    rewrite (mtx_ustep HS j Hj Hl), Hside by discriminate.
    split_and!; [assumption..|].
    rewrite (val_ustep HS j Hj Hl). fold c.
    destruct (decide (c' = c)) as [->|Hne].
    + do 3 f_equal. pose proof (length_remove1 j (s_vr A c)) as E.
      rewrite <- E; [lia | apply (si_vr_nodup _ _ HS); assumption | assumption].
    + rewrite (aunlink_vr_other H) by assumption. exact Hv.
  - intros c' Hc'. destruct (decide (c' = c)) as [->|Hne].
    + assert (c :: remove1 j (s_vr A c) = remove1 j L) as EL.
      { unfold L, remove1. rewrite filter_cons. rewrite decide_True by congruence.
        reflexivity. }
      rewrite EL. intros x Hx. apply elem_of_remove1 in Hx as [Hx Hxj].
      rewrite !(fld_ustep HS j Hj Hl). fold c L d u.
      destruct (si_vring _ _ HS c Hc x Hx) as [E1 E2].
      rewrite cnext_remove, cprev_remove by assumption. fold d u. split.
      * destruct (decide (x = u)); dec_tac; [reflexivity | assumption].
      * dec_tac. destruct (decide (x = d)); dec_tac; [reflexivity | assumption].
    + rewrite (aunlink_vr_other H) by assumption.
      eapply ring_frame; [|apply (si_vring _ _ HS); assumption].
      intros x Hx. destruct (Hoth c' x Hc' Hne Hx).
      rewrite !(fld_ustep HS j Hj Hl). fold c L d u. dec_tac. tauto.
  - intros c' Hc'. apply NoDup_remove1, (si_vr_nodup _ _ HS), Hc'.
  - intros c' x Hc' Hx. apply elem_of_remove1 in Hx as [Hx _].
    apply (si_vr_item _ _ HS c' x Hc' Hx).
  - intros x Hx. destruct (si_item _ _ HS x Hx) as (Hm & Hv & Hcol & Hcc).
    rewrite (mtx_ustep HS j Hj Hl), Hside by discriminate.
    split_and!; [assumption| |assumption..].
    rewrite (val_ustep HS j Hj Hl). fold c.
    rewrite decide_False; [assumption|].
    intros ->. apply (si_col_not_item HS c Hc Hx).
  - intros R HR. destruct (si_row _ _ HS R HR) as (Hne & Hr & Hn).
    split_and!; [assumption| |assumption].
    eapply ring_frame; [|exact Hr].
    intros x _. split; apply Hside; discriminate.
Qed.

(** ** Rows of a shape *)

Lemma row_unique (rows : list (list nat)) (R1 R2 : list nat) (x : nat) :
  NoDup (concat rows) → R1 ∈ rows → R2 ∈ rows → x ∈ R1 → x ∈ R2 → R1 = R2.
Proof.
  induction rows as [|R rows IH]; simpl; intros Hnd H1 H2 Hx1 Hx2.
  - apply elem_of_nil in H1. contradiction.
  - apply NoDup_app in Hnd as (_ & Hd & Hn).
    apply elem_of_cons in H1 as [->|H1]; apply elem_of_cons in H2 as [->|H2].
    + reflexivity.
    + exfalso. apply (Hd x Hx1). apply elem_of_concat. exists R2. tauto.
    + exfalso. apply (Hd x Hx2). apply elem_of_concat. exists R1. tauto.
    + apply IH; assumption.
Qed.

Lemma row_of_in (A : shape) (x : nat) :
  x ∈ items A → row_of A x ∈ s_rows A ∧ x ∈ row_of A x.
Proof.
  unfold items, row_of. intros Hx. apply elem_of_concat in Hx as (R & HR & Hx).
  assert (R ∈ filter (λ R, x ∈ R) (s_rows A)) as HF
    by (apply list_elem_of_filter; tauto).
  destruct (filter (λ R, x ∈ R) (s_rows A)) as [|R' l] eqn:E.
  - apply elem_of_nil in HF. contradiction.
  - simpl. assert (R' ∈ filter (λ R, x ∈ R) (s_rows A)) as HF'
      by (rewrite E; left).
    apply list_elem_of_filter in HF'. tauto.
Qed.

Section rows.
Context {H : list Element} {A : shape} (HS : SInv H A).

Lemma si_items_nodup : NoDup (items A).
Proof.
  pose proof (si_nodup _ _ HS) as Hn. apply NoDup_cons in Hn as [_ Hn].
  apply NoDup_app in Hn. tauto.
Qed.

Lemma row_of_eq R x : R ∈ s_rows A → x ∈ R → row_of A x = R.
Proof.
  intros HR Hx.
  destruct (row_of_in A x) as [HR' Hx']; [eapply si_row_item; eassumption|].
  eapply row_unique; try eassumption. apply si_items_nodup.
Qed.

Lemma row_col_inj R x y :
  R ∈ s_rows A → x ∈ R → y ∈ R → s_col A x = s_col A y → x = y.
Proof.
  intros HR Hx Hy E. destruct (si_row _ _ HS R HR) as (_ & _ & Hn).
  apply list_elem_of_lookup in Hx as [i Hi]. apply list_elem_of_lookup in Hy as [k Hk].
  assert (i = k) as ->.
  { eapply NoDup_lookup; [exact Hn| |]; rewrite list_lookup_fmap.
    - rewrite Hi. reflexivity.
    - rewrite Hk. simpl. f_equal. symmetry. exact E. }
  congruence.
Qed.

Lemma elem_of_mates i y :
  i ∈ items A → y ∈ mates A i ↔ y ∈ row_of A i ∧ y ≠ i.
Proof.
  intros Hi. destruct (row_of_in A i Hi) as [HR Hx].
  unfold mates. apply elem_of_others; [|assumption].
  eapply (si_row_nodup HS); eassumption.
Qed.

Lemma mates_item i y : i ∈ items A → y ∈ mates A i → y ∈ items A.
Proof.
  intros Hi Hy. apply (elem_of_mates i y Hi) in Hy as [Hy _].
  destruct (row_of_in A i Hi) as [HR _]. eapply si_row_item; eassumption.
Qed.

Lemma mates_col_ne i y : i ∈ items A → y ∈ mates A i → s_col A y ≠ s_col A i.
Proof.
  intros Hi Hy E. apply (elem_of_mates i y Hi) in Hy as [Hy Hne].
  destruct (row_of_in A i Hi) as [HR Hx]. apply Hne.
  eapply row_col_inj; eassumption.
Qed.

Lemma mates_row i y : i ∈ items A → y ∈ mates A i → row_of A y = row_of A i.
Proof.
  intros Hi Hy. apply (elem_of_mates i y Hi) in Hy as [Hy _].
  destruct (row_of_in A i Hi) as [HR _]. apply row_of_eq; assumption.
Qed.

Lemma NoDup_mates i : i ∈ items A → NoDup (mates A i).
Proof.
  intros Hi. destruct (row_of_in A i Hi) as [HR Hx].
  pose proof (NoDup_others (row_of A i) i) as Hn.
  apply NoDup_cons in Hn; [tauto| |assumption].
  eapply (si_row_nodup HS); eassumption.
Qed.

(** The items unlinked by covering the rows [is] of one column are
    pairwise distinct. *)
Lemma NoDup_mates_concat c (rs : list nat) :
  NoDup rs → (∀ i, i ∈ rs → i ∈ items A ∧ s_col A i = c) →
  NoDup (concat (mates A <$> rs)).
Proof.
  induction rs as [|i rs IH]; simpl; intros Hnd Hin; [constructor|].
  apply NoDup_cons in Hnd as [Hi Hnd].
  destruct (Hin i) as [Hii Hic]; [left|].
  apply NoDup_app. split_and!.
  - apply NoDup_mates. assumption.
  - intros y Hy Hy'. apply elem_of_concat in Hy' as (l & Hl & Hyl).
    apply list_elem_of_fmap in Hl as (i' & -> & Hi').
    destruct (Hin i') as [Hii' Hic']; [right; assumption|].
    apply Hi. replace i with i'; [assumption|].
    pose proof (mates_row i y Hii Hy) as E1.
    pose proof (mates_row i' y Hii' Hyl) as E2.
    destruct (row_of_in A i Hii) as [HR Hx].
    destruct (row_of_in A i' Hii') as [HR' Hx'].
    eapply (row_col_inj (row_of A i)); try eassumption; [|congruence].
    rewrite <- E1, E2. assumption.
  - apply IH; [assumption|]. intros i' Hi'. apply Hin. right. assumption.
Qed.
End rows.

(** ** Shapes after a series of unlinkings *)

Lemma fold_aunlink_static (A : shape) (js : list nat) :
  s_cols (fold_left aunlink js A) = s_cols A ∧
  s_live (fold_left aunlink js A) = s_live A ∧
  s_rows (fold_left aunlink js A) = s_rows A ∧
  s_col (fold_left aunlink js A) = s_col A ∧
  s_name (fold_left aunlink js A) = s_name A.
Proof.
  revert A. induction js as [|j js IH]; intros A; simpl; [tauto|].
  destruct (IH (aunlink A j)) as (-> & -> & -> & -> & ->). simpl. tauto.
Qed.

Lemma fold_aunlink_items (A : shape) (js : list nat) :
  items (fold_left aunlink js A) = items A.
Proof.
  unfold items. destruct (fold_aunlink_static A js) as (_ & _ & -> & _). reflexivity.
Qed.

Lemma fold_aunlink_row_of (A : shape) (js : list nat) x :
  row_of (fold_left aunlink js A) x = row_of A x.
Proof.
  unfold row_of. destruct (fold_aunlink_static A js) as (_ & _ & -> & _). reflexivity.
Qed.

Lemma fold_aunlink_mates (A : shape) (js : list nat) x :
  mates (fold_left aunlink js A) x = mates A x.
Proof. unfold mates. rewrite fold_aunlink_row_of. reflexivity. Qed.

Lemma fold_aunlink_vr (A : shape) (js : list nat) c x :
  x ∈ s_vr (fold_left aunlink js A) c ↔ x ∈ s_vr A c ∧ x ∉ js.
Proof.
  revert A. induction js as [|j js IH]; intros A; simpl.
  - split; [intros; split; [assumption|apply not_elem_of_nil] | tauto].
  - rewrite IH. simpl. rewrite elem_of_remove1, not_elem_of_cons. tauto.
Qed.

Lemma fold_aunlink_vr_same (A : shape) (js : list nat) c :
  (∀ j, j ∈ js → j ∉ s_vr A c) → s_vr (fold_left aunlink js A) c = s_vr A c.
Proof.
  revert A. induction js as [|j js IH]; intros A Hjs; simpl; [reflexivity|].
  rewrite IH; simpl.
  - apply remove1_notin. apply Hjs. left.
  - intros j' Hj' Hin. apply elem_of_remove1 in Hin as [Hin _].
    apply (Hjs j'); [right|]; assumption.
Qed.

Lemma fold_ustep_SInv (js : list nat) (H : list Element) (A : shape) :
  SInv H A → NoDup js →
  (∀ y, y ∈ js → y ∈ items A ∧ y ∈ s_vr A (s_col A y)) →
  SInv (fold_left ustep js H) (fold_left aunlink js A).
Proof.
  revert H A. induction js as [|j js IH]; intros H A HS Hnd Hjs; simpl; [assumption|].
  apply NoDup_cons in Hnd as [Hj Hnd].
  destruct (Hjs j) as [Hji Hjl]; [left|].
  apply IH; [apply ustep_SInv; assumption | assumption|].
  intros y Hy. destruct (Hjs y) as [Hyi Hyl]; [right; assumption|].
  simpl. split; [assumption|]. apply elem_of_remove1. split; [assumption|].
  intros ->. contradiction.
Qed.

Lemma prefix_state (H : list Element) (A : shape) (js p q : list nat) :
  SInv H A → NoDup js →
  (∀ y, y ∈ js → y ∈ items A ∧ y ∈ s_vr A (s_col A y)) →
  js = p ++ q →
  SInv (fold_left ustep p H) (fold_left aunlink p A) ∧
  ∀ y, y ∈ q → y ∈ items (fold_left aunlink p A) ∧
               y ∈ s_vr (fold_left aunlink p A) (s_col (fold_left aunlink p A) y).
Proof.
  intros HS Hnd Hjs ->. apply NoDup_app in Hnd as (Hp & Hd & Hq). split.
  - apply fold_ustep_SInv; [assumption..|].
    intros y Hy. apply Hjs. apply elem_of_app. tauto.
  - intros y Hy. rewrite fold_aunlink_items.
    destruct (fold_aunlink_static A p) as (_ & _ & _ & -> & _).
    destruct (Hjs y) as [Hi Hl]; [apply elem_of_app; tauto|].
    split; [assumption|]. apply fold_aunlink_vr. split; [assumption|].
    intros Hyp. eapply Hd; eassumption.
Qed.

(** ** The inner loops: unlinking and relinking the mates of a row *)

Section row_loops.
Context {H : list Element} {A : shape} (HS : SInv H A).
Context (i : nat) (Hi : i ∈ items A).
Context (Hm : ∀ y, y ∈ mates A i → y ∈ s_vr A (s_col A y)).

Local Lemma rl_all y : y ∈ mates A i → y ∈ items A ∧ y ∈ s_vr A (s_col A y).
Proof. intros Hy. split; [eapply (mates_item HS); eassumption | auto]. Qed.

Local Lemma rl_row_nodup : NoDup (row_of A i).
Proof.
  destruct (row_of_in A i Hi) as [HR _]. eapply (si_row_nodup HS); eassumption.
Qed.

Local Lemma rl_notin : i ∉ mates A i.
Proof. intros Hin. apply (elem_of_mates HS i i Hi) in Hin. tauto. Qed.

Local Lemma rl_ne0 x : x ∈ i :: mates A i → x ≠ 0.
Proof.
  intros Hx. apply (si_item_ne0 HS).
  apply elem_of_cons in Hx as [->|Hx]; [assumption|].
  eapply (mates_item HS); eassumption.
Qed.

Local Lemma rl_in_row x : x ∈ i :: mates A i → x ∈ row_of A i.
Proof.
  intros Hx. apply elem_of_cons in Hx as [->|Hx].
  - apply (row_of_in A i Hi).
  - apply (elem_of_mates HS i x Hi) in Hx. tauto.
Qed.

Local Lemma rl_lastd done rest :
  mates A i = done ++ rest → lastd i done ∈ i :: mates A i.
Proof.
  intros E. destruct done as [|x done _] using rev_ind.
  - left.
  - rewrite lastd_snoc. right. rewrite E, <- app_assoc.
    apply elem_of_app. right. left.
Qed.

(** Pointers of the row as seen from a state reached by unlinking some
    of the mates. *)
Local Lemma rl_state p q x :
  mates A i = p ++ q → x ∈ i :: mates A i →
  let H' := fold_left ustep p H in
  x < length H' ∧ mtx H' x = true ∧
  fld Lright H' x = Some (cnext (row_of A i) x) ∧
  fld Lleft H' x = Some (cprev (row_of A i) x).
Proof.
  intros E Hx H'.
  destruct (prefix_state H A (mates A i) p q HS (NoDup_mates HS i Hi) rl_all E)
    as [HS' _].
  fold H' in HS'.
  assert (x ∈ items (fold_left aunlink p A)) as Hxi.
  { rewrite fold_aunlink_items. destruct (row_of_in A i Hi) as [HR _].
    eapply si_row_item; [exact HR | apply rl_in_row, Hx]. }
  destruct (si_item _ _ HS' x Hxi) as (Hmx & _).
  destruct (row_of_in A i Hi) as [HR _].
  assert (row_of A i ∈ s_rows (fold_left aunlink p A)) as HR'.
  { destruct (fold_aunlink_static A p) as (_ & _ & -> & _). assumption. }
  destruct (si_row _ _ HS' _ HR') as (_ & Hr & _).
  destruct (Hr x (rl_in_row x Hx)) as [E1 E2].
  split_and!; [apply (si_item_lt HS'); assumption | assumption..].
Qed.

Lemma unlink_row :
  evt (λ n, ring_loop n Right cover_step H (Some i))
      (fold_left ustep (mates A i) H).
Proof.
  destruct (ring_loop_rule Lright (λ _, cover_step) (mates A i)
              (λ done H', H' = fold_left ustep done H) i H) as (H' & Hev & ->).
  - apply rl_notin.
  - intros H0. apply (rl_ne0 0); [assumption|reflexivity].
  - reflexivity.
  - intros done rest H' E ->.
    pose proof (rl_lastd done rest E) as Hx.
    destruct (rl_state done rest _ E Hx) as (Hlt & Hmx & Hr & _).
    split_and!; [assumption..|]. rewrite Hr. f_equal.
    destruct done as [|x done _] using rev_ind.
    + simpl in E. unfold lastd. simpl. rewrite <- E.
      apply cnext_others_hd; [apply rl_row_nodup | apply (row_of_in A i Hi)].
    + rewrite lastd_snoc. rewrite <- app_assoc in E.
      apply (cnext_others (row_of A i) i done x rest);
        [apply rl_row_nodup | apply (row_of_in A i Hi) | exact E].
  - intros done x rest H' E ->.
    destruct (prefix_state H A (mates A i) done (x :: rest) HS
                (NoDup_mates HS i Hi) rl_all E) as [HS' Hq].
    destruct (Hq x) as [Hxi Hxl]; [left|].
    exists (ustep (fold_left ustep done H) x). split.
    + exists 0. intros n _. eapply ustep_run; eassumption.
    + rewrite fold_left_app. reflexivity.
  - exact Hev.
Qed.

Lemma relink_row :
  evt (λ n, ring_loop n Left uncover_step (fold_left ustep (mates A i) H) (Some i)) H.
Proof.
  destruct (ring_loop_rule Lleft (λ _, uncover_step) (rev (mates A i))
              (λ done H', ∀ rest, rev (mates A i) = done ++ rest →
                                  H' = fold_left ustep (rev rest) H)
              i (fold_left ustep (mates A i) H)) as (H' & Hev & HJ).
  - rewrite elem_of_rev'. apply rl_notin.
  - intros H0. apply (rl_ne0 0); [|reflexivity].
    apply elem_of_cons in H0 as [H0|H0]; [rewrite <- H0; left|].
    right. rewrite elem_of_rev' in H0. assumption.
  - intros rest E. simpl in E. rewrite <- E, rev_involutive. reflexivity.
  - intros done rest H' E HJ. rewrite (HJ rest E).
    assert (mates A i = rev rest ++ rev done) as E'.
    { rewrite <- rev_app_distr, <- E, rev_involutive. reflexivity. }
    assert (lastd i done ∈ i :: mates A i) as Hx.
    { destruct done as [|x done _] using rev_ind; [left|].
      rewrite lastd_snoc. right. rewrite E'. apply elem_of_app. right.
      apply elem_of_rev'. apply elem_of_app. right. left. }
    destruct (rl_state (rev rest) (rev done) _ E' Hx) as (Hlt & Hmx & _ & Hr).
    split_and!; [assumption..|]. rewrite Hr. f_equal.
    destruct done as [|x done _] using rev_ind.
    + simpl in E. unfold lastd. simpl. rewrite <- E.
      apply cprev_others_hd; [apply rl_row_nodup | apply (row_of_in A i Hi)].
    + rewrite lastd_snoc. rewrite <- app_assoc in E.
      apply (cprev_others (row_of A i) i done x rest);
        [apply rl_row_nodup | apply (row_of_in A i Hi) | exact E].
  - intros done x rest H' E HJ. rewrite (HJ _ E).
    assert (mates A i = rev rest ++ x :: rev done) as E'.
    { rewrite <- (rev_involutive (mates A i)), E, rev_app_distr. simpl.
      rewrite <- app_assoc. reflexivity. }
    destruct (prefix_state H A (mates A i) (rev rest) (x :: rev done) HS
                (NoDup_mates HS i Hi) rl_all E') as [HS' Hq].
    destruct (Hq x) as [Hxi Hxl]; [left|].
    exists (fold_left ustep (rev rest) H). split.
    + exists 0. intros n _. simpl.
      rewrite fold_left_app. simpl. eapply ustep_undo; eassumption.
    + intros rest' E2. rewrite <- app_assoc in E2. rewrite E in E2.
      apply app_inv_head in E2. injection E2 as <-. reflexivity.
  - rewrite (HJ [] (eq_sym (app_nil_r _))) in Hev. exact Hev.
Qed.
End row_loops.

Lemma cnext_lastd {A} `{EqDecision A} (r : A) (done rest : list A) :
  NoDup (r :: done ++ rest) →
  cnext (r :: done ++ rest) (lastd r done) = hd r rest.
Proof.
  intros Hnd. destruct done as [|x done _] using rev_ind.
  - unfold lastd. simpl. apply (cnext_mid [] r rest). apply not_elem_of_nil.
  - rewrite lastd_snoc. rewrite <- app_assoc. simpl.
    pose proof (cnext_mid (r :: done) x rest) as E. simpl in E. apply E.
    rewrite <- app_assoc in Hnd. simpl in Hnd.
    rewrite app_comm_cons in Hnd. apply NoDup_app in Hnd as (_ & Hd & _).
    intros Hin. eapply Hd; [eassumption|left].
Qed.

Lemma cprev_lastd {A} `{EqDecision A} (r : A) (l done rest : list A) :
  NoDup (r :: l) → rev l = done ++ rest →
  cprev (r :: l) (lastd r done) = hd r rest.
Proof.
  intros Hnd E. unfold cprev. simpl.
  assert (NoDup (r :: done ++ rest)) as Hnd'.
  { rewrite <- E. apply NoDup_cons in Hnd as [Hr Hl].
    apply NoDup_cons. split; [rewrite elem_of_rev'; assumption|].
    apply NoDup_rev'; assumption. }
  assert (lastd r done ∈ r :: done ++ rest) as Hin.
  { destruct done as [|x done _] using rev_ind; [left|].
    rewrite lastd_snoc. right. rewrite <- app_assoc. apply elem_of_app. right. left. }
  rewrite (cnext_rotate (rev l) [r]).
  - simpl. rewrite E. apply cnext_lastd. assumption.
  - rewrite E. apply NoDup_app. apply NoDup_cons in Hnd' as [Hr Hl'].
    split_and!; [assumption| |apply NoDup_singleton].
    intros y Hy Hy'. apply list_elem_of_singleton in Hy' as ->. contradiction.
  - rewrite E. apply elem_of_app. apply elem_of_cons in Hin as [->|Hin].
    + right. left.
    + left. assumption.
Qed.

(** ** Unlinking and relinking a column header *)

Section header.
Context {H : list Element} {A : shape} (HS : SInv H A).
Context (c : nat) (Hc : c ∈ s_live A).

Let Lh := 0 :: s_live A.
Let r := cnext Lh c.
Let l := cprev Lh c.

Local Lemma hd_cL : c ∈ Lh.
Proof. right. exact Hc. Qed.

Local Lemma hd_c0 : c ≠ 0.
Proof. apply (si_col_ne0 HS), (si_live _ _ HS), Hc. Qed.

Local Lemma hd_right : fld Lright H c = Some r.
Proof. apply (si_hring _ _ HS c hd_cL). Qed.

Local Lemma hd_left : fld Lleft H c = Some l.
Proof. apply (si_hring _ _ HS c hd_cL). Qed.

Local Lemma hd_lt x : x ∈ Lh → x < length H.
Proof.
  intros Hx. apply elem_of_cons in Hx as [->|Hx]; [apply (si_len HS)|].
  apply (si_col_lt HS), (si_live _ _ HS), Hx.
Qed.

Local Lemma hd_rL : r ∈ Lh.
Proof. apply cnext_in, hd_cL. Qed.

Local Lemma hd_lL : l ∈ Lh.
Proof. apply cprev_in, hd_cL. Qed.

Local Lemma hd_rc : r ≠ c.
Proof. apply (cnext_ne Lh c 0 (si_hring_nodup HS) hd_cL); [left | apply hd_c0]. Qed.

Local Lemma hd_lc : l ≠ c.
Proof. apply (cprev_ne Lh c 0 (si_hring_nodup HS) hd_cL); [left | apply hd_c0]. Qed.

Lemma hide_eq : hide H c = hset (hset H r Lleft (Some l)) l Lright (Some r).
Proof. unfold hide, nfld. rewrite hd_right, hd_left. reflexivity. Qed.

Lemma length_hide : length (hide H c) = length H.
Proof. rewrite hide_eq. hsimp. reflexivity. Qed.

Lemma fld_hide f x :
  fld f (hide H c) x =
    if decide (x = l ∧ f = Lright) then Some r
    else if decide (x = r ∧ f = Lleft) then Some l else fld f H x.
Proof.
  pose proof (hd_lt r hd_rL). pose proof (hd_lt l hd_lL).
  rewrite hide_eq. hsimp. reflexivity.
Qed.

Lemma mtx_hide x : mtx (hide H c) x = mtx H x.
Proof. rewrite hide_eq. hsimp. reflexivity. Qed.

Lemma val_hide x : val (hide H c) x = val H x.
Proof. rewrite hide_eq. hsimp. reflexivity. Qed.

Lemma cover_unfold n :
  cover n H (Some c) =
    ring_loop n Down (ring_loop n Right cover_step) (hide H c) (Some c).
Proof.
  pose proof (hd_lt r hd_rL). pose proof (hd_lt l hd_lL). pose proof (hd_lt c hd_cL).
  pose proof hd_rc. pose proof hd_lc.
  unfold cover. rewrite !load_Some by assumption. rewrite hd_right, hd_left. simpl.
  rewrite poke_Some by assumption. simpl.
  rewrite !load_Some by hlen. hsimp. dec_tac. rewrite hd_right, hd_left. simpl.
  rewrite poke_Some by hlen. simpl. rewrite hide_eq. reflexivity.
Qed.

Lemma hide_undo :
  (r ← load (hide H c) (Some c) Lright;
   H1 ← poke (hide H c) r Lleft (Some c);
   l ← load H1 (Some c) Lleft;
   poke H1 l Lright (Some c)) = Some H.
Proof.
  pose proof (hd_lt r hd_rL) as Hr. pose proof (hd_lt l hd_lL) as Hl.
  pose proof (hd_lt c hd_cL) as Hcl.
  pose proof hd_rc. pose proof hd_lc. pose proof length_hide as Hlen.
  rewrite !load_Some by (rewrite Hlen; assumption).
  rewrite fld_hide. dec_tac. rewrite hd_right. simpl.
  rewrite poke_Some by (rewrite Hlen; assumption). simpl.
  rewrite !load_Some by (hlen; rewrite Hlen; assumption).
  rewrite fld_hset by (rewrite Hlen; assumption). dec_tac.
  rewrite fld_hide. dec_tac. rewrite hd_left. simpl.
  rewrite poke_Some by (hlen; rewrite Hlen; assumption).
  f_equal. apply heap_ext.
  - hsimp. exact Hlen.
  - intros f x. rewrite !fld_hset by (hlen; rewrite Hlen; assumption).
    rewrite fld_hide.
    destruct (decide (x = l ∧ f = Lright)) as [[-> ->]|Hn1].
    + destruct (si_hring _ _ HS l hd_lL) as [E _]. rewrite E.
      f_equal. symmetry. apply cnext_cprev; [apply (si_hring_nodup HS) | apply hd_cL].
    + destruct (decide (x = r ∧ f = Lleft)) as [[-> ->]|Hn2]; [|reflexivity].
      destruct (si_hring _ _ HS r hd_rL) as [_ E]. rewrite E.
      f_equal. symmetry. apply cprev_cnext; [apply (si_hring_nodup HS) | apply hd_cL].
  - intros x. hsimp. apply mtx_hide.
  - intros x. hsimp. apply val_hide.
Qed.

Lemma hide_SInv : SInv (hide H c) (ahide A c).
Proof.
  pose proof hd_rc. pose proof hd_lc.
  assert (∀ f x, f ≠ Lright → f ≠ Lleft → fld f (hide H c) x = fld f H x) as Hside.
  { intros f x ? ?. rewrite fld_hide. dec_tac. reflexivity. }
  assert (∀ f x, x ∈ items A → fld f (hide H c) x = fld f H x) as Hitem.
  { intros f x Hx. rewrite fld_hide.
    assert (x ∉ Lh) as Hn.
    { intros Hin. apply elem_of_cons in Hin as [->|Hin].
      - apply (si_item_ne0 HS 0 Hx). reflexivity.
      - apply (si_col_not_item HS x); [apply (si_live _ _ HS)|]; assumption. }
    pose proof hd_rL. pose proof hd_lL.
    rewrite !decide_False; [reflexivity|intros [-> _]; contradiction..]. }
  constructor; simpl.
  - intros a. rewrite length_hide. apply (si_addr _ _ HS).
  - apply (si_nodup _ _ HS).
  - rewrite mtx_hide. apply (si_sent _ _ HS).
  - rewrite !Hside by discriminate. apply (si_sent_v _ _ HS).
  - assert (0 :: remove1 c (s_live A) = remove1 c Lh) as EL.
    { unfold Lh, remove1. rewrite filter_cons.
      rewrite decide_True by (pose proof hd_c0; congruence). reflexivity. }
    rewrite EL. intros x Hx. apply elem_of_remove1 in Hx as [Hx Hxc].
    rewrite !fld_hide. destruct (si_hring _ _ HS x Hx) as [E1 E2].
    rewrite cnext_remove, cprev_remove
      by (try apply (si_hring_nodup HS); try apply hd_cL; assumption).
    fold Lh r l. split.
    + destruct (decide (x = l)); dec_tac; [reflexivity|assumption].
    + dec_tac. destruct (decide (x = r)); dec_tac; [reflexivity|assumption].
  - apply NoDup_remove1, (si_live_nodup _ _ HS).
  - intros c' Hc'. apply elem_of_remove1 in Hc' as [Hc' _].
    apply (si_live _ _ HS), Hc'.
  - intros c' Hc'. rewrite mtx_hide, val_hide, Hside by discriminate.
    apply (si_head _ _ HS c' Hc').
  - intros c' Hc'. eapply ring_frame; [|apply (si_vring _ _ HS); assumption].
    intros x _. split; apply Hside; discriminate.
  - apply (si_vr_nodup _ _ HS).
  - apply (si_vr_item _ _ HS).
  - intros x Hx. rewrite mtx_hide, val_hide, Hside by discriminate.
    apply (si_item _ _ HS x Hx).
  - intros R HR. destruct (si_row _ _ HS R HR) as (Hne & Hr & Hn).
    split_and!; [assumption| |assumption].
    eapply ring_frame; [|exact Hr].
    intros x Hx. split; apply Hitem; eapply si_row_item; eassumption.
Qed.
End header.

(** ** cover and uncover on a well-formed store *)

Section cover_loops.
Context {H : list Element} {A : shape} (HI : Inv H A).
Context (c : nat) (Hc : c ∈ s_live A).

Let HS : SInv H A := proj1 HI.
Let H0 := hide H c.
Let A0 := ahide A c.

(** The items unlinked for the rows [rs] of the column. *)
Let js (rs : list nat) : list nat := concat (mates A <$> rs).

Local Lemma cl_cols : c ∈ s_cols A.
Proof. apply (si_live _ _ HS), Hc. Qed.

Local Lemma cl_HS0 : SInv H0 A0.
Proof. apply hide_SInv; assumption. Qed.

Local Lemma cl_vr x : x ∈ s_vr A c → x ∈ items A ∧ s_col A x = c.
Proof. apply (si_vr_item _ _ HS c x cl_cols). Qed.

Local Lemma cl_mate x y :
  x ∈ s_vr A c → y ∈ mates A x →
  y ∈ items A ∧ y ∈ s_vr A (s_col A y) ∧ s_col A y ≠ c ∧ s_col A y ∈ s_live A.
Proof.
  intros Hx Hy. destruct (cl_vr x Hx) as [Hxi Hxc].
  pose proof (mates_item HS x y Hxi Hy) as Hyi.
  pose proof (mates_col_ne HS x y Hxi Hy) as Hne. rewrite Hxc in Hne.
  destruct (row_of_in A x Hxi) as [HR HxR].
  apply (elem_of_mates HS x y Hxi) in Hy as [HyR _].
  destruct (proj2 HI (row_of A x) x y HR HxR HyR) as [Hl1 Hl2].
  { split; rewrite Hxc; assumption. }
  tauto.
Qed.

Local Lemma cl_js_nodup : NoDup (js (s_vr A c)).
Proof.
  apply (NoDup_mates_concat HS c); [apply (si_vr_nodup _ _ HS), cl_cols | apply cl_vr].
Qed.

Local Lemma cl_js_in rs y :
  (∀ x, x ∈ rs → x ∈ s_vr A c) → y ∈ js rs →
  y ∈ items A ∧ y ∈ s_vr A (s_col A y) ∧ s_col A y ≠ c.
Proof.
  intros Hrs Hy. apply elem_of_concat in Hy as (m & Hm & Hy).
  apply list_elem_of_fmap in Hm as (x & -> & Hx).
  destruct (cl_mate x y (Hrs x Hx) Hy). tauto.
Qed.

Local Lemma cl_js_all y :
  y ∈ js (s_vr A c) → y ∈ items A0 ∧ y ∈ s_vr A0 (s_col A0 y).
Proof. intros Hy. destruct (cl_js_in (s_vr A c) y) as (? & ? & ?); auto. Qed.

Local Lemma cl_js_app rs1 rs2 : js (rs1 ++ rs2) = js rs1 ++ js rs2.
Proof. unfold js. rewrite fmap_app, concat_app. reflexivity. Qed.

Local Lemma cl_js_one x : js [x] = mates A x.
Proof. unfold js. simpl. apply app_nil_r. Qed.

(** The state after the rows [rs1] have been handled, [rs2] remaining. *)
Local Lemma cl_state rs1 rs2 :
  s_vr A c = rs1 ++ rs2 →
  let H' := fold_left ustep (js rs1) H0 in
  let A' := fold_left aunlink (js rs1) A0 in
  SInv H' A' ∧
  (∀ x, x ∈ rs2 → x ∈ items A' ∧ mates A' x = mates A x ∧
                   ∀ y, y ∈ mates A' x → y ∈ s_vr A' (s_col A' y)) ∧
  (∀ x, x ∈ c :: s_vr A c →
     x < length H' ∧ mtx H' x = true ∧
     fld Ldown H' x = Some (cnext (c :: s_vr A c) x) ∧
     fld Lup H' x = Some (cprev (c :: s_vr A c) x)).
Proof.
  intros E H' A'.
  assert (js (s_vr A c) = js rs1 ++ js rs2) as Ejs by (rewrite E; apply cl_js_app).
  destruct (prefix_state H0 A0 _ _ _ cl_HS0 cl_js_nodup cl_js_all Ejs) as [HS' Hq].
  fold H' A' in HS', Hq.
  assert (s_cols A' = s_cols A) as Ecols
    by (unfold A'; destruct (fold_aunlink_static A0 (js rs1)) as (-> & _); reflexivity).
  assert (s_vr A' c = s_vr A c) as Evr.
  { unfold A'. rewrite fold_aunlink_vr_same; [reflexivity|].
    intros y Hy Hin. destruct (cl_js_in rs1 y) as (_ & _ & Hne); [|assumption|].
    - intros x Hx. rewrite E. apply elem_of_app. tauto.
    - apply Hne. apply (si_vr_item _ _ HS c y cl_cols Hin). }
  assert (∀ x, mates A' x = mates A x) as Emates
    by (intros x; unfold A'; rewrite fold_aunlink_mates; reflexivity).
  split_and!.
  - exact HS'.
  - intros x Hx. assert (x ∈ s_vr A c) as Hxv by (rewrite E; apply elem_of_app; tauto).
    split_and!.
    + unfold A'. rewrite fold_aunlink_items. apply (cl_vr x Hxv).
    + apply Emates.
    + intros y Hy. apply Hq. rewrite Emates in Hy.
      apply elem_of_concat. exists (mates A x). split; [|assumption].
      apply list_elem_of_fmap. exists x. tauto.
  - intros x Hx.
    assert (c ∈ s_cols A') as Hc' by (rewrite Ecols; apply cl_cols).
    assert (x ∈ c :: s_vr A' c) as Hx' by (rewrite Evr; assumption).
    destruct (si_vring _ _ HS' c Hc' x Hx') as [E1 E2]. rewrite Evr in E1, E2.
    destruct (si_vring_lt HS' c x Hc' Hx') as [Hlt _].
    split_and!; [assumption| |assumption..].
    apply elem_of_cons in Hx' as [->|Hx'].
    + apply (si_head _ _ HS' c Hc').
    + apply (si_item _ _ HS' x). apply (si_vr_item _ _ HS' c x Hc' Hx').
Qed.

Local Lemma cl_ring_nodup : NoDup (c :: s_vr A c).
Proof. apply (si_vring_nodup HS), cl_cols. Qed.

Local Lemma cl_ring_ne0 : 0 ∉ c :: s_vr A c.
Proof.
  intros Hin. destruct (si_vring_lt HS c 0 cl_cols Hin) as [_ Hn]. congruence.
Qed.

Lemma cover_run :
  evt (λ n, cover n H (Some c)) (fold_left ustep (cover_items A c) H0).
Proof.
  destruct (ring_loop_rule Ldown (λ n, ring_loop n Right cover_step) (s_vr A c)
              (λ done H', H' = fold_left ustep (js done) H0) c H0)
    as (H' & Hev & ->).
  - pose proof cl_ring_nodup as Hn. apply NoDup_cons in Hn. tauto.
  - apply cl_ring_ne0.
  - reflexivity.
  - intros done rest H' E ->.
    destruct (cl_state done rest E) as (_ & _ & Hring).
    assert (lastd c done ∈ c :: s_vr A c) as Hx.
    { destruct done as [|x done _] using rev_ind; [left|].
      rewrite lastd_snoc. right. rewrite E, <- app_assoc.
      apply elem_of_app. right. left. }
    destruct (Hring _ Hx) as (Hlt & Hmx & Hd & _).
    split_and!; [assumption..|]. rewrite Hd. f_equal.
    rewrite E. apply cnext_lastd. rewrite <- E. apply cl_ring_nodup.
  - intros done x rest H' E ->.
    destruct (cl_state done (x :: rest) E) as (HS' & Hrows & _).
    destruct (Hrows x) as (Hxi & Em & Hml); [left|].
    exists (fold_left ustep (js (done ++ [x])) H0). split; [|reflexivity].
    rewrite cl_js_app, fold_left_app, cl_js_one.
    rewrite <- Em. apply (unlink_row HS' x Hxi Hml).
  - eapply evt_ext; [|exact Hev]. intros n. symmetry. apply (cover_unfold HS c Hc).
Qed.

Lemma cover_SInv :
  SInv (fold_left ustep (cover_items A c) H0) (acover A c).
Proof.
  destruct (cl_state (s_vr A c) []) as (HS' & _); [rewrite app_nil_r; reflexivity|].
  exact HS'.
Qed.

Lemma uncover_run :
  evt (λ n, uncover n (fold_left ustep (cover_items A c) H0) (Some c)) H.
Proof.
  destruct (ring_loop_rule Lup (λ n, ring_loop n Left uncover_step) (rev (s_vr A c))
              (λ done H', ∀ rest, rev (s_vr A c) = done ++ rest →
                                  H' = fold_left ustep (js (rev rest)) H0)
              c (fold_left ustep (cover_items A c) H0))
    as (H' & Hev & HJ).
  - rewrite elem_of_rev'. pose proof cl_ring_nodup as Hn. apply NoDup_cons in Hn. tauto.
  - intros Hin. apply cl_ring_ne0. apply elem_of_cons in Hin as [Hin|Hin].
    + rewrite <- Hin. left.
    + right. rewrite elem_of_rev' in Hin. assumption.
  - intros rest E. simpl in E. rewrite <- E, rev_involutive. reflexivity.
  - intros done rest H' E HJ. rewrite (HJ rest E).
    assert (s_vr A c = rev rest ++ rev done) as E'.
    { rewrite <- rev_app_distr, <- E, rev_involutive. reflexivity. }
    destruct (cl_state (rev rest) (rev done) E') as (_ & _ & Hring).
    assert (lastd c done ∈ c :: s_vr A c) as Hx.
    { destruct done as [|x done _] using rev_ind; [left|].
      rewrite lastd_snoc. right. rewrite E'. apply elem_of_app. right.
      rewrite elem_of_rev'. apply elem_of_app. right. left. }
    destruct (Hring _ Hx) as (Hlt & Hmx & _ & Hu).
    split_and!; [assumption..|]. rewrite Hu. f_equal.
    apply cprev_lastd; [apply cl_ring_nodup | exact E].
  - intros done x rest H' E HJ. rewrite (HJ _ E).
    assert (s_vr A c = rev rest ++ x :: rev done) as E'.
    { rewrite <- (rev_involutive (s_vr A c)), E, rev_app_distr. simpl.
      rewrite <- app_assoc. reflexivity. }
    destruct (cl_state (rev rest) (x :: rev done) E') as (HS' & Hrows & _).
    destruct (Hrows x) as (Hxi & Em & Hml); [left|].
    exists (fold_left ustep (js (rev rest)) H0). split.
    + simpl. rewrite cl_js_app, fold_left_app, cl_js_one.
      rewrite <- Em. apply (relink_row HS' x Hxi Hml).
    + intros rest' E2. rewrite <- app_assoc in E2. rewrite E in E2.
      apply app_inv_head in E2. injection E2 as <-. reflexivity.
  - unfold uncover. eapply evt_bind; [exact Hev|].
    rewrite (HJ [] (eq_sym (app_nil_r _))). simpl.
    exists 0. intros n _. apply (hide_undo HS c Hc).
Qed.
End cover_loops.

Lemma acover_static (A : shape) (c : nat) :
  s_cols (acover A c) = s_cols A ∧
  s_live (acover A c) = remove1 c (s_live A) ∧
  s_rows (acover A c) = s_rows A ∧
  s_col (acover A c) = s_col A ∧
  s_name (acover A c) = s_name A.
Proof.
  unfold acover.
  destruct (fold_aunlink_static (ahide A c) (cover_items A c)) as (-> & -> & -> & -> & ->).
  simpl. tauto.
Qed.

Lemma acover_vr (A : shape) (c k x : nat) :
  x ∈ s_vr (acover A c) k ↔ x ∈ s_vr A k ∧ x ∉ cover_items A c.
Proof. unfold acover. rewrite fold_aunlink_vr. reflexivity. Qed.

Lemma acover_items (A : shape) (c : nat) : items (acover A c) = items A.
Proof. unfold acover. rewrite fold_aunlink_items. reflexivity. Qed.

Lemma acover_mates (A : shape) (c x : nat) : mates (acover A c) x = mates A x.
Proof. unfold acover. rewrite fold_aunlink_mates. reflexivity. Qed.

Lemma elem_of_cover_items (A : shape) (c y : nat) :
  y ∈ cover_items A c ↔ ∃ i, i ∈ s_vr A c ∧ y ∈ mates A i.
Proof.
  unfold cover_items. rewrite elem_of_concat. split.
  - intros (m & Hm & Hy). apply list_elem_of_fmap in Hm as (i & -> & Hi).
    exists i. tauto.
  - intros (i & Hi & Hy). exists (others (row_of A i) i). split; [|assumption].
    apply list_elem_of_fmap. exists i. tauto.
Qed.

Lemma acover_vr_same (H : list Element) (A : shape) (c : nat) :
  SInv H A → c ∈ s_cols A → s_vr (acover A c) c = s_vr A c.
Proof.
  intros HS Hc. unfold acover. rewrite fold_aunlink_vr_same; [reflexivity|].
  intros y Hy Hin. simpl in Hin.
  apply elem_of_cover_items in Hy as (i & Hi & Hy).
  destruct (si_vr_item _ _ HS c i Hc Hi) as [Hii Hic].
  destruct (si_vr_item _ _ HS c y Hc Hin) as [_ Hyc].
  apply (mates_col_ne HS i y Hii Hy). congruence.
Qed.

Lemma cover_Inv (H : list Element) (A : shape) (c : nat) :
  Inv H A → c ∈ s_live A → Inv (cover_store H A c) (acover A c).
Proof.
  intros HI Hc. pose proof (proj1 HI) as HS. split; [apply (cover_SInv HI c Hc)|].
  assert (c ∈ s_cols A) as Hcc by (apply (si_live _ _ HS), Hc).
  destruct (acover_static A c) as (Ecols & Elive & Erows & Ecol & Ename).
  assert (∀ z, linked (acover A c) z ↔
               linked A z ∧ s_col A z ≠ c ∧ z ∉ cover_items A c) as Hlk.
  { intros z. unfold linked. rewrite Elive, Ecol, elem_of_remove1, acover_vr. tauto. }
  intros R x y HR Hx Hy Hlx. rewrite Erows in HR.
  apply Hlk in Hlx as (Hlx & Hxc & Hxn). apply Hlk.
  pose proof (proj2 HI R x y HR Hx Hy Hlx) as Hly.
  pose proof (si_row_item R x HR Hx) as Hxi.
  pose proof (si_row_item R y HR Hy) as Hyi.
  split_and!; [assumption| |].
  - intros Hyc. apply Hxn. apply elem_of_cover_items. exists y. split.
    + destruct Hly as [_ Hly]. rewrite Hyc in Hly. assumption.
    + apply (elem_of_mates HS y x Hyi). rewrite (row_of_eq HS R y HR Hy).
      split; [assumption|]. intros ->. contradiction.
  - intros Hyn. apply elem_of_cover_items in Hyn as (i & Hi & Hyi').
    destruct (si_vr_item _ _ HS c i Hcc Hi) as [Hii Hic].
    apply (elem_of_mates HS i y Hii) in Hyi' as [HyR _].
    destruct (row_of_in A i Hii) as [HRi HiR].
    assert (row_of A i = R) as ER.
    { apply (row_unique (s_rows A) _ _ y); [apply (si_items_nodup HS)|assumption..]. }
    apply Hxn. apply elem_of_cover_items. exists i. split; [assumption|].
    apply (elem_of_mates HS i x Hii). rewrite ER. split; [assumption|].
    intros ->. contradiction.
Qed.

Lemma length_fold_ustep (js : list nat) (H : list Element) :
  length (fold_left ustep js H) = length H.
Proof.
  revert H. induction js as [|j js IH]; intros H; simpl; [reflexivity|].
  rewrite IH. unfold ustep. hsimp. reflexivity.
Qed.

Lemma length_cover_store (H : list Element) (A : shape) (c : nat) :
  length (cover_store H A c) = length H.
Proof.
  unfold cover_store. rewrite length_fold_ustep. unfold hide. hsimp. reflexivity.
Qed.

(** ** Covering the columns of a chosen row *)

Lemma others_perm {X} `{EqDecision X} (L : list X) (x : X) :
  x ∈ L → L ≡ₚ x :: others L x.
Proof.
  intros Hx. destruct (split_at L x Hx) as [E _]. rewrite E at 1. unfold others.
  rewrite <- Permutation_middle. apply Permutation_skip. apply Permutation_app_comm.
Qed.

Lemma cols_state (p q : list nat) (H : list Element) (A : shape) :
  Inv H A → NoDup (p ++ q) → (∀ c, c ∈ p ++ q → c ∈ s_live A) →
  let S := fold_left cstep p (H, A) in
  Inv (fst S) (snd S) ∧ (∀ c, c ∈ q → c ∈ s_live (snd S)) ∧
  s_cols (snd S) = s_cols A ∧ s_rows (snd S) = s_rows A ∧
  s_col (snd S) = s_col A ∧ s_name (snd S) = s_name A ∧
  length (fst S) = length H ∧ s_live A ≡ₚ p ++ s_live (snd S).
Proof.
  revert H A. induction p as [|c p IH]; intros H A HI Hnd Hlive; simpl.
  - split_and!; try reflexivity; [assumption|]. intros c Hc. apply Hlive. assumption.
  - assert (c ∈ s_live A) as Hc by (apply Hlive; left).
    simpl in Hnd. apply NoDup_cons in Hnd as [Hcn Hnd].
    destruct (acover_static A c) as (Ecols & Elive & Erows & Ecol & Ename).
    destruct (IH (cover_store H A c) (acover A c)) as (HI' & Hq & E1 & E2 & E3 & E4 & E5 & E6).
    + apply cover_Inv; assumption.
    + assumption.
    + intros c' Hc'. rewrite Elive. apply elem_of_remove1. split.
      * apply Hlive. right. assumption.
      * intros ->. contradiction.
    + change (cstep (H, A) c) with (cover_store H A c, acover A c).
      split_and!; try assumption; try congruence.
      * rewrite E5. apply length_cover_store.
      * rewrite <- E6, Elive. pose proof (si_live_nodup _ _ (proj1 HI)) as Hn.
        destruct (list_elem_of_split _ _ Hc) as (l1 & l2 & El). rewrite El in Hn |- *.
        apply NoDup_app in Hn as (_ & Hd & Hn2). apply NoDup_cons in Hn2 as [Hc2 _].
        rewrite remove1_mid; [|intros ?; eapply Hd; [eassumption|left]|assumption].
        symmetry. apply Permutation_middle.
Qed.

Section chosen_row.
Context {H : list Element} {A : shape} (HI : Inv H A).
Context (r : nat) (Hr : r ∈ items A).
Context (Hm : ∀ y, y ∈ mates A r → s_col A y ∈ s_live A).

Let HS : SInv H A := proj1 HI.

Local Lemma cr_nodup : NoDup (row_cols A r).
Proof.
  destruct (row_of_in A r Hr) as [HR HrR].
  destruct (si_row _ _ HS _ HR) as (_ & _ & Hn).
  rewrite (others_perm (row_of A r) r HrR) in Hn. simpl in Hn.
  apply NoDup_cons in Hn. tauto.
Qed.

Local Lemma cr_live c : c ∈ row_cols A r → c ∈ s_live A.
Proof.
  intros Hc. apply list_elem_of_fmap in Hc as (y & -> & Hy). apply Hm, Hy.
Qed.

(** The state once the columns of the mates [p] are covered. *)
Local Lemma cr_state p q :
  mates A r = p ++ q →
  let S := fold_left cstep (s_col A <$> p) (H, A) in
  Inv (fst S) (snd S) ∧
  (∀ y, y ∈ q → s_col A y ∈ s_live (snd S)) ∧
  (∀ x, x ∈ r :: mates A r →
     x < length (fst S) ∧ mtx (fst S) x = true ∧
     fld Lright (fst S) x = Some (cnext (row_of A r) x) ∧
     fld Lleft (fst S) x = Some (cprev (row_of A r) x) ∧
     fld Lcolumn (fst S) x = Some (s_col A x)).
Proof.
  intros E S.
  assert (row_cols A r = (s_col A <$> p) ++ (s_col A <$> q)) as Ec
    by (unfold row_cols; rewrite E, fmap_app; reflexivity).
  destruct (cols_state (s_col A <$> p) (s_col A <$> q) H A HI)
    as (HI' & Hq & E1 & E2 & E3 & E4 & E5 & E6).
  { rewrite <- Ec. apply cr_nodup. }
  { intros c Hc. rewrite <- Ec in Hc. apply cr_live, Hc. }
  fold S in HI', Hq, E1, E2, E3, E4, E5, E6.
  split_and!; [assumption| |].
  - intros y Hy. apply Hq. apply list_elem_of_fmap. exists y. tauto.
  - intros x Hx. pose proof (proj1 HI') as HS'.
    destruct (row_of_in A r Hr) as [HR HrR].
    assert (x ∈ row_of A r) as HxR.
    { apply elem_of_cons in Hx as [->|Hx]; [assumption|].
      apply (elem_of_mates HS r x Hr) in Hx. tauto. }
    assert (x ∈ items (snd S)) as Hxi.
    { unfold items. rewrite E2. eapply si_row_item; eassumption. }
    destruct (si_item _ _ HS' x Hxi) as (Hmx & _ & Hcol & _).
    assert (row_of A r ∈ s_rows (snd S)) as HR' by (rewrite E2; assumption).
    destruct (si_row _ _ HS' _ HR') as (_ & Hring & _).
    destruct (Hring x HxR) as [F1 F2]. rewrite E3 in Hcol.
    split_and!; [apply (si_item_lt HS'); assumption | assumption..].
Qed.

Lemma cover_row_run :
  evt (λ n, cover_row n H (Some r)) (fst (fold_left cstep (row_cols A r) (H, A))).
Proof.
  destruct (ring_loop_rule Lright
              (λ n H j, c ← load H j Lcolumn; cover n H c) (mates A r)
              (λ done H', H' = fst (fold_left cstep (s_col A <$> done) (H, A))) r H)
    as (H' & Hev & ->).
  - intros Hin. apply (elem_of_mates HS r r Hr) in Hin. tauto.
  - intros Hin. apply (si_item_ne0 HS 0); [|reflexivity].
    apply elem_of_cons in Hin as [Hin|Hin]; [rewrite Hin; assumption|].
    eapply (mates_item HS); eassumption.
  - reflexivity.
  - intros done rest H' E ->.
    destruct (cr_state done rest E) as (_ & _ & Hrow).
    assert (lastd r done ∈ r :: mates A r) as Hx.
    { destruct done as [|x done _] using rev_ind; [left|].
      rewrite lastd_snoc. right. rewrite E, <- app_assoc.
      apply elem_of_app. right. left. }
    destruct (Hrow _ Hx) as (Hlt & Hmx & Hright & _).
    split_and!; [assumption..|]. rewrite Hright. f_equal.
    destruct (row_of_in A r Hr) as [HR HrR].
    pose proof (si_row_nodup HS _ HR) as HnR.
    destruct done as [|x done _] using rev_ind.
    + simpl in E. unfold lastd. simpl. rewrite <- E.
      apply cnext_others_hd; assumption.
    + rewrite lastd_snoc. rewrite <- app_assoc in E.
      apply (cnext_others (row_of A r) r done x rest); assumption.
  - intros done x rest H' E ->.
    destruct (cr_state done (x :: rest) E) as (HI' & Hq & Hrow).
    destruct (Hrow x) as (Hlt & _ & _ & _ & Hcol).
    { right. rewrite E. apply elem_of_app. right. left. }
    exists (fst (fold_left cstep (s_col A <$> done ++ [x]) (H, A))). split; [|reflexivity].
    rewrite fmap_app, fold_left_app. simpl.
    eapply evt_ext.
    { intros n. rewrite load_Some by exact Hlt. rewrite Hcol. reflexivity. }
    simpl. apply (cover_run HI'). apply Hq. left.
  - exact Hev.
Qed.

Lemma uncover_row_run :
  evt (λ n, uncover_row n (fst (fold_left cstep (row_cols A r) (H, A))) (Some r)) H.
Proof.
  destruct (ring_loop_rule Lleft
              (λ n H j, c ← load H j Lcolumn; uncover n H c) (rev (mates A r))
              (λ done H', ∀ rest, rev (mates A r) = done ++ rest →
                 H' = fst (fold_left cstep (s_col A <$> rev rest) (H, A)))
              r (fst (fold_left cstep (row_cols A r) (H, A))))
    as (H' & Hev & HJ).
  - rewrite elem_of_rev'. intros Hin. apply (elem_of_mates HS r r Hr) in Hin. tauto.
  - intros Hin. apply (si_item_ne0 HS 0); [|reflexivity].
    apply elem_of_cons in Hin as [Hin|Hin]; [rewrite Hin; assumption|].
    rewrite elem_of_rev' in Hin. eapply (mates_item HS); eassumption.
  - intros rest E. simpl in E. rewrite <- E, rev_involutive. reflexivity.
  - intros done rest H' E HJ. rewrite (HJ rest E).
    assert (mates A r = rev rest ++ rev done) as E'.
    { rewrite <- rev_app_distr, <- E, rev_involutive. reflexivity. }
    destruct (cr_state (rev rest) (rev done) E') as (_ & _ & Hrow).
    assert (lastd r done ∈ r :: mates A r) as Hx.
    { destruct done as [|x done _] using rev_ind; [left|].
      rewrite lastd_snoc. right. rewrite E'. apply elem_of_app. right.
      rewrite elem_of_rev'. apply elem_of_app. right. left. }
    destruct (Hrow _ Hx) as (Hlt & Hmx & _ & Hleft & _).
    split_and!; [assumption..|]. rewrite Hleft. f_equal.
    destruct (row_of_in A r Hr) as [HR HrR].
    pose proof (si_row_nodup HS _ HR) as HnR.
    destruct done as [|x done _] using rev_ind.
    + simpl in E. unfold lastd. simpl. rewrite <- E.
      apply cprev_others_hd; assumption.
    + rewrite lastd_snoc. rewrite <- app_assoc in E.
      apply (cprev_others (row_of A r) r done x rest); assumption.
  - intros done x rest H' E HJ. rewrite (HJ _ E).
    assert (mates A r = rev rest ++ x :: rev done) as E'.
    { rewrite <- (rev_involutive (mates A r)), E, rev_app_distr. simpl.
      rewrite <- app_assoc. reflexivity. }
    destruct (cr_state (rev rest) (x :: rev done) E') as (HI' & Hq & _).
    assert (mates A r = (rev rest ++ [x]) ++ rev done) as E''
      by (rewrite <- app_assoc; exact E').
    destruct (cr_state (rev rest ++ [x]) (rev done) E'') as (_ & _ & Hrow).
    destruct (Hrow x) as (Hlt & _ & _ & _ & Hcol).
    { right. rewrite E'. apply elem_of_app. right. left. }
    exists (fst (fold_left cstep (s_col A <$> rev rest) (H, A))). split.
    + simpl. rewrite fmap_app, fold_left_app in Hlt, Hcol |- *. simpl in Hlt, Hcol |- *.
      eapply evt_ext.
      { intros n. rewrite load_Some by exact Hlt. rewrite Hcol. reflexivity. }
      simpl. apply (uncover_run HI'). apply Hq. left.
    + intros rest' E2. rewrite <- app_assoc in E2. rewrite E in E2.
      apply app_inv_head in E2. injection E2 as <-. reflexivity.
  - rewrite (HJ [] (eq_sym (app_nil_r _))) in Hev. exact Hev.
Qed.
End chosen_row.

(** ** getColumn *)

Lemma scan_ext (f g : nat → Z) (l : list nat) st :
  (∀ x, x ∈ l → f x = g x) → fold_left (pick f) l st = fold_left (pick g) l st.
Proof.
  revert st. induction l as [|x l IH]; intros st Hfg; simpl; [reflexivity|].
  unfold pick at 2 4. rewrite (Hfg x) by left. apply IH.
  intros y Hy. apply Hfg. right. assumption.
Qed.

Lemma scan_spec (sz : nat → Z) (l : list nat) :
  l ≠ [] → (∀ x, x ∈ l → (sz x < uint64_max)%Z) →
  ∃ l1 c l2, l = l1 ++ c :: l2 ∧ scan sz l = (Some c, sz c) ∧
    (∀ x, x ∈ l1 → (sz c < sz x)%Z) ∧ (∀ x, x ∈ l2 → (sz c ≤ sz x)%Z).
Proof.
  unfold scan. induction l as [|x l IH] using rev_ind; intros Hne Hlt; [congruence|].
  rewrite fold_left_app. simpl.
  destruct l as [|y l'].
  - simpl. unfold pick. simpl.
    assert (sz x < uint64_max)%Z as Hx by (apply Hlt; left).
    apply Z.ltb_lt in Hx. rewrite Hx.
    exists [], x, []. split_and!; [reflexivity..| |];
      intros z Hz; apply elem_of_nil in Hz; contradiction.
  - destruct IH as (l1 & c & l2 & E & Ef & H1 & H2); [discriminate| |].
    { intros z Hz. apply Hlt. apply elem_of_app. tauto. }
    rewrite Ef. unfold pick. simpl.
    destruct (sz x <? sz c)%Z eqn:Hlt'.
    + apply Z.ltb_lt in Hlt'. exists (y :: l'), x, []. split_and!; [reflexivity..| |].
      * intros z Hz. rewrite E in Hz. apply elem_of_app in Hz as [Hz|Hz].
        -- specialize (H1 z Hz). lia.
        -- apply elem_of_cons in Hz as [->|Hz]; [lia|]. specialize (H2 z Hz). lia.
      * intros z Hz. apply elem_of_nil in Hz. contradiction.
    + apply Z.ltb_ge in Hlt'. exists l1, c, (l2 ++ [x]). split_and!.
      * change (y :: l' ++ [x]) with ((y :: l') ++ [x]).
        rewrite E, <- app_assoc. reflexivity.
      * reflexivity.
      * assumption.
      * intros z Hz. apply elem_of_app in Hz as [Hz|Hz]; [auto|].
        apply list_elem_of_singleton in Hz as ->. assumption.
Qed.

Lemma NoDup_length_lt (l : list nat) (n : nat) :
  NoDup l → (∀ x, x ∈ l → x < n) → length l ≤ n.
Proof.
  intros Hnd Hlt. rewrite <- (length_seq n 0). apply submseteq_length.
  apply NoDup_submseteq; [assumption|]. intros x Hx. apply elem_of_seq.
  specialize (Hlt x Hx). lia.
Qed.

Section column_choice.
Context {H : list Element} {A : shape} (HS : SInv H A).

Lemma size_of_col c : c ∈ s_cols A → size_of H c = asize A c.
Proof.
  intros Hc. unfold size_of, asize. destruct (si_head _ _ HS c Hc) as (_ & _ & ->).
  reflexivity.
Qed.

Lemma name_of_col c : c ∈ s_cols A → name_of H c = s_name A c.
Proof.
  intros Hc. unfold name_of. destruct (si_head _ _ HS c Hc) as (_ & _ & ->).
  reflexivity.
Qed.

Lemma vr_length_lt c : c ∈ s_cols A → S (length (s_vr A c)) < length H.
Proof.
  intros Hc.
  assert (length (0 :: c :: s_vr A c) ≤ length H) as Hle; [|simpl in Hle; lia].
  apply NoDup_length_lt.
  - apply NoDup_cons. split; [|apply (si_vring_nodup HS); assumption].
    intros Hin. destruct (si_vring_lt HS c 0 Hc Hin). congruence.
  - intros x Hx. apply elem_of_cons in Hx as [->|Hx]; [apply (si_len HS)|].
    apply (si_vring_lt HS c x Hc Hx).
Qed.

Lemma asize_small c :
  fits H → c ∈ s_cols A →
  asize A c = Z.of_nat (length (s_vr A c)) ∧ (asize A c < uint64_max)%Z.
Proof.
  intros Hf Hc. pose proof (vr_length_lt c Hc) as Hlt.
  unfold fits, uint64_mod in Hf. unfold asize, wrap64, uint64_mod, uint64_max.
  rewrite Z.mod_small by lia. split; [reflexivity | lia].
Qed.

Lemma MHead_run o sols :
  MHead (mkMatrix H o sols) = Some (head (s_live A)).
Proof.
  unfold MHead. simpl. rewrite load_Some by apply (si_len HS).
  destruct (si_hring _ _ HS 0) as [E _]; [left|]. rewrite E. simpl.
  pose proof (cnext_mid [] 0 (s_live A)) as E1. simpl in E1.
  rewrite E1 by apply not_elem_of_nil.
  destruct (s_live A) as [|c l] eqn:El; simpl.
  - reflexivity.
  - unfold ptr_eqb. rewrite bool_decide_eq_false_2; [reflexivity|].
    intros [= ->]. apply (si_col_ne0 HS 0); [|reflexivity].
    apply (si_live _ _ HS). rewrite El. left.
Qed.

Lemma getColumn_run o sols :
  evt (λ n, getColumn n (mkMatrix H o sols)) (choose A).
Proof.
  destruct (loop_rule (s_live A)
    (λ done st, ∀ rest, s_live A = done ++ rest →
       st = (head rest, fst (fold_left (pick (asize A)) done (None, uint64_max)),
             snd (fold_left (pick (asize A)) done (None, uint64_max))))
    (λ s : ptr * ptr * Z, negb (ptr_eqb (s.1.1) None))
    (λ (_ : nat) s, let '(ce, c, s) := s in
          hd ← load_Head H ce;
          let ces := size hd in
          let '(c, s) := if (ces <? s)%Z then (ce, ces) else (c, s) in
          ce' ← Right H ce;
          Some (ce', c, s))
    (head (s_live A), None, uint64_max)) as (st & [n0 Hl] & HJ).
  - intros rest E. simpl in E. subst rest. reflexivity.
  - intros st HJ. rewrite (HJ [] (eq_sym (app_nil_r _))). reflexivity.
  - intros done x rest st E HJ. rewrite (HJ _ E). simpl. split; [reflexivity|].
    assert (x ∈ s_live A) as Hx by (rewrite E; apply elem_of_app; right; left).
    pose proof (si_live _ _ HS x Hx) as Hxc.
    destruct (si_head _ _ HS x Hxc) as (Hm & _ & Hv).
    assert ((if negb (ptr_eqb (Some (hd 0 rest)) (Some 0))
             then Some (hd 0 rest) else None) = head rest) as Hptr.
    { destruct rest as [|y rest]; simpl.
      - reflexivity.
      - unfold ptr_eqb. rewrite bool_decide_eq_false_2; [reflexivity|].
        intros [= ->]. apply (si_col_ne0 HS 0); [|reflexivity].
        apply (si_live _ _ HS). rewrite E. apply elem_of_app. right. right. left. }
    exists (head rest, fst (fold_left (pick (asize A)) (done ++ [x]) (None, uint64_max)),
            snd (fold_left (pick (asize A)) (done ++ [x]) (None, uint64_max))).
    split.
    + exists 0. intros n _. rewrite fold_left_app.
      set (F := fold_left (pick (asize A)) done (None, uint64_max)).
      rewrite (load_Head_Some _ _ _ Hv).
      unfold Right. rewrite neighbour_Some by apply (si_col_lt HS x Hxc).
      rewrite Hm. destruct (si_hring _ _ HS x) as [Er _]; [right; assumption|].
      rewrite Er.
      pose proof (cnext_mid (0 :: done) x rest) as E1. simpl in E1.
      rewrite <- E in E1. rewrite E1.
      2:{ pose proof (si_hring_nodup HS) as Hn. rewrite E in Hn.
          rewrite app_comm_cons in Hn. apply NoDup_app in Hn as (_ & Hd & _).
          intros Hin. eapply Hd; [eassumption|left]. }
      destruct F as [c0 s0]. simpl. unfold pick, asize. simpl.
      destruct (wrap64 (Z.of_nat (length (s_vr A x))) <? s0)%Z; simpl;
        do 3 f_equal; exact Hptr.
    + intros rest' E2. rewrite <- app_assoc in E2. rewrite E in E2.
      apply app_inv_head in E2. injection E2 as <-. reflexivity.
  - exists n0. intros n Hn.
    transitivity (s ← Some st; Some (s.1.2)).
    { rewrite <- (Hl n n Hn Hn). unfold getColumn. rewrite MHead_run. reflexivity. }
    simpl.
    rewrite (HJ [] (eq_sym (app_nil_r _))). reflexivity.
Qed.

Lemma choose_live :
  fits H → s_live A ≠ [] →
  ∃ l1 c l2, s_live A = l1 ++ c :: l2 ∧ choose A = Some c ∧
    (∀ x, x ∈ l1 → (asize A c < asize A x)%Z) ∧
    (∀ x, x ∈ l2 → (asize A c ≤ asize A x)%Z).
Proof.
  intros Hf Hne.
  destruct (scan_spec (asize A) (s_live A) Hne) as (l1 & c & l2 & E & Es & H1 & H2).
  - intros x Hx. apply asize_small; [assumption|]. apply (si_live _ _ HS), Hx.
  - exists l1, c, l2. unfold choose. rewrite Es. tauto.
Qed.
End column_choice.

(** ** Recording a solution *)

Section recording.
Context {H : list Element} {A : shape} (HS : SInv H A).

Lemma row_string_run r :
  r ∈ items A → evt (λ n, row_string n H (Some r)) (render_row A r).
Proof.
  intros Hr.
  destruct (row_of_in A r Hr) as [HR HrR].
  pose proof (si_row_nodup HS _ HR) as HnR.
  destruct (si_row _ _ HS _ HR) as (_ & Hring & _).
  assert (∀ x, x ∈ r :: mates A r →
            x ∈ row_of A r ∧ x ∈ items A ∧ x ≠ 0) as Hin.
  { intros x Hx. assert (x ∈ row_of A r) as HxR.
    { apply elem_of_cons in Hx as [->|Hx]; [assumption|].
      apply (elem_of_mates HS r x Hr) in Hx. tauto. }
    pose proof (si_row_item _ x HR HxR) as Hxi.
    split_and!; [assumption..|]. apply (si_item_ne0 HS), Hxi. }
  assert (∀ x, x ∈ r :: mates A r →
            load H (Some x) Lcolumn = Some (Some (s_col A x)) ∧
            load_Head H (Some (s_col A x)) =
              Some (mkHead (s_name A (s_col A x)) (asize A (s_col A x))) ∧
            Right H (Some x) = Some (Some (cnext (row_of A r) x))) as Hst.
  { intros x Hx. destruct (Hin x Hx) as (HxR & Hxi & Hx0).
    destruct (si_item _ _ HS x Hxi) as (Hm & _ & Hc & Hcc).
    pose proof (si_item_lt HS x Hxi) as Hlt.
    split_and!.
    - rewrite load_Some by assumption. rewrite Hc. reflexivity.
    - apply load_Head_Some. apply (si_head _ _ HS _ Hcc).
    - unfold Right. rewrite neighbour_Some by assumption.
      destruct (Hring x HxR) as [Er _]. rewrite Hm, Er. simpl.
      unfold ptr_eqb. rewrite bool_decide_eq_false_2; [reflexivity|].
      intros [= E0]. pose proof (cnext_in (row_of A r) x HxR) as Hn.
      rewrite E0 in Hn. apply (si_item_ne0 HS 0); [|reflexivity].
      eapply si_row_item; eassumption. }
  set (f := λ acc y, acc +:+ (" " +:+ s_name A (s_col A y))).
  destruct (loop_rule (mates A r)
    (λ done st, ∀ rest, mates A r = done ++ rest →
       st = (Some (hd r rest), fold_left f done (s_name A (s_col A r))))
    (λ s : ptr * string, negb (ptr_eqb (fst s) (Some r)))
    (λ (_ : nat) s, c ← load H (fst s) Lcolumn;
          hd ← load_Head H c;
          e' ← Right H (fst s);
          Some (e', snd s +:+ (" " +:+ name hd)))
    (Some (hd r (mates A r)), s_name A (s_col A r))) as (st & [n0 Hl] & HJ).
  - intros rest E. simpl in E. subst rest. reflexivity.
  - intros st HJ. rewrite (HJ [] (eq_sym (app_nil_r _))). simpl.
    unfold ptr_eqb. rewrite bool_decide_eq_true_2; reflexivity.
  - intros done x rest st E HJ. rewrite (HJ _ E). simpl.
    assert (x ∈ r :: mates A r) as Hx.
    { right. rewrite E. apply elem_of_app. right. left. }
    split.
    + unfold ptr_eqb. rewrite bool_decide_eq_false_2; [reflexivity|].
      intros [= ->]. assert (r ∈ mates A r) as Hbad
        by (rewrite E; apply elem_of_app; right; left).
      apply (elem_of_mates HS r r Hr) in Hbad. tauto.
    + destruct (Hst x Hx) as (E1 & E2 & E3).
      exists (Some (hd r rest), fold_left f (done ++ [x]) (s_name A (s_col A r))).
      split.
      * exists 0. intros n _. rewrite E1. simpl. rewrite E2. simpl. rewrite E3. simpl.
        rewrite fold_left_app. simpl.
        rewrite (cnext_others (row_of A r) r done x rest HnR HrR E). reflexivity.
      * intros rest' E'. rewrite <- app_assoc in E'. rewrite E in E'.
        apply app_inv_head in E'. injection E' as <-. reflexivity.
  - exists n0. intros n Hn. unfold row_string.
    destruct (Hst r) as (E1 & E2 & E3); [left|].
    rewrite E1. simpl. rewrite E2. simpl. rewrite E3. simpl.
    rewrite (cnext_others_hd (row_of A r) r HnR HrR). fold (mates A r).
    transitivity (snd <$> Some st); [f_equal; apply (Hl n n Hn Hn)|].
    rewrite (HJ [] (eq_sym (app_nil_r _))). reflexivity.
Qed.

Lemma mapM_row_string_run (o : list nat) :
  Forall (λ r, r ∈ items A) o →
  evt (λ n, mapM (row_string n H) (Some <$> o)) (render A o).
Proof.
  induction 1 as [|r o Hr Ho IH].
  - exists 0. reflexivity.
  - destruct (row_string_run r Hr) as [n1 H1]. destruct IH as [n2 H2].
    exists (n1 `max` n2). intros n Hn. simpl.
    rewrite H1 by lia. simpl. rewrite H2 by lia. reflexivity.
Qed.

Lemma record_run (o : list nat) (sols : list (list string)) :
  Forall (λ r, r ∈ items A) o →
  evt (λ n, record n (mkMatrix H (Some <$> o) sols))
      (mkMatrix H (Some <$> o) (sols ++ [render A o])).
Proof.
  intros Ho. destruct (mapM_row_string_run o Ho) as [n0 H0].
  exists n0. intros n Hn. unfold record. simpl. rewrite H0 by assumption. reflexivity.
Qed.
End recording.

(** ** The search on shapes *)

Lemma search_unfold n m k :
  search (S n) m k =
    (hd ← MHead m;
     if ptr_eqb hd None then record n m
     else
       c ← getColumn n m;
       H ← cover n (store m) c;
       r ← Down H c;
       s ← loop n (λ s : Matrix * ptr * ptr, negb (ptr_eqb (s.2) (s.1.2)))
             (branch (search n) n k)
             (mkMatrix H (o m) (solutions m), c, r);
       H ← uncover n (store (s.1.1)) (s.1.2);
       Some (mkMatrix H (o (s.1.1)) (solutions (s.1.1)))).
Proof. reflexivity. Qed.

Lemma snd_fold_cstep (cs : list nat) (H : list Element) (A : shape) :
  snd (fold_left cstep cs (H, A)) = fold_left acover cs A.
Proof.
  revert H A. induction cs as [|c cs IH]; intros H A; simpl; [reflexivity|].
  unfold cstep at 2. simpl. apply IH.
Qed.

Lemma acover_row_static (A : shape) (r : nat) :
  s_cols (acover_row A r) = s_cols A ∧ s_rows (acover_row A r) = s_rows A ∧
  s_col (acover_row A r) = s_col A ∧ s_name (acover_row A r) = s_name A.
Proof.
  unfold acover_row. generalize (row_cols A r). intros cs. revert A.
  induction cs as [|c cs IH]; intros A; simpl; [tauto|].
  destruct (IH (acover A c)) as (-> & -> & -> & ->).
  destruct (acover_static A c) as (-> & _ & -> & -> & ->). tauto.
Qed.

Lemma Down_ring (H : list Element) (A : shape) (c x : nat) (done rest : list nat) :
  SInv H A → c ∈ s_cols A → s_vr A c = done ++ rest → x = lastd c done →
  Down H (Some x) = Some (Some (hd c rest)).
Proof.
  intros HS Hc E ->. pose proof (si_vring_nodup HS c Hc) as Hnd.
  assert (lastd c done ∈ c :: s_vr A c) as Hx.
  { destruct done as [|y done _] using rev_ind; [left|].
    rewrite lastd_snoc. right. rewrite E, <- app_assoc.
    apply elem_of_app. right. left. }
  destruct (si_vring_lt HS c _ Hc Hx) as [Hlt Hx0].
  destruct (si_vring _ _ HS c Hc _ Hx) as [Ed _].
  assert (mtx H (lastd c done) = true) as Hm.
  { apply elem_of_cons in Hx as [->|Hx]; [apply (si_head _ _ HS c Hc)|].
    apply (si_item _ _ HS). apply (si_vr_item _ _ HS c _ Hc Hx). }
  unfold Down. rewrite neighbour_Some by assumption. rewrite Hm, Ed. simpl.
  rewrite E. rewrite cnext_lastd by (rewrite <- E; assumption).
  unfold ptr_eqb. rewrite bool_decide_eq_false_2; [reflexivity|].
  intros [= E0].
  assert (hd c rest ∈ c :: s_vr A c) as Hh.
  { destruct rest; simpl; [left|]. right. rewrite E. apply elem_of_app. right. left. }
  rewrite E0 in Hh. destruct (si_vring_lt HS c 0 Hc Hh). congruence.
Qed.

Lemma lookup_chosen (o : list nat) (x : nat) :
  ((Some <$> o) ++ [Some x]) !! length o = Some (Some x).
Proof.
  rewrite lookup_app_r by (rewrite length_fmap; lia).
  rewrite length_fmap, Nat.sub_diag. reflexivity.
Qed.

Lemma pop_chosen (o : list nat) (x : nat) :
  let ok := <[length o := None]> ((Some <$> o) ++ [Some x]) in
  take (length ok - 1) ok = Some <$> o.
Proof.
  simpl. rewrite length_insert, length_app, length_fmap. simpl.
  replace (length o + 1 - 1) with (length o) by lia.
  rewrite <- (length_fmap Some o) at 1 2.
  rewrite insert_app_r_alt by lia. rewrite Nat.sub_diag.
  rewrite take_app_length. reflexivity.
Qed.

Lemma branch_run (k : nat) (H : list Element) (A : shape) (o : list nat)
    (c : nat) (done : list nat) (x : nat) (rest : list nat) :
  search_ok k →
  Inv H A → fits H → c ∈ s_live A → length (s_live A) ≤ S k →
  Forall (λ r, r ∈ items A) o → s_vr A c = done ++ x :: rest →
  ∀ sols,
    evt (λ n, branch (search n) n (length o)
                (mkMatrix (cover_store H A c) (Some <$> o) sols, Some c, Some x))
        (mkMatrix (cover_store H A c) (Some <$> o)
           (sols ++ asearch k (acover_row (acover A c) x) (o ++ [x])),
         Some c, Some (hd c rest)).
Proof.
  intros IH HI Hf Hc Hk Ho E sols.
  pose proof (proj1 HI) as HS.
  pose proof (cover_Inv H A c HI Hc) as HI1.
  set (H1 := cover_store H A c) in *. set (A1 := acover A c) in *.
  pose proof (proj1 HI1) as HS1.
  destruct (acover_static A c) as (Ecols & Elive & Erows & Ecol & Ename).
  fold A1 in Ecols, Elive, Erows, Ecol, Ename.
  assert (c ∈ s_cols A) as Hcc by (apply (si_live _ _ HS), Hc).
  assert (x ∈ s_vr A c) as Hxv by (rewrite E; apply elem_of_app; right; left).
  destruct (si_vr_item _ _ HS c x Hcc Hxv) as [Hxi Hxc].
  assert (items A1 = items A) as Eitems by apply acover_items.
  assert (x ∈ items A1) as Hxi1 by (rewrite Eitems; assumption).
  assert (mates A1 x = mates A x) as Emates by apply acover_mates.
  assert (∀ y, y ∈ mates A1 x → s_col A1 y ∈ s_live A1) as Hm1.
  { intros y Hy. rewrite Emates in Hy. rewrite Ecol, Elive.
    destruct (cl_mate HI c Hc x y Hxv Hy) as (_ & _ & Hne & Hl).
    apply elem_of_remove1. tauto. }
  pose proof (cover_row_run HI1 x Hxi1 Hm1) as [n1 Hcov].
  pose proof (uncover_row_run HI1 x Hxi1 Hm1) as [n2 Hunc].
  destruct (cols_state (row_cols A1 x) [] H1 A1 HI1)
    as (HI2 & _ & E1 & E2 & E3 & E4 & E5 & E6).
  { rewrite app_nil_r. apply (cr_nodup HI1 x Hxi1). }
  { intros c' Hc'. rewrite app_nil_r in Hc'. apply (cr_live x Hm1 c' Hc'). }
  set (S2 := fold_left cstep (row_cols A1 x) (H1, A1)) in *.
  assert (snd S2 = acover_row A1 x) as EA2 by apply snd_fold_cstep.
  assert (length (s_live (snd S2)) ≤ k) as Hk2.
  { apply Permutation_length in E6. rewrite length_app in E6.
    pose proof (length_remove1 c (s_live A) (si_live_nodup _ _ HS) Hc) as Hl.
    rewrite <- Elive in Hl. lia. }
  assert (fits (fst S2)) as Hf2.
  { unfold fits. rewrite E5. unfold H1. rewrite length_cover_store. exact Hf. }
  assert (Forall (λ r, r ∈ items (snd S2)) (o ++ [x])) as Ho2.
  { unfold items. rewrite E2. fold (items A1). rewrite Eitems.
    apply Forall_app. split; [assumption|]. constructor; [assumption|constructor]. }
  pose proof (IH (fst S2) (snd S2) (o ++ [x]) HI2 Hf2 Hk2 Ho2 sols) as [n3 Hsrch].
  rewrite EA2 in Hsrch.
  assert (load (fst S2) (Some x) Lcolumn = Some (Some c)) as Hcol.
  { rewrite load_Some.
    - destruct (si_item _ _ (proj1 HI2) x) as (_ & _ & Ec & _).
      + unfold items. rewrite E2. exact Hxi1.
      + rewrite Ec, E3, Ecol, Hxc. reflexivity.
    - rewrite E5. apply (si_item_lt HS1), Hxi1. }
  assert (Down H1 (Some x) = Some (Some (hd c rest))) as Hdown.
  { apply (Down_ring H1 A1 c x (done ++ [x]) rest HS1).
    - rewrite Ecols. assumption.
    - unfold A1. rewrite (acover_vr_same H A c HS Hcc), E, <- app_assoc. reflexivity.
    - rewrite lastd_snoc. reflexivity. }
  exists ((n1 `max` n2) `max` n3). intros n Hn.
  unfold branch. simpl.
  rewrite Hcov by lia. simpl. fold S2.
  replace (length o + 1) with (length (o ++ [x])) by (rewrite length_app; simpl; lia).
  replace ((Some <$> o) ++ [Some x]) with (Some <$> (o ++ [x]))
    by (rewrite fmap_app; reflexivity).
  rewrite Hsrch by lia. simpl.
  rewrite fmap_app. simpl. rewrite lookup_chosen. simpl.
  rewrite Hcol. simpl. rewrite Hunc by lia. simpl.
  rewrite Hdown. simpl.
  do 4 f_equal. exact (pop_chosen o x).
Qed.

Lemma asearch_leaf (k : nat) (A : shape) (o : list nat) :
  s_live A = [] → asearch k A o = [render A o].
Proof. intros El. destruct k; simpl; rewrite El; reflexivity. Qed.

Lemma asearch_branch (k : nat) (A : shape) (o : list nat) (c : nat) :
  s_live A ≠ [] → choose A = Some c →
  asearch (S k) A o =
    concat ((λ r, asearch k (acover_row (acover A c) r) (o ++ [r])) <$> s_vr A c).
Proof.
  intros Hne Ec. simpl. rewrite Ec. destruct (s_live A); [congruence|reflexivity].
Qed.

Lemma search_leaf (H : list Element) (A : shape) (o : list nat) :
  SInv H A → s_live A = [] → Forall (λ r, r ∈ items A) o →
  ∀ sols, evt (λ n, search n (mkMatrix H (Some <$> o) sols) (length o))
              (mkMatrix H (Some <$> o) (sols ++ [render A o])).
Proof.
  intros HS El Ho sols. destruct (record_run HS o sols Ho) as [n0 Hr].
  exists (S n0). intros [|n] Hn; [lia|].
  rewrite search_unfold, (MHead_run HS), El. simpl. apply Hr. lia.
Qed.

(** The search on the store records what the search on the shape
    computes, and leaves the store and the stack of chosen rows as they
    were. *)
Lemma search_run (k : nat) : search_ok k.
Proof.
  induction k as [|k IH]; intros H A os HI Hf Hk Ho sols;
    pose proof (proj1 HI) as HS.
  - destruct (s_live A) as [|c1 l] eqn:El; [|simpl in Hk; lia].
    rewrite asearch_leaf by assumption. apply search_leaf; assumption.
  - destruct (s_live A) as [|c1 l] eqn:El.
    { rewrite asearch_leaf by assumption. apply search_leaf; assumption. }
    assert (s_live A ≠ []) as Hne by (rewrite El; discriminate).
    destruct (choose_live HS Hf Hne) as (l1 & c & l2 & Elive & Ech & _).
    assert (c ∈ s_live A) as Hc by (rewrite Elive; apply elem_of_app; right; left).
    assert (c ∈ s_cols A) as Hcc by (apply (si_live _ _ HS), Hc).
    rewrite (asearch_branch k A os c Hne Ech).
    set (f := λ r, asearch k (acover_row (acover A c) r) (os ++ [r])).
    set (H1 := cover_store H A c).
    pose proof (cover_Inv H A c HI Hc) as HI1. fold H1 in HI1.
    destruct (getColumn_run HS (Some <$> os) sols) as [n1 Hg].
    destruct (cover_run HI c Hc) as [n2 Hcov]. fold (cover_store H A c) in Hcov.
    fold H1 in Hcov.
    destruct (uncover_run HI c Hc) as [n3 Hunc]. fold (cover_store H A c) in Hunc.
    fold H1 in Hunc.
    assert (s_vr (acover A c) c = s_vr A c) as Evr by apply (acover_vr_same H A c HS Hcc).
    assert (Down H1 (Some c) = Some (Some (hd c (s_vr A c)))) as Hdown.
    { apply (Down_ring H1 (acover A c) c c [] (s_vr A c) (proj1 HI1)).
      - destruct (acover_static A c) as (-> & _). assumption.
      - rewrite Evr. reflexivity.
      - reflexivity. }
    destruct (loop_rule (s_vr A c)
      (λ done st, ∀ rest, s_vr A c = done ++ rest →
         st = (mkMatrix H1 (Some <$> os) (sols ++ concat (f <$> done)),
               Some c, Some (hd c rest)))
      (λ s : Matrix * ptr * ptr, negb (ptr_eqb (s.2) (s.1.2)))
      (λ n, branch (search n) n (length os))
      (mkMatrix H1 (Some <$> os) sols, Some c, Some (hd c (s_vr A c))))
      as (st & [n4 Hloop] & HJ).
    + intros rest E. simpl in E. subst rest. simpl. rewrite app_nil_r. reflexivity.
    + intros st HJ. rewrite (HJ [] (eq_sym (app_nil_r _))). simpl.
      unfold ptr_eqb. rewrite bool_decide_eq_true_2; reflexivity.
    + intros done x rest st E HJ. rewrite (HJ _ E). simpl. split.
      * unfold ptr_eqb. rewrite bool_decide_eq_false_2; [reflexivity|].
        intros [= ->]. pose proof (si_vring_nodup HS c Hcc) as Hn.
        apply NoDup_cons in Hn as [Hn _]. apply Hn. rewrite E.
        apply elem_of_app. right. left.
      * exists (mkMatrix H1 (Some <$> os) (sols ++ concat (f <$> done ++ [x])),
                Some c, Some (hd c rest)).
        split.
        -- rewrite fmap_app, concat_app. simpl. rewrite app_nil_r, app_assoc.
           apply (branch_run k H A os c done x rest IH HI Hf Hc);
             [rewrite El; exact Hk|assumption..].
        -- intros rest' E'. rewrite <- app_assoc in E'. rewrite E in E'.
           apply app_inv_head in E'. injection E' as <-. reflexivity.
    + rewrite (HJ [] (eq_sym (app_nil_r _))) in Hloop.
      exists (S (((n1 `max` n2) `max` n3) `max` n4)). intros [|n] Hn; [lia|].
      rewrite search_unfold, (MHead_run HS), El. simpl.
      rewrite Hg by lia. rewrite Ech. simpl.
      rewrite Hcov by lia. simpl. rewrite Hdown. simpl.
      transitivity (s ← Some (mkMatrix H1 (Some <$> os) (sols ++ concat (f <$> s_vr A c)),
                              Some c, Some c);
                    H' ← uncover n (store (s.1.1)) (s.1.2);
                    Some (mkMatrix H' (o (s.1.1)) (solutions (s.1.1)))).
      { f_equal. apply Hloop; lia. }
      simpl. rewrite Hunc by lia. reflexivity.
Qed.

(** ** Construction: PushHead and PushItem on a pristine matrix *)

Lemma fld_alloc f (H : list Element) (el : Element) x :
  fld f (H ++ [el]) x = if decide (x = length H) then getl f el else fld f H x.
Proof.
  unfold fld. destruct (decide (x = length H)) as [->|Hne].
  - rewrite list_lookup_middle by reflexivity. reflexivity.
  - destruct (decide (x < length H)).
    + rewrite lookup_app_l by assumption. reflexivity.
    + rewrite !(proj2 (lookup_ge_None _ _)); [reflexivity|lia|].
      rewrite length_app. simpl. lia.
Qed.

Lemma mtx_alloc (H : list Element) (el : Element) x :
  mtx (H ++ [el]) x = if decide (x = length H) then matrix el else mtx H x.
Proof.
  unfold mtx. destruct (decide (x = length H)) as [->|Hne].
  - rewrite list_lookup_middle by reflexivity. reflexivity.
  - destruct (decide (x < length H)).
    + rewrite lookup_app_l by assumption. reflexivity.
    + rewrite !(proj2 (lookup_ge_None _ _)); [reflexivity|lia|].
      rewrite length_app. simpl. lia.
Qed.

Lemma val_alloc (H : list Element) (el : Element) x :
  val (H ++ [el]) x = if decide (x = length H) then Value el else val H x.
Proof.
  unfold val. destruct (decide (x = length H)) as [->|Hne].
  - rewrite list_lookup_middle by reflexivity. reflexivity.
  - destruct (decide (x < length H)).
    + rewrite lookup_app_l by assumption. reflexivity.
    + rewrite !(proj2 (lookup_ge_None _ _)); [reflexivity|lia|].
      rewrite length_app. simpl. lia.
Qed.

Lemma length_alloc (H : list Element) (el : Element) :
  length (H ++ [el]) = S (length H).
Proof. rewrite length_app. simpl. lia. Qed.

Lemma cprev_head {X} `{EqDecision X} (h : X) (t : list X) :
  h ∉ t → cprev (h :: t) h = lastd h t.
Proof. intros Hh. exact (cprev_mid [] h t Hh). Qed.

Lemma insert_after_last {X} `{EqDecision X} (h e : X) (t : list X) :
  NoDup (h :: t) → insert_after (lastd h t) e (h :: t) = h :: t ++ [e].
Proof.
  intros Hnd. destruct t as [|y t _] using rev_ind.
  - unfold lastd. simpl. rewrite decide_True by reflexivity. reflexivity.
  - rewrite lastd_snoc. rewrite app_comm_cons.
    rewrite insert_after_mid; [rewrite <- !app_assoc; reflexivity|].
    rewrite app_comm_cons in Hnd. apply NoDup_app in Hnd as (_ & Hd & _).
    intros Hin. eapply Hd; [eassumption|left].
Qed.

Section push_head.
Context {H : list Element} {A : shape} (HS : SInv H A) (nm : string).

Let e := length H.
Let Lh := 0 :: s_live A.
Let a := cprev Lh 0.

Local Lemma ph_aL : a ∈ Lh.
Proof. apply cprev_in. left. Qed.

Local Lemma ph_a_lt : a < e.
Proof.
  pose proof ph_aL as Ha. apply elem_of_cons in Ha as [->|Ha]; [apply (si_len HS)|].
  apply (si_col_lt HS), (si_live _ _ HS), Ha.
Qed.

Local Lemma ph_left0 : fld Lleft H 0 = Some a.
Proof. apply (si_hring _ _ HS 0). left. Qed.

Local Lemma ph_right_a : fld Lright H a = Some 0.
Proof.
  destruct (si_hring _ _ HS a ph_aL) as [E _]. rewrite E. f_equal.
  apply cnext_cprev; [apply (si_hring_nodup HS) | left].
Qed.

Lemma head_store_eq :
  head_store H nm =
    hset (hsetm (hset (hset (hset (hset (hset (hset
      (H ++ [set_Value (VHead (mkHead nm 0)) zeroElement])
      a Lright (Some e)) e Lleft (Some a)) e Lright (Some 0))
      0 Lleft (Some e)) e Lup (Some e)) e Ldown (Some e)) e) e Lcolumn (Some e).
Proof.
  pose proof ph_a_lt as Hlt.
  unfold head_store, nfld. rewrite ph_left0. simpl.
  rewrite fld_alloc. rewrite decide_False by (fold e; lia).
  rewrite ph_right_a. reflexivity.
Qed.

Lemma length_head_store : length (head_store H nm) = S e.
Proof. rewrite head_store_eq. hsimp. apply length_alloc. Qed.

Lemma PushHead_run o sols :
  PushHead (mkMatrix H o sols) nm =
    Some (mkMatrix (head_store H nm) o sols, Some e).
Proof.
  pose proof ph_a_lt as Hlt. pose proof (si_len HS) as H0lt. fold e in H0lt.
  pose proof (length_alloc H (set_Value (VHead (mkHead nm 0)) zeroElement)) as Hlen.
  fold e in Hlen.
  unfold PushHead, lazyInit. simpl.
  rewrite load_Some by assumption.
  destruct (si_hring _ _ HS 0) as [Er _]; [left|]. rewrite Er. simpl.
  rewrite load_Some by assumption. rewrite ph_left0. simpl.
  unfold insertHeadValue, alloc, insertHead. fold e.
  rewrite load_Some by lia. rewrite fld_alloc.
  rewrite decide_False by (fold e; lia). rewrite ph_right_a. simpl.
  rewrite poke_Some by lia. simpl.
  repeat (rewrite poke_Some by (hlen; lia); simpl).
  rewrite poke_matrix_Some by (hlen; lia). simpl.
  rewrite poke_Some by (hlen; lia). simpl.
  rewrite head_store_eq. reflexivity.
Qed.

Lemma fld_head_store f x :
  fld f (head_store H nm) x =
    if decide (x = e) then
      match f with Lleft => Some a | Lright => Some 0 | _ => Some e end
    else if decide (x = a ∧ f = Lright) then Some e
    else if decide (x = 0 ∧ f = Lleft) then Some e
    else fld f H x.
Proof.
  pose proof ph_a_lt as Hlt. pose proof (si_len HS) as H0lt. fold e in H0lt.
  pose proof (length_alloc H (set_Value (VHead (mkHead nm 0)) zeroElement)) as Hlen.
  fold e in Hlen.
  rewrite head_store_eq. hsimp. rewrite fld_alloc. fold e.
  destruct (decide (x = e)) as [->|Hne].
  - destruct f; dec_tac; try reflexivity.
  - dec_tac.
    destruct (decide (x = a ∧ f = Lright)) as [[? ?]|];
      destruct (decide (x = 0 ∧ f = Lleft)) as [[? ?]|]; reflexivity.
Qed.

Lemma mtx_head_store x :
  mtx (head_store H nm) x = if decide (x = e) then true else mtx H x.
Proof.
  pose proof (length_alloc H (set_Value (VHead (mkHead nm 0)) zeroElement)) as Hlen.
  fold e in Hlen.
  rewrite head_store_eq. hsimp. rewrite mtx_alloc. fold e.
  destruct (decide (x = e)); reflexivity.
Qed.

Lemma val_head_store x :
  val (head_store H nm) x =
    if decide (x = e) then VHead (mkHead nm 0) else val H x.
Proof.
  rewrite head_store_eq. hsimp. rewrite val_alloc. fold e.
  destruct (decide (x = e)); reflexivity.
Qed.
End push_head.

Lemma cnext_single {X} `{EqDecision X} (x : X) : cnext [x] x = x.
Proof. exact (cnext_mid [] x [] (not_elem_of_nil x)). Qed.

Lemma cprev_single {X} `{EqDecision X} (x : X) : cprev [x] x = x.
Proof. exact (cprev_mid [] x [] (not_elem_of_nil x)). Qed.

Lemma pristine_whole (H : list Element) (A : shape) :
  SInv H A → pristine A → whole_rows A.
Proof.
  intros HS [El Hall] R x y HR Hx Hy _.
  pose proof (si_row_item R y HR Hy) as Hyi. split; [|apply Hall, Hyi].
  rewrite El. apply (si_item _ _ HS y Hyi).
Qed.

Lemma fresh_addr (H : list Element) (A : shape) x :
  SInv H A → x ∈ 0 :: s_cols A ++ items A → x ≠ length H.
Proof. intros HS Hx. apply (si_addr _ _ HS) in Hx. lia. Qed.

Lemma PushHead_SInv (H : list Element) (A : shape) (nm : string) :
  SInv H A → pristine A →
  SInv (head_store H nm) (apush_head A (length H) nm) ∧
  pristine (apush_head A (length H) nm).
Proof.
  intros HS [El Hall].
  set (e := length H). set (Lh := 0 :: s_live A). set (a := cprev Lh 0).
  pose proof (ph_aL (A:=A)) as HaL. fold Lh a in HaL.
  pose proof (ph_a_lt HS) as Halt. fold Lh a e in Halt.
  pose proof (si_len HS) as H0lt. fold e in H0lt.
  pose proof (si_hring_nodup HS) as HndL. fold Lh in HndL.
  assert (∀ x, x ∈ 0 :: s_cols A ++ items A → x ≠ e) as Hfresh
    by (intros x Hx; apply (fresh_addr H A x HS Hx)).
  assert (∀ x, x ∈ Lh → x ≠ e) as HfreshL.
  { intros x Hx. apply Hfresh. apply elem_of_cons in Hx as [->|Hx]; [left|].
    right. apply elem_of_app. left. apply (si_live _ _ HS), Hx. }
  assert (∀ x, x ∈ s_cols A → x ≠ e) as Hfreshc.
  { intros x Hx. apply Hfresh. right. apply elem_of_app. tauto. }
  assert (∀ x, x ∈ items A → x ≠ e ∧ x ≠ a ∧ x ≠ 0) as Hfreshi.
  { intros x Hx. split_and!.
    - apply Hfresh. right. apply elem_of_app. tauto.
    - intros ->. apply elem_of_cons in HaL as [E0|Ha].
      + apply (si_item_ne0 HS a Hx). assumption.
      + apply (si_col_not_item HS a); [apply (si_live _ _ HS)|]; assumption.
    - apply (si_item_ne0 HS x Hx). }
  assert (∀ f x, f ≠ Lright → f ≠ Lleft → x ≠ e →
            fld f (head_store H nm) x = fld f H x) as Hside.
  { intros f x ? ? ?. rewrite (fld_head_store HS). fold e Lh a. dec_tac. reflexivity. }
  assert (∀ f x, x ∈ items A → fld f (head_store H nm) x = fld f H x) as Hitem.
  { intros f x Hx. destruct (Hfreshi x Hx) as (? & ? & ?).
    rewrite (fld_head_store HS). fold e Lh a. dec_tac. reflexivity. }
  assert (e ∉ Lh) as HeL by (intros Hin; apply (HfreshL e Hin); reflexivity).
  assert (0 :: s_live A ++ [e] = insert_after a e Lh) as EL.
  { unfold a. unfold Lh at 1. rewrite cprev_head.
    - symmetry. apply insert_after_last. exact HndL.
    - apply NoDup_cons in HndL. tauto. }
  split; [constructor; simpl|].
  - intros x. rewrite (length_head_store HS). fold e.
    rewrite <- app_assoc. simpl.
    pose proof (si_addr _ _ HS x) as Hx. fold e in Hx.
    rewrite elem_of_cons, elem_of_app in Hx.
    change (items (apush_head A e nm)) with (items A).
    rewrite elem_of_cons, elem_of_app, elem_of_cons.
    split; [intros Hlt|intros Hin].
    + destruct (decide (x = e)); [tauto|]. assert (x < e) as Hxe by lia.
      apply Hx in Hxe. tauto.
    + destruct (decide (x = e)); [lia|]. assert (x < e); [|lia]. apply Hx. tauto.
  - pose proof (si_nodup _ _ HS) as Hn. rewrite <- app_assoc. simpl.
    change (items (apush_head A e nm)) with (items A).
    apply NoDup_cons in Hn as [H0 Hn]. apply NoDup_cons. split.
    + rewrite elem_of_app in H0. rewrite elem_of_app, elem_of_cons.
      intros [?|[?|?]]; [tauto| lia |tauto].
    + apply NoDup_app in Hn as (Hn1 & Hd & Hn2). apply NoDup_app. split_and!.
      * assumption.
      * intros x Hx Hx'. apply elem_of_cons in Hx' as [->|Hx'].
        -- apply (Hfreshc e Hx). reflexivity.
        -- eapply Hd; eassumption.
      * apply NoDup_cons. split; [|assumption]. intros Hin.
        destruct (Hfreshi e Hin). congruence.
  - rewrite (mtx_head_store HS). fold e. dec_tac. apply (si_sent _ _ HS).
  - rewrite !Hside by (try discriminate; lia). apply (si_sent_v _ _ HS).
  - rewrite EL. intros x Hx. apply elem_of_insert_after in Hx; [|assumption].
    assert (x ∈ e :: Lh) as Hx' by (apply elem_of_cons; tauto).
    rewrite cnext_insert, cprev_insert by assumption.
    rewrite !(fld_head_store HS). fold e Lh a.
    assert (cnext Lh a = 0) as Ena by (apply cnext_cprev; [assumption|left]).
    rewrite Ena.
    destruct (decide (x = e)) as [->|Hne]; [split; reflexivity|].
    destruct Hx as [?|Hx]; [congruence|].
    destruct (si_hring _ _ HS x Hx) as [E1 E2]. fold Lh in E1, E2.
    split.
    + destruct (decide (x = a)) as [->|]; dec_tac; [reflexivity|assumption].
    + dec_tac. destruct (decide (x = 0)) as [->|]; dec_tac; [reflexivity|assumption].
  - apply NoDup_app. split_and!; [apply (si_live_nodup _ _ HS)| |apply NoDup_singleton].
    intros x Hx Hx'. apply list_elem_of_singleton in Hx' as ->.
    apply (HfreshL e); [right; assumption|reflexivity].
  - intros c Hc. rewrite elem_of_app in *. destruct Hc as [Hc|Hc]; [|tauto].
    left. apply (si_live _ _ HS), Hc.
  - intros c Hc. rewrite (mtx_head_store HS), (val_head_store HS),
      (fld_head_store HS). fold e Lh a.
    apply elem_of_app in Hc as [Hc|Hc].
    + pose proof (Hfreshc c Hc). dec_tac. apply (si_head _ _ HS c Hc).
    + apply list_elem_of_singleton in Hc as ->. dec_tac. tauto.
  - intros c Hc. apply elem_of_app in Hc as [Hc|Hc].
    + pose proof (Hfreshc c Hc). dec_tac.
      eapply ring_frame; [|apply (si_vring _ _ HS c Hc)].
      intros x Hx. split; apply Hside; try discriminate;
        apply Hfresh; (apply elem_of_cons in Hx as [->|Hx];
          [right; apply elem_of_app; tauto|]);
        right; apply elem_of_app; right; apply (si_vr_item _ _ HS c x Hc Hx).
    + apply list_elem_of_singleton in Hc as ->. dec_tac.
      intros x Hx. apply list_elem_of_singleton in Hx as ->.
      rewrite !(fld_head_store HS). fold e. dec_tac.
      rewrite cnext_single, cprev_single. split; reflexivity.
  - intros c Hc. destruct (decide (c = e)); [constructor|].
    apply elem_of_app in Hc as [Hc|Hc]; [apply (si_vr_nodup _ _ HS c Hc)|].
    apply list_elem_of_singleton in Hc. congruence.
  - intros c x Hc Hx. destruct (decide (c = e)); [apply elem_of_nil in Hx; tauto|].
    apply elem_of_app in Hc as [Hc|Hc]; [apply (si_vr_item _ _ HS c x Hc Hx)|].
    apply list_elem_of_singleton in Hc. congruence.
  - intros x Hx. destruct (Hfreshi x Hx) as (? & ? & ?).
    rewrite (mtx_head_store HS), (val_head_store HS), Hitem by assumption.
    fold e. dec_tac. destruct (si_item _ _ HS x Hx) as (? & ? & ? & ?).
    split_and!; try assumption. apply elem_of_app. tauto.
  - intros R HR. destruct (si_row _ _ HS R HR) as (Hne & Hr & Hn).
    split_and!; [assumption| |assumption].
    eapply ring_frame; [|exact Hr].
    intros x Hx. split; apply Hitem; eapply si_row_item; eassumption.
  - split; simpl; [rewrite El; reflexivity|].
    intros x Hx. unfold items in Hx. simpl in Hx. fold (items A) in Hx.
    destruct (si_item _ _ HS x Hx) as (_ & _ & _ & Hc).
    pose proof (Hfreshc _ Hc). dec_tac. apply Hall, Hx.
Qed.

Section push_item.
Context {H : list Element} {A : shape} (HS : SInv H A).
Context (row : option nat) (c : nat) (Hok : item_args_ok A row c).

Let e := length H.
Let Lc := c :: s_vr A c.
Let t := cprev Lc c.
Let pr := match row with None => e | Some ar => ar end.
Let nx := match row with None => e | Some ar => cnext (row_of A ar) ar end.

Local Lemma pi_c : c ∈ s_cols A.
Proof. apply Hok. Qed.

Local Lemma pi_tL : t ∈ Lc.
Proof. apply cprev_in. left. Qed.

Local Lemma pi_t_lt : t < e ∧ t ≠ 0.
Proof. apply (si_vring_lt HS c t pi_c pi_tL). Qed.

Local Lemma pi_c_lt : c < e ∧ c ≠ 0.
Proof. split; [apply (si_col_lt HS) | apply (si_col_ne0 HS)]; apply pi_c. Qed.

Local Lemma pi_up_c : fld Lup H c = Some t.
Proof. apply (si_vring _ _ HS c pi_c c). left. Qed.

Local Lemma pi_down_t : fld Ldown H t = Some c.
Proof.
  destruct (si_vring _ _ HS c pi_c t pi_tL) as [E _]. rewrite E. f_equal.
  apply cnext_cprev; [apply (si_vring_nodup HS c pi_c) | left].
Qed.

Local Lemma pi_val_c :
  val H c = VHead (mkHead (s_name A c) (wrap64 (Z.of_nat (length (s_vr A c))))).
Proof. apply (si_head _ _ HS c pi_c). Qed.

Local Lemma pi_row ar :
  row = Some ar →
  ar ∈ items A ∧ ar < e ∧ row_of A ar ∈ s_rows A ∧ ar ∈ row_of A ar ∧
  fld Lright H ar = Some nx ∧ nx ∈ row_of A ar ∧ nx ∈ items A ∧ nx < e.
Proof.
  intros Er. destruct Hok as [_ Hr]. rewrite Er in Hr. destruct Hr as [Har _].
  destruct (row_of_in A ar Har) as [HR HaR].
  destruct (si_row _ _ HS _ HR) as (_ & Hring & _).
  destruct (Hring ar HaR) as [E _].
  assert (nx = cnext (row_of A ar) ar) as -> by (unfold nx; rewrite Er; reflexivity).
  pose proof (cnext_in (row_of A ar) ar HaR) as Hn.
  pose proof (si_row_item _ _ HR Hn) as Hni.
  split_and!; try assumption; apply (si_item_lt HS); assumption.
Qed.

Local Lemma pi_cases :
  (row = None ∧ pr = e ∧ nx = e) ∨ (∃ ar, row = Some ar ∧ pr = ar).
Proof.
  unfold pr, nx. clear Hok. destruct row as [ar|]; [right; exists ar|left]; tauto.
Qed.

Local Lemma pi_pr_nx : pr ≤ e ∧ nx ≤ e ∧ pr ≠ 0 ∧ nx ≠ 0.
Proof.
  pose proof (si_len HS) as H0. fold e in H0.
  destruct pi_cases as [(_ & -> & ->)|(ar & Er & ->)]; [lia|].
  destruct (pi_row ar Er) as (Hai & Ha & _ & _ & _ & _ & Hni & Hn).
  pose proof (si_item_ne0 HS _ Hai). pose proof (si_item_ne0 HS _ Hni). lia.
Qed.

Lemma item_store_eq :
  item_store H row c =
    hsetv (hset (hsetm (hset (hset (hset (hset
      (hset (hset (hset (hset (H ++ [set_Value (VBool true) zeroElement])
         pr Lright (Some e)) e Lleft (Some pr)) e Lright (Some nx)) nx Lleft (Some e))
      t Ldown (Some e)) e Lup (Some t)) e Ldown (Some c)) c Lup (Some e)) e)
      e Lcolumn (Some c)) c
      (VHead (mkHead (s_name A c) (wrap64 (Z.of_nat (S (length (s_vr A c))))))).
Proof.
  destruct pi_t_lt as [Htlt Ht0]. destruct pi_c_lt as [Hclt Hc0].
  destruct pi_pr_nx as (Hpr & Hnx & Hpr0 & Hnx0).
  pose proof (length_alloc H (set_Value (VBool true) zeroElement)) as Hlen.
  fold e in Hlen.
  unfold item_store. fold e.
  assert (nfld Lup (H ++ [set_Value (VBool true) zeroElement]) c = t) as ->.
  { unfold nfld. rewrite fld_alloc. fold e. dec_tac. rewrite pi_up_c. reflexivity. }
  set (H0 := H ++ [set_Value (VBool true) zeroElement]) in *.
  assert (match row with
          | Some ar =>
              hset (hset (hset (hset H0 ar Lright (Some e)) e Lleft (Some ar))
                e Lright (Some (nfld Lright H0 ar))) (nfld Lright H0 ar) Lleft (Some e)
          | None => hset (hset H0 e Lleft (Some e)) e Lright (Some e)
          end =
          hset (hset (hset (hset H0 pr Lright (Some e)) e Lleft (Some pr))
                e Lright (Some nx)) nx Lleft (Some e)) as ->.
  { destruct pi_cases as [(Er & -> & ->)|(ar & Er & ->)]; rewrite Er.
    2:{ destruct (pi_row ar Er) as (_ & Ha & _ & _ & Efr & _).
        unfold nfld, H0. rewrite fld_alloc. fold e. dec_tac. rewrite Efr. reflexivity. }
    apply heap_ext.
    - hsimp. reflexivity.
    - intros f x. hsimp.
      destruct (decide (x = e ∧ f = Lright)), (decide (x = e ∧ f = Lleft));
        try reflexivity; intuition congruence.
    - intros x. hsimp. reflexivity.
    - intros x. hsimp. reflexivity. }
  set (H1 := hset (hset (hset (hset H0 pr Lright (Some e)) e Lleft (Some pr))
                e Lright (Some nx)) nx Lleft (Some e)).
  assert (nfld Ldown H1 t = c) as ->.
  { unfold nfld, H1. hsimp. dec_tac. unfold H0. rewrite fld_alloc. fold e. dec_tac.
    rewrite pi_down_t. reflexivity. }
  unfold name_of, size_of. hsimp. unfold H1. hsimp. unfold H0.
  rewrite val_alloc. fold e. dec_tac. rewrite pi_val_c. simpl.
  rewrite wrap64_succ. reflexivity.
Qed.
Lemma length_item_store : length (item_store H row c) = S e.
Proof. rewrite item_store_eq. hsimp. apply length_alloc. Qed.

Lemma PushItem_run os sols :
  PushItem (mkMatrix H os sols) row (Some c) =
    Some (mkMatrix (item_store H row c) os sols, Some e).
Proof.
  destruct pi_t_lt as [Htlt Ht0]. destruct pi_c_lt as [Hclt Hc0].
  destruct pi_pr_nx as (Hpr & Hnx & Hpr0 & Hnx0).
  pose proof (length_alloc H (set_Value (VBool true) zeroElement)) as Hlen.
  fold e in Hlen.
  unfold PushItem, alloc. simpl. fold e.
  set (H0 := H ++ [set_Value (VBool true) zeroElement]) in *.
  assert (∀ f x, x ≠ e → fld f H0 x = fld f H x) as HfH0.
  { intros f x Hx. unfold H0. rewrite fld_alloc. fold e. dec_tac. reflexivity. }
  assert (∀ x, x ≠ e → val H0 x = val H x) as HvH0.
  { intros x Hx. unfold H0. rewrite val_alloc. fold e. dec_tac. reflexivity. }
  rewrite load_Some by lia. rewrite HfH0 by lia. rewrite pi_up_c. simpl.
  unfold insertItem.
  assert ((if ptr_eqb row None
           then H1 ← poke H0 (Some e) Lleft (Some e); poke H1 (Some e) Lright (Some e)
           else n ← load H0 row Lright;
                H1 ← poke H0 row Lright (Some e);
                H1 ← poke H1 (Some e) Lleft row;
                H1 ← poke H1 (Some e) Lright n;
                poke H1 n Lleft (Some e)) =
          Some (hset (hset (hset (hset H0 pr Lright (Some e)) e Lleft (Some pr))
                  e Lright (Some nx)) nx Lleft (Some e))) as ->.
  { destruct pi_cases as [(Er & -> & ->)|(ar & Er & ->)]; rewrite Er.
    - simpl. rewrite poke_Some by lia. simpl. rewrite poke_Some by (hlen; lia).
      f_equal. apply heap_ext.
      + hsimp. reflexivity.
      + intros f x. hsimp.
        destruct (decide (x = e ∧ f = Lright)), (decide (x = e ∧ f = Lleft));
          try reflexivity; intuition congruence.
      + intros x. hsimp. reflexivity.
      + intros x. hsimp. reflexivity.
    - destruct (pi_row ar Er) as (_ & Ha & _ & _ & Efr & _).
      simpl. rewrite load_Some by lia. rewrite HfH0 by lia.
      rewrite Efr. simpl.
      rewrite poke_Some by lia. simpl.
      repeat (rewrite poke_Some by (hlen; lia); simpl). reflexivity. }
  simpl.
  set (H1 := hset (hset (hset (hset H0 pr Lright (Some e)) e Lleft (Some pr))
                e Lright (Some nx)) nx Lleft (Some e)).
  assert (length H1 = S e) as Hlen1 by (unfold H1; hsimp; exact Hlen).
  rewrite load_Some by lia.
  assert (fld Ldown H1 t = Some c) as ->.
  { unfold H1. hsimp. dec_tac. rewrite HfH0 by lia. apply pi_down_t. }
  simpl.
  repeat (rewrite poke_Some by (hlen; lia); simpl).
  rewrite poke_matrix_Some by (hlen; lia). simpl.
  rewrite poke_Some by (hlen; lia). simpl.
  rewrite (load_Head_Some _ c (mkHead (s_name A c) (wrap64 (Z.of_nat (length (s_vr A c)))))).
  2:{ hsimp. unfold H1. hsimp. rewrite HvH0 by lia. apply pi_val_c. }
  simpl. rewrite poke_Value_Some by (hlen; lia). simpl.
  rewrite item_store_eq. fold e H0 H1. rewrite wrap64_succ. reflexivity.
Qed.

Lemma fld_item_store f x :
  fld f (item_store H row c) x =
    if decide (x = e) then
      match f with
      | Lleft => Some pr | Lright => Some nx | Lup => Some t
      | Ldown => Some c | Lcolumn => Some c
      end
    else if decide (x = t ∧ f = Ldown) then Some e
    else if decide (x = c ∧ f = Lup) then Some e
    else if decide (x = pr ∧ f = Lright) then Some e
    else if decide (x = nx ∧ f = Lleft) then Some e
    else fld f H x.
Proof.
  destruct pi_t_lt as [Htlt Ht0]. destruct pi_c_lt as [Hclt Hc0].
  destruct pi_pr_nx as (Hpr & Hnx & Hpr0 & Hnx0).
  pose proof (length_alloc H (set_Value (VBool true) zeroElement)) as Hlen.
  fold e in Hlen.
  rewrite item_store_eq. hsimp. rewrite fld_alloc. fold e.
  destruct (decide (x = e)) as [->|Hne].
  - destruct f; dec_tac; try reflexivity.
    + destruct (decide (e = nx ∧ Lleft = Lleft)) as [[E _]|Hn].
      * destruct pi_cases as [(_ & Ep & _)|(ar & Er & Ep)]; [congruence|].
        exfalso. destruct (pi_row ar Er) as (_ & _ & _ & _ & _ & _ & _ & Hlt). lia.
      * reflexivity.
  - dec_tac.
    destruct (decide (x = t ∧ f = Ldown)) as [[? ?]|];
    destruct (decide (x = c ∧ f = Lup)) as [[? ?]|];
    destruct (decide (x = pr ∧ f = Lright)) as [[? ?]|];
    destruct (decide (x = nx ∧ f = Lleft)) as [[? ?]|];
    try reflexivity; congruence.
Qed.

Lemma mtx_item_store x :
  mtx (item_store H row c) x = if decide (x = e) then true else mtx H x.
Proof.
  pose proof (length_alloc H (set_Value (VBool true) zeroElement)) as Hlen.
  fold e in Hlen.
  rewrite item_store_eq. hsimp. rewrite mtx_alloc. fold e.
  destruct (decide (x = e)); reflexivity.
Qed.

Lemma val_item_store x :
  val (item_store H row c) x =
    if decide (x = c)
    then VHead (mkHead (s_name A c) (wrap64 (Z.of_nat (S (length (s_vr A c))))))
    else if decide (x = e) then VBool true else val H x.
Proof.
  destruct pi_c_lt as [Hclt Hc0].
  pose proof (length_alloc H (set_Value (VBool true) zeroElement)) as Hlen.
  fold e in Hlen.
  rewrite item_store_eq. hsimp. rewrite val_alloc. fold e.
  destruct (decide (x = c)); [reflexivity|]. destruct (decide (x = e)); reflexivity.
Qed.
End push_item.

Lemma insert_after_perm {X} `{EqDecision X} (a e : X) (L : list X) :
  a ∈ L → insert_after a e L ≡ₚ e :: L.
Proof.
  intros Ha. destruct (list_elem_of_split_l _ _ Ha) as (l1 & l2 & -> & Hl1).
  rewrite insert_after_mid by assumption.
  rewrite (Permutation_middle l1 (a :: l2) e).
  apply Permutation_app_head. apply perm_swap.
Qed.

Lemma fmap_insert_row_id (rows : list (list nat)) (ar e : nat) :
  (∀ R, R ∈ rows → ar ∉ R) →
  (λ R, if decide (ar ∈ R) then insert_after ar e R else R) <$> rows = rows.
Proof.
  induction rows as [|R rows IH]; intros Hn; [reflexivity|].
  rewrite fmap_cons. rewrite decide_False by (apply Hn; left).
  f_equal. apply IH. intros R' HR'. apply Hn. right. assumption.
Qed.

Lemma concat_insert_row (rows : list (list nat)) (ar e : nat) :
  NoDup (concat rows) → ar ∈ concat rows →
  concat ((λ R, if decide (ar ∈ R) then insert_after ar e R else R) <$> rows)
    ≡ₚ e :: concat rows.
Proof.
  induction rows as [|R rows IH]; intros Hnd Har.
  - apply elem_of_nil in Har. contradiction.
  - rewrite fmap_cons, !concat_cons. rewrite concat_cons in Hnd, Har.
    apply NoDup_app in Hnd as (HnR & Hd & Hn).
    destruct (decide (ar ∈ R)) as [HaR|HaR].
    + rewrite fmap_insert_row_id.
      * rewrite (insert_after_perm ar e R HaR). reflexivity.
      * intros R' HR' HaR'. apply (Hd ar HaR). apply elem_of_concat.
        exists R'. tauto.
    + apply elem_of_app in Har as [?|Har]; [contradiction|].
      rewrite (IH Hn Har). symmetry. apply Permutation_middle.
Qed.

Lemma items_push (H : list Element) (A : shape) (row : option nat) (c e : nat) :
  SInv H A → item_args_ok A row c →
  items (apush_item A e row c) ≡ₚ e :: items A.
Proof.
  intros HS [_ Hr]. unfold items. simpl. destruct row as [ar|].
  - apply concat_insert_row; [apply (si_items_nodup HS) | apply Hr].
  - rewrite concat_app. simpl. symmetry. apply Permutation_cons_append.
Qed.

Section push_item_inv.
Context {H : list Element} {A : shape} (HS : SInv H A) (Hp : pristine A).
Context (row : option nat) (c : nat) (Hok : item_args_ok A row c).

Let e := length H.
Let Lc := c :: s_vr A c.
Let t := cprev Lc c.
Let pr := match row with None => e | Some ar => ar end.
Let nx := match row with None => e | Some ar => cnext (row_of A ar) ar end.
Let A' := apush_item A e row c.
Let H' := item_store H row c.

Local Lemma pv_fresh x : x ∈ 0 :: s_cols A ++ items A → x ≠ e.
Proof. apply (fresh_addr H A x HS). Qed.

Local Lemma pv_item x : x ∈ items A → x ≠ e ∧ x ≠ 0 ∧ x ≠ c ∧ x ∉ s_cols A.
Proof.
  intros Hx. pose proof (pi_c row c Hok) as Hc. split_and!.
  - apply pv_fresh. right. apply elem_of_app. tauto.
  - apply (si_item_ne0 HS x Hx).
  - intros ->. apply (si_col_not_item HS c Hc Hx).
  - intros Hxc. apply (si_col_not_item HS x Hxc Hx).
Qed.

Local Lemma pv_col x : x ∈ s_cols A → x ≠ e ∧ x ≠ 0 ∧ x ∉ items A.
Proof.
  intros Hx. split_and!.
  - apply pv_fresh. right. apply elem_of_app. tauto.
  - apply (si_col_ne0 HS x Hx).
  - apply (si_col_not_item HS x Hx).
Qed.

Local Lemma pv_prnx : (pr = e ∨ pr ∈ items A) ∧ (nx = e ∨ nx ∈ items A).
Proof.
  destruct (pi_cases (H:=H) (A:=A) row) as [(_ & Ep & En)|(ar & Er & Ep)].
  - fold e pr nx in Ep, En. tauto.
  - fold e pr in Ep. destruct (pi_row HS row c Hok ar Er) as (Hai & _ & _ & _ & _ & _ & Hni & _).
    fold e nx in Hni. rewrite Ep. tauto.
Qed.

Local Lemma pv_tL : t ∈ Lc.
Proof. apply cprev_in. left. Qed.

Local Lemma pv_t x : x ∈ 0 :: s_live A → x ≠ t ∨ x = c.
Proof.
  intros Hx. destruct (decide (x = t)) as [->|]; [|tauto]. right.
  pose proof pv_tL as Ht. apply elem_of_cons in Ht as [?|Ht]; [assumption|].
  exfalso. destruct (si_vr_item _ _ HS c t (pi_c row c Hok) Ht) as [Hti _].
  apply elem_of_cons in Hx as [E|Hx].
  - apply (si_item_ne0 HS t Hti). congruence.
  - apply (si_col_not_item HS t); [apply (si_live _ _ HS)|]; assumption.
Qed.

Local Lemma pv_hor f x :
  (f = Lright ∨ f = Lleft) → x ≠ e → x ≠ pr → x ≠ nx → fld f H' x = fld f H x.
Proof.
  intros Hf ? ? ?. unfold H'. rewrite (fld_item_store HS row c Hok).
  fold e Lc t pr nx. dec_tac. reflexivity.
Qed.

Local Lemma pv_ver f x :
  (f = Lup ∨ f = Ldown) → x ≠ e → x ≠ t → x ≠ c → fld f H' x = fld f H x.
Proof.
  intros Hf ? ? ?. unfold H'. rewrite (fld_item_store HS row c Hok).
  fold e Lc t pr nx. dec_tac. reflexivity.
Qed.

Local Lemma pv_colf x : x ≠ e → fld Lcolumn H' x = fld Lcolumn H x.
Proof.
  intros ?. unfold H'. rewrite (fld_item_store HS row c Hok).
  fold e Lc t pr nx. dec_tac. reflexivity.
Qed.

Local Lemma pv_items x : x ∈ items A' ↔ x = e ∨ x ∈ items A.
Proof.
  unfold A'. rewrite (items_push H A row c e HS Hok). apply elem_of_cons.
Qed.

Local Lemma pv_hring_frame x :
  x ∈ 0 :: s_live A →
  fld Lright H' x = fld Lright H x ∧ fld Lleft H' x = fld Lleft H x.
Proof.
  intros Hx.
  assert (x ≠ e ∧ x ∉ items A) as [Hxe Hxi].
  { apply elem_of_cons in Hx as [->|Hx].
    - split; [apply pv_fresh; left|]. intros H0. apply (si_item_ne0 HS 0 H0). reflexivity.
    - apply (si_live _ _ HS) in Hx. destruct (pv_col x Hx). tauto. }
  destruct pv_prnx as [[Ep|Ep] [En|En]];
    split; apply pv_hor; try tauto; try congruence;
    try (intros ->; contradiction).
Qed.
Local Lemma pv_e_row R : R ∈ s_rows A → e ∉ R.
Proof.
  intros HR Hin. destruct (pv_item e) as [Hne _]; [|congruence].
  eapply si_row_item; eassumption.
Qed.

Local Lemma pv_rows R' :
  R' ∈ s_rows A' →
  (R' ∈ s_rows A ∧ (pr ∉ R') ∧ (nx ∉ R')) ∨
  (row = None ∧ R' = [e]) ∨
  (∃ ar, row = Some ar ∧ R' = insert_after ar e (row_of A ar)).
Proof.
  unfold A'. simpl. intros HR'.
  destruct (pi_cases (H:=H) (A:=A) row) as [(Er & Ep & En)|(ar & Er & Ep)];
    [fold e pr nx in Ep, En|fold e pr in Ep]; rewrite Er in HR'.
  - apply elem_of_app in HR' as [HR'|HR'].
    + left. split; [assumption|]. rewrite Ep, En.
      split; apply pv_e_row; assumption.
    + apply list_elem_of_singleton in HR'. tauto.
  - apply list_elem_of_fmap in HR' as (R & -> & HR).
    destruct (pi_row HS row c Hok ar Er) as (Hai & _ & HRa & HaR & _ & HnR & _).
    fold e nx in HnR.
    destruct (decide (ar ∈ R)) as [HaR'|HaR'].
    + right. right. exists ar. split; [assumption|].
      rewrite (row_of_eq HS R ar HR HaR'). reflexivity.
    + left. split; [assumption|]. rewrite Ep. split; [assumption|].
      intros HnR'. apply HaR'.
      rewrite (row_unique (s_rows A) R (row_of A ar) nx (si_items_nodup HS) HR HRa HnR' HnR).
      assumption.
Qed.

Lemma PushItem_SInv : SInv H' A' ∧ pristine A'.
Proof.
  destruct Hp as [El Hall].
  pose proof (pi_c row c Hok) as Hc.
  destruct (pi_t_lt HS row c Hok) as [Htlt Ht0]. fold Lc t e in Htlt, Ht0.
  destruct (pi_c_lt HS row c Hok) as [Hclt Hc0]. fold e in Hclt.
  pose proof (si_vring_nodup HS c Hc) as HndLc. fold Lc in HndLc.
  pose proof pv_tL as HtL.
  assert (e ∉ Lc) as HeLc.
  { intros Hin. destruct (si_vring_lt HS c e Hc Hin) as [Hlt _]. unfold e in Hlt. lia. }
  assert (c :: s_vr A c ++ [e] = insert_after t e Lc) as ELc.
  { unfold t, Lc. rewrite cprev_head by (apply NoDup_cons in HndLc; tauto).
    symmetry. apply insert_after_last. exact HndLc. }
  assert (cnext Lc t = c) as Ent by (apply cnext_cprev; [assumption|left]).
  assert (∀ x, fld Ldown H' x = if decide (x = e) then Some c
                               else if decide (x = t) then Some e else fld Ldown H x) as HD.
  { intros x. unfold H'. rewrite (fld_item_store HS row c Hok). fold e Lc t pr nx.
    destruct (decide (x = e)); [reflexivity|]. dec_tac.
    destruct (decide (x = t)); dec_tac; reflexivity. }
  assert (∀ x, fld Lup H' x = if decide (x = e) then Some t
                             else if decide (x = c) then Some e else fld Lup H x) as HU.
  { intros x. unfold H'. rewrite (fld_item_store HS row c Hok). fold e Lc t pr nx.
    destruct (decide (x = e)); [reflexivity|]. dec_tac.
    destruct (decide (x = c)); dec_tac; reflexivity. }
  assert (∀ x, fld Lright H' x = if decide (x = e) then Some nx
                                else if decide (x = pr) then Some e else fld Lright H x) as HR.
  { intros x. unfold H'. rewrite (fld_item_store HS row c Hok). fold e Lc t pr nx.
    destruct (decide (x = e)); [reflexivity|]. dec_tac.
    destruct (decide (x = pr)); dec_tac; reflexivity. }
  assert (∀ x, fld Lleft H' x = if decide (x = e) then Some pr
                               else if decide (x = nx) then Some e else fld Lleft H x) as HL.
  { intros x. unfold H'. rewrite (fld_item_store HS row c Hok). fold e Lc t pr nx.
    destruct (decide (x = e)); [reflexivity|]. dec_tac.
    destruct (decide (x = nx)); dec_tac; reflexivity. }
  assert (∀ x, mtx H' x = if decide (x = e) then true else mtx H x) as HM
    by (intros x; apply (mtx_item_store HS row c Hok)).
  assert (∀ x,
    val H' x = if decide (x = c)
      then VHead (mkHead (s_name A c) (wrap64 (Z.of_nat (S (length (s_vr A c))))))
      else if decide (x = e) then VBool true else val H x) as HV
    by (intros x; apply (val_item_store HS row c Hok)).
  split; [constructor|].
  - intros x. unfold H'. rewrite (length_item_store HS row c Hok). fold e.
    change (s_cols A') with (s_cols A).
    pose proof (si_addr _ _ HS x) as Hx. fold e in Hx.
    rewrite elem_of_cons, elem_of_app in Hx.
    rewrite elem_of_cons, elem_of_app, pv_items.
    split; [intros Hlt|intros Hin].
    + destruct (decide (x = e)); [tauto|]. assert (x < e) as Hxe by lia.
      apply Hx in Hxe. tauto.
    + destruct (decide (x = e)); [lia|]. assert (x < e); [|lia]. apply Hx. tauto.
  - change (s_cols A') with (s_cols A).
    pose proof (si_nodup _ _ HS) as Hn.
    apply NoDup_cons in Hn as [H0 Hn]. apply NoDup_app in Hn as (Hn1 & Hd & Hn2).
    rewrite elem_of_app in H0.
    assert (NoDup (items A')) as HnI.
    { unfold A'. rewrite (items_push H A row c e HS Hok). apply NoDup_cons.
      split; [|assumption]. intros Hin. destruct (pv_item e Hin). congruence. }
    apply NoDup_cons. split.
    + rewrite elem_of_app, pv_items. intros [?|[?|?]]; [tauto|lia|tauto].
    + apply NoDup_app. split_and!; [assumption| |assumption].
      intros x Hx Hx'. apply pv_items in Hx' as [->|Hx'].
      * destruct (pv_col e Hx). congruence.
      * eapply Hd; eassumption.
  - rewrite HM. rewrite decide_False by lia. apply (si_sent _ _ HS).
  - rewrite HU, HD. rewrite !decide_False by lia. apply (si_sent_v _ _ HS).
  - change (s_live A') with (s_live A).
    eapply ring_frame; [|apply (si_hring _ _ HS)]. apply pv_hring_frame.
  - apply (si_live_nodup _ _ HS).
  - apply (si_live _ _ HS).
  - change (s_cols A') with (s_cols A). intros c' Hc'.
    destruct (pv_col c' Hc') as (Hce & Hc0' & Hci).
    rewrite HM, pv_colf, HV by assumption. rewrite !(decide_False (P:=c' = e)) by assumption.
    destruct (si_head _ _ HS c' Hc') as (Hm & Hcol & Hv).
    split_and!; [assumption..|]. unfold A'. simpl.
    destruct (decide (c' = c)) as [->|Hne].
    + rewrite length_app. simpl. do 4 f_equal. lia.
    + exact Hv.
  - change (s_cols A') with (s_cols A). intros c' Hc'. unfold A'. simpl.
    destruct (decide (c' = c)) as [->|Hne].
    + rewrite ELc. intros x Hx. apply elem_of_insert_after in Hx; [|assumption].
      assert (x ∈ e :: Lc) as Hx' by (apply elem_of_cons; tauto).
      rewrite cnext_insert, cprev_insert by assumption.
      rewrite HD, HU, Ent.
      destruct (decide (x = e)) as [->|Hxe]; [split; reflexivity|].
      destruct Hx as [?|Hx]; [congruence|].
      destruct (si_vring _ _ HS c Hc x Hx) as [E1 E2]. fold Lc in E1, E2.
      split.
      * destruct (decide (x = t)); [reflexivity|assumption].
      * destruct (decide (x = c)); [reflexivity|assumption].
    + eapply ring_frame; [|apply (si_vring _ _ HS c' Hc')].
      intros x Hx.
      assert (x ≠ e ∧ x ≠ t ∧ x ≠ c) as (? & ? & ?).
      { split_and!.
        - intros ->. destruct (si_vring_lt HS c' e Hc' Hx) as [Hlt _]. unfold e in Hlt. lia.
        - intros ->. apply Hne. eapply (si_vr_disjoint HS); eassumption.
        - intros ->. apply Hne. eapply (si_vr_disjoint HS c' c); try eassumption. left. }
      split; apply pv_ver; tauto.
  - change (s_cols A') with (s_cols A). intros c' Hc'. unfold A'. simpl.
    destruct (decide (c' = c)) as [->|Hne]; [|apply (si_vr_nodup _ _ HS c' Hc')].
    apply NoDup_app. split_and!; [apply (si_vr_nodup _ _ HS c Hc)| |apply NoDup_singleton].
    intros x Hx Hx'. apply list_elem_of_singleton in Hx' as ->.
    apply HeLc. right. assumption.
  - change (s_cols A') with (s_cols A). intros c' x Hc' Hx. rewrite pv_items.
    unfold A' in Hx |- *. simpl in Hx |- *.
    destruct (decide (c' = c)) as [->|Hne].
    + apply elem_of_app in Hx as [Hx|Hx].
      * destruct (si_vr_item _ _ HS c x Hc Hx) as [Hxi Hxc].
        destruct (pv_item x Hxi) as (? & _). rewrite decide_False by assumption. tauto.
      * apply list_elem_of_singleton in Hx as ->. rewrite decide_True by reflexivity. tauto.
    + destruct (si_vr_item _ _ HS c' x Hc' Hx) as [Hxi Hxc].
      destruct (pv_item x Hxi) as (? & _). rewrite decide_False by assumption. tauto.
  - change (s_cols A') with (s_cols A). intros x Hx. apply pv_items in Hx.
    rewrite HM, HV. unfold H'. rewrite (fld_item_store HS row c Hok). fold e Lc t pr nx.
    unfold A'. simpl.
    destruct (decide (x = e)) as [->|Hxe].
    + rewrite decide_False by lia. tauto.
    + destruct Hx as [?|Hx]; [congruence|].
      destruct (pv_item x Hx) as (_ & ? & ? & ?).
      destruct (si_item _ _ HS x Hx) as (? & ? & ? & ?).
      dec_tac. tauto.
  - intros R' HR'. destruct (pv_rows R' HR') as [(HR0 & Hpr' & Hnx')|[(Er & ->)|(ar & Er & ->)]].
    + destruct (si_row _ _ HS R' HR0) as (Hne & Hring & Hn).
      pose proof (pv_e_row R' HR0) as HeR.
      split_and!; [assumption| |].
      * eapply ring_frame; [|exact Hring]. intros x Hx.
        split; apply pv_hor; try tauto; intros ->; contradiction.
      * unfold A'. simpl.
        erewrite list_fmap_ext; [exact Hn|].
        intros i x Hix. simpl. rewrite decide_False; [reflexivity|].
        intros ->. apply HeR. eapply list_elem_of_lookup_2. eassumption.
    + split_and!; [discriminate| |].
      * intros x Hx. apply list_elem_of_singleton in Hx as ->.
        rewrite HR, HL, cnext_single, cprev_single. dec_tac.
        unfold pr, nx. rewrite Er. tauto.
      * simpl. apply NoDup_singleton.
    + destruct (pi_row HS row c Hok ar Er) as (Hai & _ & HRa & HaR & _ & HnR & _).
      fold e nx in HnR.
      assert (pr = ar) as Epr by (unfold pr; rewrite Er; reflexivity).
      assert (nx = cnext (row_of A ar) ar) as Enx by (unfold nx; rewrite Er; reflexivity).
      destruct (si_row _ _ HS _ HRa) as (Hne & Hring & Hn).
      pose proof (si_row_nodup HS _ HRa) as HnR0.
      pose proof (pv_e_row _ HRa) as HeR.
      split_and!.
      * intros E. apply (f_equal length) in E.
        rewrite length_insert_after in E by assumption. discriminate.
      * intros x Hx. apply elem_of_insert_after in Hx; [|assumption].
        assert (x ∈ e :: row_of A ar) as Hx' by (apply elem_of_cons; tauto).
        rewrite cnext_insert, cprev_insert by assumption.
        rewrite HR, HL, <- Enx, Epr.
        destruct (decide (x = e)) as [->|Hxe]; [split; reflexivity|].
        destruct Hx as [?|Hx]; [congruence|].
        destruct (Hring x Hx) as [E1 E2]. split.
        -- destruct (decide (x = ar)); [reflexivity|assumption].
        -- destruct (decide (x = nx)); [reflexivity|assumption].
      * rewrite (insert_after_perm ar e _ HaR). rewrite fmap_cons.
        unfold A'. simpl. rewrite decide_True by reflexivity.
        apply NoDup_cons. split.
        -- erewrite list_fmap_ext.
           ++ destruct Hok as [_ Hr]. rewrite Er in Hr. apply Hr.
           ++ intros i x Hix. simpl. rewrite decide_False; [reflexivity|].
              intros ->. apply HeR. eapply list_elem_of_lookup_2. eassumption.
        -- erewrite list_fmap_ext; [exact Hn|].
           intros i x Hix. simpl. rewrite decide_False; [reflexivity|].
           intros ->. apply HeR. eapply list_elem_of_lookup_2. eassumption.
  - split; [exact El|]. intros x Hx. apply pv_items in Hx. unfold A'. simpl.
    destruct (decide (x = e)) as [->|Hxe].
    + rewrite decide_True by reflexivity. apply elem_of_app. right. left.
    + destruct Hx as [?|Hx]; [congruence|].
      destruct (decide (s_col A x = c)) as [E|]; [|apply Hall, Hx].
      apply elem_of_app. left. rewrite <- E. apply Hall, Hx.
Qed.
End push_item_inv.

(** ** Well-formed scripts build well-formed matrices *)

Lemma New_eq : New = Some (mkMatrix new_store [] []).
Proof. reflexivity. Qed.

Lemma New_SInv : SInv new_store empty_shape ∧ pristine empty_shape.
Proof.
  split; [constructor|]; simpl.
  - intros a. rewrite list_elem_of_singleton. lia.
  - apply NoDup_singleton.
  - reflexivity.
  - split; reflexivity.
  - intros x Hx. apply list_elem_of_singleton in Hx as ->.
    rewrite cnext_single, cprev_single. split; reflexivity.
  - apply NoDup_nil_2.
  - intros c Hc. inversion Hc.
  - intros c Hc. inversion Hc.
  - intros c Hc. inversion Hc.
  - intros c Hc. inversion Hc.
  - intros c x Hc. inversion Hc.
  - intros x Hx. inversion Hx.
  - intros R HR. inversion HR.
  - split; [reflexivity|]. intros x Hx. inversion Hx.
Qed.

Lemma run_call_ok (H : list Element) (A : shape) (c : call) os sols :
  SInv H A → pristine A → call_ok A c →
  run_call (mkMatrix H os sols) c = Some (mkMatrix (call_store H c) os sols) ∧
  SInv (call_store H c) (acall A (length H) c) ∧
  pristine (acall A (length H) c) ∧
  length (call_store H c) = S (length H).
Proof.
  intros HS Hp Hok. destruct c as [nm|row [ch|]]; simpl in *; [| |contradiction].
  - rewrite (PushHead_run HS nm). split; [reflexivity|].
    destruct (PushHead_SInv H A nm HS Hp). split_and!; try assumption.
    apply (length_head_store HS).
  - rewrite (PushItem_run HS row ch Hok). split; [reflexivity|].
    destruct (PushItem_SInv HS Hp row ch Hok). split_and!; try assumption.
    apply (length_item_store HS row ch Hok).
Qed.

Lemma run_calls_ok (cs : list call) : ∀ (H : list Element) (A : shape) os sols,
  SInv H A → pristine A → script_ok A (length H) cs →
  run_calls (mkMatrix H os sols) cs = Some (mkMatrix (fold_left call_store cs H) os sols) ∧
  SInv (fold_left call_store cs H) (shape_from A (length H) cs) ∧
  pristine (shape_from A (length H) cs) ∧
  length (fold_left call_store cs H) = length H + length cs.
Proof.
  induction cs as [|c cs IH]; intros H A os sols HS Hp Hok; simpl in *.
  - split_and!; try assumption; [reflexivity|lia].
  - destruct Hok as [Hc Hok].
    destruct (run_call_ok H A c os sols HS Hp Hc) as (-> & HS' & Hp' & Hl).
    simpl. rewrite <- Hl in Hok.
    destruct (IH _ _ os sols HS' Hp' Hok) as (-> & HS2 & Hp2 & Hl2).
    rewrite Hl in HS2, Hp2, Hl2. split_and!; try assumption; [reflexivity|lia].
Qed.

(** A well-formed script builds its matrix without panic; the store is
    [store_of cs], of shape [shape_of cs], with nothing covered. *)
Lemma build_ok (cs : list call) :
  well_formed cs →
  build cs = Some (mkMatrix (store_of cs) [] []) ∧
  Inv (store_of cs) (shape_of cs) ∧ pristine (shape_of cs) ∧
  length (store_of cs) = S (length cs).
Proof.
  intros Hok. destruct New_SInv as [HS Hp].
  destruct (run_calls_ok cs new_store empty_shape [] [] HS Hp Hok) as (E & HS' & Hp' & Hl).
  unfold build. rewrite New_eq. simpl. split_and!; try assumption.
  split; [assumption|]. eapply pristine_whole; eassumption.
Qed.

Lemma heads_from_cols (cs : list call) : ∀ A e,
  script_ok A e cs → s_cols (shape_from A e cs) = s_cols A ++ heads_from e cs.
Proof.
  induction cs as [|a cs IH]; intros A e Hok; simpl.
  - rewrite app_nil_r. reflexivity.
  - destruct Hok as [Ha Hok]. rewrite (IH _ _ Hok).
    destruct a as [nm|row [ch|]]; simpl in *; [|reflexivity|contradiction].
    rewrite <- app_assoc. reflexivity.
Qed.

Lemma pushed_heads_cols (cs : list call) :
  well_formed cs → s_cols (shape_of cs) = pushed_heads cs.
Proof. intros Hok. apply (heads_from_cols cs empty_shape 1 Hok). Qed.

(** ** What the search on shapes finds *)

Lemma static_ext (A B : shape) :
  same_static A B →
  items A = items B ∧ render A = render B ∧ chosen_cols A = chosen_cols B ∧
  row_items A = row_items B ∧ row_names A = row_names B ∧ row_of A = row_of B.
Proof.
  destruct A, B. unfold same_static. simpl. intros (-> & -> & -> & ->).
  split_and!; reflexivity.
Qed.

Lemma render_row_join (A : shape) (r : nat) : render_row A r = join (row_names A r).
Proof.
  unfold render_row, row_names, row_items, join. simpl.
  generalize (s_name A (s_col A r)). induction (mates A r) as [|y l IH]; intros acc; simpl.
  - reflexivity.
  - apply IH.
Qed.

Lemma remove1_perm {X} `{EqDecision X} (x : X) (l : list X) :
  NoDup l → x ∈ l → l ≡ₚ x :: remove1 x l.
Proof.
  intros Hnd Hx. apply NoDup_Permutation.
  - assumption.
  - apply NoDup_cons. split; [|apply NoDup_remove1; assumption].
    rewrite elem_of_remove1. tauto.
  - intros y. rewrite elem_of_cons, elem_of_remove1.
    destruct (decide (y = x)) as [->|]; tauto.
Qed.

Lemma pick_in (sz : nat → Z) (l : list nat) : ∀ st c,
  fst (fold_left (pick sz) l st) = Some c → c ∈ l ∨ fst st = Some c.
Proof.
  induction l as [|x l IH]; intros st c E; simpl in *; [tauto|].
  apply IH in E as [E|E]; [left; right; assumption|].
  unfold pick in E. destruct (sz x <? st.2)%Z; simpl in E; [|tauto].
  left. injection E as ->. left.
Qed.

Lemma choose_in (A : shape) (c : nat) : choose A = Some c → c ∈ s_live A.
Proof.
  unfold choose, scan. intros E. apply pick_in in E as [E|E]; [assumption|discriminate].
Qed.

(** One step down the search tree: the row [x] of the chosen column [c]
    is taken, and the columns of its items leave the live ones. *)
Lemma descend (H : list Element) (A : shape) (c x : nat) :
  Inv H A → c ∈ s_live A → x ∈ s_vr A c →
  let A2 := acover_row (acover A c) x in
  ∃ H2, Inv H2 A2 ∧ length H2 = length H ∧ same_static A2 A ∧
        x ∈ items A ∧ s_col A x = c ∧
        s_live A ≡ₚ (s_col A <$> row_items A x) ++ s_live A2.
Proof.
  intros HI Hc Hxv A2.
  pose proof (proj1 HI) as HS.
  pose proof (cover_Inv H A c HI Hc) as HI1.
  set (H1 := cover_store H A c) in *. set (A1 := acover A c) in *.
  destruct (acover_static A c) as (Ecols & Elive & Erows & Ecol & Ename).
  fold A1 in Ecols, Elive, Erows, Ecol, Ename.
  assert (c ∈ s_cols A) as Hcc by (apply (si_live _ _ HS), Hc).
  destruct (si_vr_item _ _ HS c x Hcc Hxv) as [Hxi Hxc].
  assert (items A1 = items A) as Eitems by apply acover_items.
  assert (x ∈ items A1) as Hxi1 by (rewrite Eitems; assumption).
  assert (mates A1 x = mates A x) as Emates by apply acover_mates.
  assert (∀ y, y ∈ mates A1 x → s_col A1 y ∈ s_live A1) as Hm1.
  { intros y Hy. rewrite Emates in Hy. rewrite Ecol, Elive.
    destruct (cl_mate HI c Hc x y Hxv Hy) as (_ & _ & Hne & Hl).
    apply elem_of_remove1. tauto. }
  destruct (cols_state (row_cols A1 x) [] H1 A1 HI1)
    as (HI2 & _ & E1 & E2 & E3 & E4 & E5 & E6).
  { rewrite app_nil_r. apply (cr_nodup HI1 x Hxi1). }
  { intros c' Hc'. rewrite app_nil_r in Hc'. apply (cr_live x Hm1 c' Hc'). }
  rewrite snd_fold_cstep in HI2, E1, E2, E3, E4, E6. fold (acover_row A1 x) in *.
  fold A2 in HI2, E1, E2, E3, E4, E6.
  exists (fst (fold_left cstep (row_cols A1 x) (H1, A1))).
  split_and!; try assumption.
  - rewrite E5. apply length_cover_store.
  - unfold same_static. rewrite E1, E2, E3, E4. tauto.
  - rewrite (remove1_perm c (s_live A) (si_live_nodup _ _ HS) Hc).
    rewrite <- Elive, E6. unfold row_items, row_cols. simpl.
    rewrite Hxc, Emates, Ecol. reflexivity.
Qed.

(** Every solution the search on shapes records is the rendering of
    rows whose items lie, one each, in every column of the matrix. *)
Lemma asearch_sound (k : nat) : ∀ (H : list Element) (A : shape) (os : list nat),
  Inv H A → Forall (λ r, r ∈ items A) os →
  chosen_cols A os ++ s_live A ≡ₚ s_cols A →
  ∀ sol, sol ∈ asearch k A os →
    ∃ os', sol = render A os' ∧ Forall (λ r, r ∈ items A) os' ∧
           chosen_cols A os' ≡ₚ s_cols A.
Proof.
  induction k as [|k IH]; intros H A os HI Ho Hcov sol Hsol.
  - simpl in Hsol. destruct (s_live A) eqn:El; [|inversion Hsol].
    apply list_elem_of_singleton in Hsol as ->. exists os.
    rewrite app_nil_r in Hcov. tauto.
  - destruct (s_live A) as [|c0 l0] eqn:El.
    + rewrite asearch_leaf in Hsol by assumption.
      apply list_elem_of_singleton in Hsol as ->. exists os.
      rewrite app_nil_r in Hcov. tauto.
    + destruct (choose A) as [c|] eqn:Ec.
      2:{ simpl in Hsol. rewrite El, Ec in Hsol. inversion Hsol. }
      rewrite (asearch_branch k A os c) in Hsol by (rewrite ?El; congruence).
      apply elem_of_concat in Hsol as (l & Hl & Hsol).
      apply list_elem_of_fmap in Hl as (x & -> & Hx).
      pose proof (choose_in A c Ec) as Hc.
      destruct (descend H A c x HI Hc Hx) as (H2 & HI2 & _ & Hst & Hxi & Hxc & Hperm).
      destruct (static_ext _ _ Hst) as (Ei & Er & Ech & _).
      destruct (IH H2 _ (os ++ [x]) HI2) with (sol := sol) as (os' & -> & Ho' & Hcov').
      * rewrite Ei. apply Forall_app. split; [assumption|].
        constructor; [assumption|constructor].
      * rewrite Ech. destruct Hst as (Ecs & _). rewrite Ecs, <- Hcov, <- El, Hperm.
        unfold chosen_cols. rewrite fmap_app, concat_app. simpl.
        rewrite app_nil_r, <- !app_assoc. reflexivity.
      * assumption.
      * exists os'. destruct Hst as (Ecs & _). rewrite <- Er, <- Ei, <- Ech, <- Ecs. tauto.
Qed.

(** ** Solve on a well-formed matrix *)

Lemma Solve_run (H : list Element) (A : shape) (sols : list (list string)) :
  Inv H A → fits H →
  evt (λ n, Solve n (mkMatrix H [] sols))
      (mkMatrix H [] (sols ++ found A), sols ++ found A).
Proof.
  intros HI Hf.
  destruct (search_run (length (s_live A)) H A [] HI Hf (le_n _) (Forall_nil_2 _) sols)
    as [n0 Hn0].
  exists n0. intros n Hn. specialize (Hn0 n Hn). simpl in Hn0.
  unfold Solve.
  replace (search n (mkMatrix H [] sols) 0)
    with (Some (mkMatrix H [] (sols ++ found A))) by (symmetry; exact Hn0).
  reflexivity.
Qed.

Lemma found_sound (H : list Element) (A : shape) (sol : list string) :
  Inv H A → pristine A → sol ∈ found A →
  ∃ os, sol = render A os ∧ Forall (λ r, r ∈ items A) os ∧
        chosen_cols A os ≡ₚ s_cols A.
Proof.
  intros HI [El _] Hsol.
  apply (asearch_sound (length (s_live A)) H A [] HI (Forall_nil_2 _)); [|exact Hsol].
  unfold chosen_cols. simpl. rewrite El. reflexivity.
Qed.

(** The names of the columns of a script are the names it pushed. *)
Lemma names_from (cs : list call) : ∀ (A : shape) (e : nat),
  (∀ c, c ∈ s_cols A → c < e) →
  s_name (shape_from A e cs) <$> s_cols (shape_from A e cs) =
    (s_name A <$> s_cols A) ++ pushed_names cs.
Proof.
  induction cs as [|c cs IH]; intros A e Hlt; simpl.
  - rewrite app_nil_r. reflexivity.
  - destruct c as [nm|row [ch|]]; simpl.
    + rewrite IH.
      * simpl. rewrite fmap_app, <- app_assoc. simpl.
        rewrite decide_True by reflexivity. f_equal.
        apply list_fmap_ext. intros i x Hx. simpl.
        rewrite decide_False; [reflexivity|].
        apply list_elem_of_lookup_2 in Hx. apply Hlt in Hx. lia.
      * simpl. intros x Hx. apply elem_of_app in Hx as [Hx|Hx].
        -- apply Hlt in Hx. lia.
        -- apply list_elem_of_singleton in Hx. lia.
    + rewrite IH; [reflexivity|]. simpl. intros x Hx. apply Hlt in Hx. lia.
    + apply IH. intros x Hx. apply Hlt in Hx. lia.
Qed.

Lemma names_of (cs : list call) :
  s_name (shape_of cs) <$> s_cols (shape_of cs) = pushed_names cs.
Proof.
  unfold shape_of. rewrite names_from; [reflexivity|].
  simpl. intros c Hc. inversion Hc.
Qed.

Lemma render_rows (A : shape) (os : list nat) :
  render A os = join <$> (row_names A <$> os).
Proof.
  unfold render. rewrite <- list_fmap_compose. apply list_fmap_ext.
  intros i r _. apply render_row_join.
Qed.

Lemma concat_row_names (A : shape) (os : list nat) :
  concat (row_names A <$> os) = s_name A <$> chosen_cols A os.
Proof.
  unfold chosen_cols, row_names. induction os as [|r os IH]; [reflexivity|].
  change (((λ y, s_name A (s_col A y)) <$> row_items A r) ++
            concat ((λ r, (λ y, s_name A (s_col A y)) <$> row_items A r) <$> os) =
          s_name A <$> ((s_col A <$> row_items A r) ++
            concat ((λ r, s_col A <$> row_items A r) <$> os))).
  rewrite fmap_app, IH. f_equal.
  rewrite <- list_fmap_compose. reflexivity.
Qed.

Lemma small_fits (cs : list call) : well_formed cs → small cs → fits (store_of cs).
Proof.
  intros Hok Hs. destruct (build_ok cs Hok) as (_ & _ & _ & Hl).
  unfold fits. rewrite Hl. exact Hs.
Qed.

(** [Solve] on the matrix of a well-formed script. *)
Lemma build_Solve (cs : list call) :
  well_formed cs → small cs →
  evt (λ n, m ← build cs; Solve n m)
      (mkMatrix (store_of cs) [] (found (shape_of cs)), found (shape_of cs)).
Proof.
  intros Hok Hs. destruct (build_ok cs Hok) as (-> & HI & _ & _).
  exact (Solve_run (store_of cs) (shape_of cs) [] HI (small_fits cs Hok Hs)).
Qed.

(** ** Nested cover and uncover operations keep the invariant *)

Lemma ops_run (ps : list op) : ∀ (H : list Element) (A : shape) stk S',
  Inv H A → stack_inv H A stk → aops (A, stk) ps = Some S' →
  ∃ H', evt (λ n, run_ops n H ps) H' ∧ Inv H' S'.1 ∧ stack_inv H' S'.1 S'.2 ∧
        length H' = length H ∧ s_cols S'.1 = s_cols A.
Proof.
  induction ps as [|p ps IH]; intros H A stk S' HI Hst E; simpl in E.
  - injection E as <-. exists H.
    split_and!; try assumption; [apply evt_ret|reflexivity|reflexivity].
  - destruct p as [[c|]|[c|]]; simpl in E; try discriminate.
    + destruct (decide (c ∈ s_live A)) as [Hc|]; [|discriminate]. simpl in E.
      pose proof (cover_Inv H A c HI Hc) as HI1.
      destruct (IH (cover_store H A c) (acover A c) ((c, A) :: stk) S' HI1) as
        (H' & Hev & HI' & Hst' & Hl & Hcols); [|assumption|].
      { simpl. exists H. tauto. }
      exists H'. split_and!; try assumption.
      * simpl. apply (evt_bind (λ n, cover n H (Some c)) (λ n H1, run_ops n H1 ps)
                        (cover_store H A c) H'); [|exact Hev].
        exact (cover_run HI c Hc).
      * rewrite Hl. apply length_cover_store.
      * rewrite Hcols. apply acover_static.
    + destruct stk as [|[c' A0] stk]; [discriminate|].
      destruct (decide (c = c')) as [<-|]; [|discriminate]. simpl in E.
      destruct Hst as (H0 & HI0 & Hc & -> & -> & Hst0).
      destruct (IH H0 A0 stk S' HI0 Hst0 E) as (H' & Hev & HI' & Hst' & Hl & Hcols).
      exists H'. split_and!; try assumption.
      * simpl. apply (evt_bind (λ n, uncover n (cover_store H0 A0 c) (Some c))
                        (λ n H1, run_ops n H1 ps) H0 H'); [|exact Hev].
        exact (uncover_run HI0 c Hc).
      * rewrite Hl. symmetry. apply length_cover_store.
      * rewrite Hcols. symmetry. apply acover_static.
Qed.

Lemma session_run (cs : list call) (ps : list op) (S' : astate) :
  well_formed cs → aops (shape_of cs, []) ps = Some S' →
  ∃ H', evt (λ n, session n cs ps) H' ∧ Inv H' S'.1 ∧ stack_inv H' S'.1 S'.2 ∧
        length H' = S (length cs) ∧ s_cols S'.1 = pushed_heads cs.
Proof.
  intros Hok E. destruct (build_ok cs Hok) as (Eb & HI & Hp & Hl).
  destruct (ops_run ps (store_of cs) (shape_of cs) [] S' HI Hp E)
    as (H' & Hev & HI' & Hst' & Hl' & Hcols).
  rewrite (pushed_heads_cols cs Hok) in Hcols.
  exists H'. split_and!; try assumption; [|lia].
  destruct Hev as [n0 Hn0]. exists n0. intros n Hn.
  unfold session. rewrite Eb. simpl. apply Hn0, Hn.
Qed.

(** The static part of the shape does not change. *)
Lemma stack_static (stk : list (nat * shape)) : ∀ H A,
  stack_inv H A stk →
  (∀ e, e ∈ s_cols A → e ∈ s_live A ∨ e ∈ stk.*1) ∧
  (stk = [] → pristine A).
Proof.
  induction stk as [|[c A0] stk IH]; intros H A Hst; simpl in *.
  - split; [|tauto]. destruct Hst as [<- _]. tauto.
  - split; [|discriminate].
    destruct Hst as (H0 & HI0 & Hc & -> & -> & Hst0).
    destruct (IH H0 A0 Hst0) as [Hcov _].
    destruct (acover_static A0 c) as (Ecols & Elive & _).
    intros e He. rewrite Ecols in He. rewrite Elive, elem_of_remove1, elem_of_cons.
    destruct (decide (e = c)); [tauto|]. destruct (Hcov e He); tauto.
Qed.

(** ** Observations on the store *)

Lemma down_raw (H : list Element) (A : shape) (c x : nat) (done rest : list nat) :
  SInv H A → c ∈ s_cols A → s_vr A c = done ++ rest → x = lastd c done →
  load H (Some x) Ldown = Some (Some (hd c rest)).
Proof.
  intros HS Hc E ->. pose proof (si_vring_nodup HS c Hc) as Hnd.
  assert (lastd c done ∈ c :: s_vr A c) as Hx.
  { destruct done as [|y done _] using rev_ind; [left|].
    rewrite lastd_snoc. right. rewrite E, <- app_assoc.
    apply elem_of_app. right. left. }
  destruct (si_vring_lt HS c _ Hc Hx) as [Hlt Hx0].
  destruct (si_vring _ _ HS c Hc _ Hx) as [Ed _].
  rewrite load_Some by assumption. rewrite Ed, E.
  rewrite cnext_lastd by (rewrite <- E; assumption). reflexivity.
Qed.

Lemma count_down_run (H : list Element) (A : shape) (c : nat) :
  SInv H A → c ∈ s_cols A →
  ∀ rest done x, s_vr A c = done ++ rest → x = lastd c done →
    evt (λ n, count_down n H c x) (length rest).
Proof.
  intros HS Hc. induction rest as [|y rest IH]; intros done x E Ex.
  - exists 1. intros [|n] Hn; [lia|]. simpl.
    rewrite (down_raw H A c x done [] HS Hc E Ex). simpl.
    rewrite decide_True by reflexivity. reflexivity.
  - destruct (IH (done ++ [y]) y) as [n0 Hn0].
    { rewrite <- app_assoc. exact E. }
    { rewrite lastd_snoc. reflexivity. }
    exists (S n0). intros [|n] Hn; [lia|]. simpl.
    rewrite (down_raw H A c x done (y :: rest) HS Hc E Ex). simpl.
    rewrite decide_False.
    + rewrite Hn0 by lia. reflexivity.
    + intros ->. pose proof (si_vring_nodup HS c Hc) as Hnd.
      apply NoDup_cons in Hnd as [Hnin _]. apply Hnin. rewrite E.
      apply elem_of_app. right. left.
Qed.

Lemma ring_size_run (H : list Element) (A : shape) (c : nat) :
  SInv H A → c ∈ s_cols A → evt (λ n, ring_size n H c) (length (s_vr A c)).
Proof.
  intros HS Hc. apply (count_down_run H A c HS Hc (s_vr A c) [] c); reflexivity.
Qed.

Lemma vr_from_empty (c : nat) (cs : list call) : ∀ A e,
  ¬ pushes_under c cs → s_vr A c = [] → s_vr (shape_from A e cs) c = [].
Proof.
  induction cs as [|a cs IH]; intros A e Hno Hv; simpl; [assumption|].
  apply IH.
  - intros Hex. apply Hno. right. assumption.
  - destruct a as [nm|row [ch|]]; simpl; [| |assumption].
    + destruct (decide (c = e)); [reflexivity|assumption].
    + rewrite decide_False; [assumption|]. intros ->. apply Hno. left. reflexivity.
Qed.

Lemma headers_run (H : list Element) (A : shape) os sols :
  SInv H A → evt (λ n, headers n (mkMatrix H os sols)) (s_live A).
Proof.
  intros HS.
  destruct (loop_rule (s_live A)
    (λ done (st : ptr * list nat), ∀ rest, s_live A = done ++ rest →
       st = (head rest, done))
    (λ s : ptr * list nat, negb (ptr_eqb (s.1) None))
    (λ (_ : nat) s, let '(ce, acc) := s in
          a ← ce;
          ce' ← Right H ce;
          Some (ce', acc ++ [a]))
    (head (s_live A), [])) as (st & [n0 Hl] & HJ).
  - intros rest E. simpl in E. subst rest. reflexivity.
  - intros st HJ. rewrite (HJ [] (eq_sym (app_nil_r _))). reflexivity.
  - intros done x rest st E HJ. rewrite (HJ _ E). simpl. split; [reflexivity|].
    assert (x ∈ s_live A) as Hx by (rewrite E; apply elem_of_app; right; left).
    pose proof (si_live _ _ HS x Hx) as Hxc.
    destruct (si_head _ _ HS x Hxc) as (Hm & _ & Hv).
    assert ((if negb (ptr_eqb (Some (hd 0 rest)) (Some 0))
             then Some (hd 0 rest) else None) = head rest) as Hptr.
    { destruct rest as [|y rest]; simpl.
      - reflexivity.
      - unfold ptr_eqb. rewrite bool_decide_eq_false_2; [reflexivity|].
        intros [= ->]. apply (si_col_ne0 HS 0); [|reflexivity].
        apply (si_live _ _ HS). rewrite E. apply elem_of_app. right. right. left. }
    exists (head rest, done ++ [x]). split.
    + exists 0. intros n _.
      unfold Right. rewrite neighbour_Some by apply (si_col_lt HS x Hxc).
      rewrite Hm. destruct (si_hring _ _ HS x) as [Er _]; [right; assumption|].
      rewrite Er.
      pose proof (cnext_mid (0 :: done) x rest) as E1. simpl in E1.
      rewrite <- E in E1. rewrite E1.
      2:{ pose proof (si_hring_nodup HS) as Hn. rewrite E in Hn.
          rewrite app_comm_cons in Hn. apply NoDup_app in Hn as (_ & Hd & _).
          intros Hin. eapply Hd; [eassumption|left]. }
      simpl. do 2 f_equal. exact Hptr.
    + intros rest' E2. rewrite <- app_assoc in E2. rewrite E in E2.
      apply app_inv_head in E2. injection E2 as <-. reflexivity.
  - exists n0. intros n Hn.
    transitivity (s ← Some st; Some (s.2)).
    { rewrite <- (Hl n n Hn Hn). unfold headers. rewrite (MHead_run HS). reflexivity. }
    simpl. rewrite (HJ [] (eq_sym (app_nil_r _))). reflexivity.
Qed.

(** A live column without items ends the search at once. *)
Lemma found_empty (H : list Element) (A : shape) (c : nat) :
  SInv H A → fits H → c ∈ s_live A → s_vr A c = [] → found A = [].
Proof.
  intros HS Hf Hc Hv.
  assert (s_live A ≠ []) as Hne by (intros E; rewrite E in Hc; inversion Hc).
  destruct (choose_live HS Hf Hne) as (l1 & c' & l2 & E & Ec & Hlt & Hle).
  assert (c' ∈ s_live A) as Hc' by (rewrite E; apply elem_of_app; right; left).
  destruct (asize_small HS c Hf (si_live _ _ HS c Hc)) as [Ea _].
  destruct (asize_small HS c' Hf (si_live _ _ HS c' Hc')) as [Ea' _].
  assert (asize A c' ≤ asize A c)%Z as Hmin.
  { rewrite E in Hc. apply elem_of_app in Hc as [Hc|Hc].
    - specialize (Hlt c Hc). lia.
    - apply elem_of_cons in Hc as [->|Hc]; [lia|]. apply Hle, Hc. }
  rewrite Ea, Ea', Hv in Hmin. simpl in Hmin.
  assert (s_vr A c' = []) as Hv' by (destruct (s_vr A c'); [reflexivity|simpl in Hmin; lia]).
  unfold found. destruct (length (s_live A)) as [|k] eqn:El.
  - destruct (s_live A); [congruence|discriminate].
  - rewrite (asearch_branch k A [] c' Hne Ec), Hv'. reflexivity.
Qed.

(** What the invariant says of the links of one element. *)
Lemma ring_round_trip (H : list Element) (fn fp : link) (L : list nat) (e : nat) :
  ring H fn fp L → NoDup L → (∀ x, x ∈ L → x < length H) → e ∈ L →
  round_trip fn fp H e ∧ round_trip fp fn H e.
Proof.
  intros Hr Hnd Hlt He.
  pose proof (cnext_in L e He) as Hn. pose proof (cprev_in L e He) as Hp.
  destruct (Hr e He) as [E1 E2].
  destruct (Hr _ Hn) as [_ E3]. destruct (Hr _ Hp) as [E4 _].
  split.
  - exists (cnext L e). rewrite !load_Some by auto.
    rewrite E1, E3, cprev_cnext by assumption. tauto.
  - exists (cprev L e). rewrite !load_Some by auto.
    rewrite E2, E4, cnext_cprev by assumption. tauto.
Qed.

(** ** Walking a ring *)

Lemma walk_ring (f : link) (H : list Element) (i : nat) (xs : list nat) :
  NoDup (i :: xs) →
  (∀ x, x ∈ i :: xs →
     x ≠ 0 ∧ x < length H ∧ mtx H x = true ∧ fld f H x = Some (cnext (i :: xs) x)) →
  evt (λ n, walk n (neighbour f) H (Some i)) (Some <$> xs).
Proof.
  intros Hnd Hall.
  assert (∀ done rest, xs = done ++ rest →
            neighbour f H (Some (lastd i done)) = Some (Some (hd i rest))) as Hnb.
  { intros done rest E.
    assert (lastd i done ∈ i :: xs) as Hx.
    { destruct done as [|y done _] using rev_ind; [left|].
      rewrite lastd_snoc. right. rewrite E, <- app_assoc.
      apply elem_of_app. right. left. }
    destruct (Hall _ Hx) as (_ & Hlt & Hm & Ef).
    rewrite neighbour_Some by assumption. rewrite Hm, Ef, E.
    rewrite cnext_lastd by (rewrite <- E; assumption).
    unfold ptr_eqb. rewrite bool_decide_eq_false_2; [reflexivity|].
    intros [= E0].
    assert (hd i rest ∈ i :: xs) as Hh.
    { destruct rest; simpl; [left|]. right. rewrite E. apply elem_of_app. right. left. }
    destruct (Hall _ Hh) as (Hne & _). congruence. }
  destruct (loop_rule xs
    (λ done (st : ptr * list ptr), ∀ rest, xs = done ++ rest →
       st = (Some (hd i rest), Some <$> done))
    (λ s : ptr * list ptr, negb (ptr_eqb (s.1) (Some i)))
    (λ (_ : nat) s, j' ← neighbour f H (s.1); Some (j', s.2 ++ [s.1]))
    (Some (hd i xs), [])) as (st & [n0 Hl] & HJ).
  - intros rest E. simpl in E. subst rest. reflexivity.
  - intros st HJ. rewrite (HJ [] (eq_sym (app_nil_r _))). simpl.
    unfold ptr_eqb. rewrite bool_decide_eq_true_2; reflexivity.
  - intros done x rest st E HJ. rewrite (HJ _ E). simpl. split.
    + unfold ptr_eqb. rewrite bool_decide_eq_false_2; [reflexivity|].
      intros [= ->]. apply NoDup_cons in Hnd as [Hn _]. apply Hn. rewrite E.
      apply elem_of_app. right. left.
    + exists (Some (hd i rest), Some <$> (done ++ [x])). split.
      * exists 0. intros n _.
        pose proof (Hnb (done ++ [x]) rest) as Hx. rewrite lastd_snoc in Hx.
        rewrite Hx by (rewrite <- app_assoc; exact E). simpl.
        rewrite fmap_app. reflexivity.
      * intros rest' E2. rewrite <- app_assoc in E2. rewrite E in E2.
        apply app_inv_head in E2. injection E2 as <-. reflexivity.
  - exists n0. intros n Hn.
    pose proof (Hnb [] xs eq_refl) as H0. unfold lastd in H0. simpl in H0.
    transitivity (snd <$> Some st).
    { rewrite <- (Hl n n Hn Hn). unfold walk. rewrite H0. reflexivity. }
    simpl. rewrite (HJ [] (eq_sym (app_nil_r _))). reflexivity.
Qed.

Lemma walk_ring_back (f : link) (H : list Element) (i : nat) (xs : list nat) :
  NoDup (i :: xs) →
  (∀ x, x ∈ i :: xs →
     x ≠ 0 ∧ x < length H ∧ mtx H x = true ∧ fld f H x = Some (cprev (i :: xs) x)) →
  evt (λ n, walk n (neighbour f) H (Some i)) (Some <$> rev xs).
Proof.
  intros Hnd Hall.
  assert (NoDup (i :: rev xs)) as Hnd'.
  { apply NoDup_cons in Hnd as [Hi Hx]. apply NoDup_cons.
    split; [rewrite elem_of_rev'; assumption|apply NoDup_rev'; assumption]. }
  apply walk_ring; [assumption|].
  intros x Hx.
  assert (x ∈ i :: xs) as Hx'.
  { apply elem_of_cons in Hx as [->|Hx]; [left|right].
    rewrite elem_of_rev' in Hx. assumption. }
  destruct (Hall x Hx') as (? & ? & ? & Ef). split_and!; try assumption.
  rewrite Ef. f_equal. unfold cprev. simpl.
  apply (cnext_rotate (rev xs) [i] x).
  - apply NoDup_app. split_and!; [apply NoDup_rev'; apply NoDup_cons in Hnd; tauto| |apply NoDup_singleton].
    intros y Hy Hy'. apply list_elem_of_singleton in Hy' as ->.
    rewrite elem_of_rev' in Hy. apply NoDup_cons in Hnd as [Hi _]. contradiction.
  - apply elem_of_app. apply elem_of_cons in Hx as [->|Hx]; [right; left|left; assumption].
Qed.

Lemma column_walk (H : list Element) (A : shape) (c : nat) :
  SInv H A → c ∈ s_cols A →
  evt (λ n, walk n Down H (Some c)) (Some <$> s_vr A c) ∧
  evt (λ n, walk n Up H (Some c)) (Some <$> rev (s_vr A c)).
Proof.
  intros HS Hc. pose proof (si_vring_nodup HS c Hc) as Hnd.
  assert (∀ x, x ∈ c :: s_vr A c → x ≠ 0 ∧ x < length H ∧ mtx H x = true) as Hall.
  { intros x Hx. destruct (si_vring_lt HS c x Hc Hx) as [Hlt H0].
    split_and!; try assumption.
    apply elem_of_cons in Hx as [->|Hx]; [apply (si_head _ _ HS c Hc)|].
    apply (si_item _ _ HS). apply (si_vr_item _ _ HS c x Hc Hx). }
  split.
  - apply walk_ring; [assumption|]. intros x Hx.
    destruct (Hall x Hx) as (? & ? & ?). split_and!; try assumption.
    apply (si_vring _ _ HS c Hc x Hx).
  - apply walk_ring_back; [assumption|]. intros x Hx.
    destruct (Hall x Hx) as (? & ? & ?). split_and!; try assumption.
    apply (si_vring _ _ HS c Hc x Hx).
Qed.

(** ** The branches of the search *)

(** One step down the search tree, on the store: the column [c] is
    covered, the row element [x] is met going down from [c], and the
    columns of the other items of its row are covered. *)
Lemma descend_run (H : list Element) (A : shape) (c x : nat) :
  Inv H A → c ∈ s_live A → x ∈ s_vr A c →
  ∃ H1 H2 rs,
    evt (λ n, cover n H (Some c)) H1 ∧
    evt (λ n, walk n Down H1 (Some c)) rs ∧ Some x ∈ rs ∧
    evt (λ n, cover_row n H1 (Some x)) H2 ∧
    Inv H2 (acover_row (acover A c) x) ∧ length H2 = length H ∧
    same_static (acover_row (acover A c) x) A ∧ x ∈ items A.
Proof.
  intros HI Hc Hxv.
  pose proof (proj1 HI) as HS.
  pose proof (cover_Inv H A c HI Hc) as HI1.
  pose proof (cover_run HI c Hc) as Hcov. fold (cover_store H A c) in Hcov.
  set (H1 := cover_store H A c) in *. set (A1 := acover A c) in *.
  pose proof (proj1 HI1) as HS1.
  destruct (acover_static A c) as (Ecols & Elive & Erows & Ecol & Ename).
  fold A1 in Ecols, Elive, Erows, Ecol, Ename.
  assert (c ∈ s_cols A) as Hcc by (apply (si_live _ _ HS), Hc).
  destruct (si_vr_item _ _ HS c x Hcc Hxv) as [Hxi Hxc].
  assert (items A1 = items A) as Eitems by apply acover_items.
  assert (x ∈ items A1) as Hxi1 by (rewrite Eitems; assumption).
  assert (mates A1 x = mates A x) as Emates by apply acover_mates.
  assert (∀ y, y ∈ mates A1 x → s_col A1 y ∈ s_live A1) as Hm1.
  { intros y Hy. rewrite Emates in Hy. rewrite Ecol, Elive.
    destruct (cl_mate HI c Hc x y Hxv Hy) as (_ & _ & Hne & Hl).
    apply elem_of_remove1. tauto. }
  pose proof (cover_row_run HI1 x Hxi1 Hm1) as Hrow.
  destruct (cols_state (row_cols A1 x) [] H1 A1 HI1)
    as (HI2 & _ & E1 & E2 & E3 & E4 & E5 & E6).
  { rewrite app_nil_r. apply (cr_nodup HI1 x Hxi1). }
  { intros c' Hc'. rewrite app_nil_r in Hc'. apply (cr_live x Hm1 c' Hc'). }
  rewrite snd_fold_cstep in HI2, E1, E2, E3, E4. fold (acover_row A1 x) in *.
  assert (c ∈ s_cols A1) as Hcc1 by (rewrite Ecols; assumption).
  destruct (column_walk H1 A1 c HS1 Hcc1) as [Hwalk _].
  assert (s_vr A1 c = s_vr A c) as Evr by apply (acover_vr_same H A c HS Hcc).
  rewrite Evr in Hwalk.
  exists H1, (fst (fold_left cstep (row_cols A1 x) (H1, A1))), (Some <$> s_vr A c).
  split_and!; try assumption.
  - apply list_elem_of_fmap. exists x. tauto.
  - rewrite E5. apply length_cover_store.
  - unfold same_static. rewrite E1, E2, E3, E4. tauto.
Qed.

(** Every solution the search on shapes records is the rendering of the
    rows entered along one branch of the search on the store. *)
Lemma asearch_enters (k : nat) : ∀ (H : list Element) (A : shape) (os0 : list nat),
  Inv H A → ∀ sol, sol ∈ asearch k A os0 →
    ∃ os H' A', enters H os H' ∧ SInv H' A' ∧ same_static A' A ∧ s_live A' = [] ∧
                Forall (λ r, r ∈ items A) os ∧ sol = render A (os0 ++ os).
Proof.
  induction k as [|k IH]; intros H A os0 HI sol Hsol; pose proof (proj1 HI) as HS.
  - simpl in Hsol. destruct (s_live A) eqn:El; [|inversion Hsol].
    apply list_elem_of_singleton in Hsol as ->. exists [], H, A.
    split_and!; [|exact HS| |exact El|constructor|].
    + apply enters_leaf. rewrite (MHead_run HS), El. reflexivity.
    + unfold same_static. tauto.
    + rewrite app_nil_r. reflexivity.
  - destruct (s_live A) as [|c0 l0] eqn:El.
    + rewrite asearch_leaf in Hsol by assumption.
      apply list_elem_of_singleton in Hsol as ->. exists [], H, A.
      split_and!; [|exact HS| |exact El|constructor|].
      * apply enters_leaf. rewrite (MHead_run HS), El. reflexivity.
      * unfold same_static. tauto.
      * rewrite app_nil_r. reflexivity.
    + destruct (choose A) as [c|] eqn:Ec.
      2:{ simpl in Hsol. rewrite El, Ec in Hsol. inversion Hsol. }
      rewrite (asearch_branch k A os0 c) in Hsol by (rewrite ?El; congruence).
      apply elem_of_concat in Hsol as (l & Hl & Hsol).
      apply list_elem_of_fmap in Hl as (x & -> & Hx).
      pose proof (choose_in A c Ec) as Hc.
      destruct (descend_run H A c x HI Hc Hx)
        as (H1 & H2 & rs & Hcov & Hwalk & Hxrs & Hrow & HI2 & _ & Hst & Hxi).
      destruct (static_ext _ _ Hst) as (Ei & Er & _).
      destruct (IH H2 _ (os0 ++ [x]) HI2 sol Hsol)
        as (os & H' & A' & Hen & HS' & Hst' & El' & Hos & ->).
      exists (x :: os), H', A'. split_and!.
      * eapply enters_row; try eassumption.
        rewrite <- Ec. apply (getColumn_run HS).
      * assumption.
      * destruct Hst as (? & ? & ? & ?), Hst' as (? & ? & ? & ?).
        unfold same_static. split_and!; congruence.
      * assumption.
      * constructor; [assumption|]. rewrite <- Ei. assumption.
      * rewrite Er, <- app_assoc. reflexivity.
Qed.

(** ** The instances are well formed *)

Ltac by_compute :=
  match goal with |- ?P => apply (bool_decide_unpack P) end; vm_compute; exact I.

Lemma knuth_ok : well_formed knuth ∧ small knuth.
Proof. split; [by_compute|]. unfold small. vm_compute. reflexivity. Qed.

Lemma lonely_ok : well_formed lonely ∧ small lonely.
Proof. split; [by_compute|]. unfold small. vm_compute. reflexivity. Qed.

(** ** The words of a string *)

Lemma append_assoc' (a b c : string) : (a +:+ b) +:+ c = a +:+ (b +:+ c).
Proof.
  induction a as [|x a IH]; [reflexivity|].
  change (String x ((a +:+ b) +:+ c) = String x (a +:+ (b +:+ c))).
  f_equal. exact IH.
Qed.

Lemma fields_word (n : string) : no_space n = true → fields n = [n].
Proof.
  induction n as [|a n IH]; simpl; [reflexivity|].
  intros Hn. apply andb_true_iff in Hn as [Ha Hn].
  apply negb_true_iff in Ha. rewrite Ha, (IH Hn). reflexivity.
Qed.

Lemma fields_app (n rest : string) :
  no_space n = true → fields (n +:+ (" " +:+ rest)) = n :: fields rest.
Proof.
  induction n as [|a n IH]; simpl; [reflexivity|].
  intros Hn. apply andb_true_iff in Hn as [Ha Hn].
  apply negb_true_iff in Ha. rewrite Ha, (IH Hn). reflexivity.
Qed.

Lemma join_fold (ns : list string) : ∀ a b,
  fold_left (λ acc y, acc +:+ (" " +:+ y)) ns (a +:+ b) =
    a +:+ fold_left (λ acc y, acc +:+ (" " +:+ y)) ns b.
Proof.
  induction ns as [|y ns IH]; intros a b; simpl; [reflexivity|].
  rewrite append_assoc'. apply IH.
Qed.

Lemma join_cons (n m : string) (ns : list string) :
  join (n :: m :: ns) = n +:+ (" " +:+ join (m :: ns)).
Proof.
  unfold join. simpl. rewrite join_fold. f_equal.
  change (" " +:+ m) with (String " " EmptyString +:+ m). rewrite join_fold. reflexivity.
Qed.

Lemma fields_join (ns : list string) :
  ns ≠ [] → Forall (λ n, no_space n = true) ns → fields (join ns) = ns.
Proof.
  induction ns as [|n ns IH]; intros Hne Hall; [congruence|].
  apply Forall_cons in Hall as [Hn Hall].
  destruct ns as [|m ns].
  - simpl. apply fields_word, Hn.
  - rewrite join_cons, (fields_app _ _ Hn), IH; [reflexivity|discriminate|assumption].
Qed.

Lemma concat_fields_join (rows : list (list string)) :
  Forall (λ ns, ns ≠ [] ∧ Forall (λ n, no_space n = true) ns) rows →
  concat (fields <$> (join <$> rows)) = concat rows.
Proof.
  induction rows as [|ns rows IH]; intros Hall; [reflexivity|].
  apply Forall_cons in Hall as [[Hne Hns] Hall].
  rewrite !fmap_cons. simpl. rewrite (fields_join ns Hne Hns), (IH Hall). reflexivity.
Qed.

(** * Properties of the package *)

(** C1, as the code has it.  For the matrix freshly built by a
    well-formed script (each item pushed under a header of the matrix,
    chained to an item of the matrix or starting a row, no row with two
    items in one column), every solution the first [Solve] returns
    partitions the columns: its strings are the space-separated joins of
    lists of names which, put together, are the pushed names, each as
    often as it was pushed.  When no name has a space, these lists are
    the fields of the strings: the names read off the strings of the
    solution are the pushed names, each once. *)
Theorem Solve_partitions_columns (cs : list call) :
  well_formed cs → small cs →
  ∃ n0, ∀ n, n0 ≤ n → ∃ m sols,
    (m0 ← build cs; Solve n m0) = Some (m, sols) ∧
    ∀ sol, sol ∈ sols →
      (∃ rows : list (list string),
         sol = join <$> rows ∧ concat rows ≡ₚ pushed_names cs) ∧
      (Forall (λ nm, no_space nm = true) (pushed_names cs) →
         concat (fields <$> sol) ≡ₚ pushed_names cs).
Proof.
  intros Hok Hs. destruct (build_Solve cs Hok Hs) as [n0 Hn0].
  destruct (build_ok cs Hok) as (_ & HI & Hp & _).
  pose proof (proj1 HI) as HS.
  exists n0. intros n Hn. eexists _, _. split; [apply Hn0, Hn|].
  intros sol Hsol.
  destruct (found_sound _ _ sol HI Hp Hsol) as (os & -> & Hos & Hperm).
  assert (concat (row_names (shape_of cs) <$> os) ≡ₚ pushed_names cs) as Hnames.
  { rewrite concat_row_names, Hperm. rewrite names_of. reflexivity. }
  split.
  - exists (row_names (shape_of cs) <$> os). split; [apply render_rows|exact Hnames].
  - intros Hsp. rewrite render_rows, concat_fields_join; [exact Hnames|].
    apply Forall_fmap. eapply Forall_impl; [exact Hos|].
    intros r Hr. simpl. split; [discriminate|].
    unfold row_names. apply Forall_fmap. apply Forall_forall. intros y Hy. simpl.
    assert (y ∈ items (shape_of cs)) as Hyi.
    { apply elem_of_cons in Hy as [->|Hy]; [exact Hr|].
      apply (mates_item HS r y Hr Hy). }
    destruct (si_item _ _ HS y Hyi) as (_ & _ & _ & Hc).
    rewrite Forall_forall in Hsp. apply Hsp. rewrite <- names_of.
    apply list_elem_of_fmap. eexists. split; [reflexivity|exact Hc].
Qed.

Lemma Solve_partitions_columns_knuth :
  well_formed knuth ∧ small knuth ∧
  ∃ n0, ∀ n, n0 ≤ n → ∃ m sols,
    (m0 ← build knuth; Solve n m0) = Some (m, sols) ∧
    ∀ sol, sol ∈ sols →
      (∃ rows : list (list string),
         sol = join <$> rows ∧ concat rows ≡ₚ pushed_names knuth) ∧
      (Forall (λ nm, no_space nm = true) (pushed_names knuth) →
         concat (fields <$> sol) ≡ₚ pushed_names knuth).
Proof.
  split; [by_compute|]. split; [unfold small; vm_compute; reflexivity|].
  apply (Solve_partitions_columns knuth); [by_compute|].
  unfold small; vm_compute; reflexivity.
Defined.

(** C1, counterexample.  In [twin] the only row has two items in the
    column [A]: [Solve] returns solutions whose only string is [A A],
    where the name [A] occurs twice.  And [Solve] never clears the
    solutions of earlier calls: after [PushHead "A"], [PushItem], [Solve],
    [PushHead "B"], [PushItem], the next [Solve] returns the old solution
    [A] too, in which [B] does not occur. *)
Lemma doubled_row_not_partition :
  pushed_names twin = ["A"] ∧
  (m0 ← build twin; snd <$> Solve 10 m0) = Some [["A A"]; ["A A"]] ∧
  concat (fields <$> ["A A"]) = ["A"; "A"] ∧
  ¬ concat (fields <$> ["A A"]) ≡ₚ pushed_names twin ∧
  (m ← New;
   m ← run_apis 10 m [APushHead "A"; APushItem None (Some 1); ASolve;
                      APushHead "B"; APushItem None (Some 3)];
   snd <$> Solve 10 m) = Some [["A"]; ["A"; "B"]].
Proof.
  split_and!; try (vm_compute; reflexivity).
  intros Hp. apply Permutation_length in Hp. vm_compute in Hp. discriminate.
Qed.

(** C2.  On a well-formed matrix, [uncover c] right after [cover c] of a
    live column [c] gives back the store [cover c] started from: every
    link and every size is as before. *)
Theorem uncover_after_cover (H : list Element) (A : shape) (c : nat) :
  Inv H A → c ∈ s_live A →
  ∃ n0, ∀ n, n0 ≤ n →
    ∃ H1, cover n H (Some c) = Some H1 ∧ uncover n H1 (Some c) = Some H.
Proof.
  intros HI Hc.
  destruct (cover_run HI c Hc) as [n1 Hn1]. destruct (uncover_run HI c Hc) as [n2 Hn2].
  exists (n1 `max` n2). intros n Hn. eexists. split; [apply Hn1; lia|apply Hn2; lia].
Qed.

Lemma uncover_after_cover_knuth :
  Inv (store_of knuth) (shape_of knuth) ∧ 4 ∈ s_live (shape_of knuth) ∧
  ∃ n0, ∀ n, n0 ≤ n →
    ∃ H1, cover n (store_of knuth) (Some 4) = Some H1 ∧
          uncover n H1 (Some 4) = Some (store_of knuth).
Proof.
  assert (well_formed knuth) as Hok by by_compute.
  assert (4 ∈ s_live (shape_of knuth)) as Hc by by_compute.
  split; [apply (build_ok knuth Hok)|]. split; [exact Hc|].
  apply (uncover_after_cover (store_of knuth) (shape_of knuth) 4);
    [apply (build_ok knuth Hok)|exact Hc].
Defined.

(** C3, as the code has it.  On the matrix freshly built by a
    well-formed script, a second [Solve] returns the same set of
    solutions as the first.  [Solve] appends to the solutions recorded so
    far and never clears them: the second call returns the solutions of
    the first call twice over, so the two results have the same members
    (and are equal as sequences only when there is no solution). *)
Theorem second_Solve_repeats (cs : list call) :
  well_formed cs → small cs →
  ∃ n0, ∀ n, n0 ≤ n → ∃ m1 s1 m2 s2,
    (m0 ← build cs; Solve n m0) = Some (m1, s1) ∧
    Solve n m1 = Some (m2, s2) ∧
    s2 = s1 ++ s1 ∧ (∀ sol, sol ∈ s2 ↔ sol ∈ s1).
Proof.
  intros Hok Hs. destruct (build_Solve cs Hok Hs) as [n1 Hn1].
  destruct (build_ok cs Hok) as (_ & HI & _ & _).
  destruct (Solve_run (store_of cs) (shape_of cs) (found (shape_of cs)) HI
              (small_fits cs Hok Hs)) as [n2 Hn2].
  exists (n1 `max` n2). intros n Hn. eexists _, _, _, _.
  split; [apply Hn1; lia|]. split; [apply Hn2; lia|]. split; [reflexivity|].
  intros sol. rewrite elem_of_app. tauto.
Qed.

Lemma second_Solve_repeats_knuth :
  well_formed knuth ∧ small knuth ∧
  ∃ n0, ∀ n, n0 ≤ n → ∃ m1 s1 m2 s2,
    (m0 ← build knuth; Solve n m0) = Some (m1, s1) ∧
    Solve n m1 = Some (m2, s2) ∧
    s2 = s1 ++ s1 ∧ (∀ sol, sol ∈ s2 ↔ sol ∈ s1).
Proof.
  split; [by_compute|]. split; [unfold small; vm_compute; reflexivity|].
  apply (second_Solve_repeats knuth); [by_compute|].
  unfold small; vm_compute; reflexivity.
Defined.

(** C3, counterexample.  In [tangle] both rows have two items in one
    column.  The first [Solve] does not give the sizes of the columns
    back as it found them, the second one chooses another column, and it
    returns a solution made of two strings that is not among the
    solutions of the first call, each made of one string. *)
Lemma second_Solve_differs :
  ∃ s1 s2 : list (list string),
    (m0 ← build tangle; r1 ← Solve 40 m0; r2 ← Solve 40 (r1.1); Some (r1.2, r2.2)) =
      Some (s1, s2) ∧
    s1 = [["B A B"]; ["B B A"]] ∧
    s2 = [["B A B"]; ["B B A"]; ["A B B"; "A A"]; ["A B B"; "A A"]] ∧
    ["A B B"; "A A"] ∈ s2 ∧ ["A B B"; "A A"] ∉ s1.
Proof.
  eexists _, _. split; [vm_compute; reflexivity|].
  split; [reflexivity|]. split; [reflexivity|]. split.
  - do 2 right. left.
  - intros Hin. repeat (apply elem_of_cons in Hin as [Hin|Hin]; [discriminate|]).
    inversion Hin.
Qed.

(** C4, as the code has it.  [Solve] leaves the matrix of a well-formed
    script (no row with two items in one column) as it found it: the
    store (every link, every size) and the list of chosen rows are those
    before the call. *)
Theorem Solve_restores (cs : list call) :
  well_formed cs → small cs →
  ∃ n0, ∀ n, n0 ≤ n → ∃ m0 m sols,
    build cs = Some m0 ∧ Solve n m0 = Some (m, sols) ∧
    store m = store m0 ∧ o m = o m0.
Proof.
  intros Hok Hs. destruct (build_ok cs Hok) as (Eb & HI & _ & _).
  destruct (Solve_run (store_of cs) (shape_of cs) [] HI (small_fits cs Hok Hs))
    as [n0 Hn0].
  exists n0. intros n Hn. eexists _, _, _. split; [exact Eb|].
  split; [apply Hn0, Hn|]. split; reflexivity.
Qed.

Lemma Solve_restores_knuth :
  well_formed knuth ∧ small knuth ∧
  ∃ n0, ∀ n, n0 ≤ n → ∃ m0 m sols,
    build knuth = Some m0 ∧ Solve n m0 = Some (m, sols) ∧
    store m = store m0 ∧ o m = o m0.
Proof.
  split; [by_compute|]. split; [unfold small; vm_compute; reflexivity|].
  apply (Solve_restores knuth); [by_compute|].
  unfold small; vm_compute; reflexivity.
Defined.

(** C4, counterexample.  In [twin] the only row has two items in the
    column [A].  The size of [A] is 2 before [Solve] and 3 after it: the
    store is not the one [Solve] started from. *)
Lemma Solve_changes_size :
  ∃ m0 m sols, build twin = Some m0 ∧ Solve 10 m0 = Some (m, sols) ∧
    size_of (store m0) 1 = 2%Z ∧ size_of (store m) 1 = 3%Z ∧
    store m ≠ store m0.
Proof.
  eexists _, _, _. split; [vm_compute; reflexivity|].
  split; [vm_compute; reflexivity|].
  split; [reflexivity|]. split; [reflexivity|].
  intros E. apply (f_equal (λ H, size_of H 1)) in E. vm_compute in E. discriminate.
Qed.



(** C6, as the code has it.  A solution has one string per chosen row.
    The string of a row is the space-separated join of the names of the
    columns of its items, in ring order from the item [m.o] keeps for the
    row, the item through which [search] entered the row: an item of the
    column [getColumn] chose at that depth.  It is a rotation of the row,
    which starts with the first column of the row only when that item is
    the first of the row.

    For the matrix freshly built by a well-formed script, every solution
    [sol] that [Solve] returns comes from a branch [os] of the search
    ([enters]): the call of [search] at the leaf of the branch, where
    [m.o] is [os], appends [sol], and the string of [sol] for the element
    [r] of [os] is the join of the names of the columns of [r] and of the
    other items of its row, in ring order from [r]. *)
Theorem solution_strings_from_chosen_item (cs : list call) :
  well_formed cs → small cs →
  ∃ m0, build cs = Some m0 ∧
  ∃ n0, ∀ n, n0 ≤ n → ∃ m sols,
    Solve n m0 = Some (m, sols) ∧
    ∀ sol, sol ∈ sols →
      ∃ (os : list nat) (H' : list Element),
        enters (store m0) os H' ∧
        (∀ s0, evt (λ n, search n (mkMatrix H' (Some <$> os) s0) (length os))
                   (mkMatrix H' (Some <$> os) (s0 ++ [sol]))) ∧
        sol = (λ r, join (col_name (shape_of cs) <$>
                            (r :: others (row_of (shape_of cs) r) r))) <$> os ∧
        Forall (λ r, row_of (shape_of cs) r ∈ s_rows (shape_of cs) ∧
                     r ∈ row_of (shape_of cs) r) os.
Proof.
  intros Hok Hs. destruct (build_ok cs Hok) as (Eb & HI & Hp & _).
  destruct (Solve_run (store_of cs) (shape_of cs) [] HI (small_fits cs Hok Hs)) as [n0 Hn0].
  eexists. split; [exact Eb|].
  exists n0. intros n Hn. eexists _, _. split; [apply Hn0, Hn|].
  intros sol Hsol. simpl in Hsol.
  destruct (asearch_enters _ _ _ [] HI sol Hsol)
    as (os & H' & A' & Hen & HS' & Hst' & El' & Hos & ->).
  destruct (static_ext _ _ Hst') as (Ei & Er & _).
  exists os, H'. split_and!.
  - exact Hen.
  - intros s0. simpl. rewrite <- Er. apply (search_leaf H' A' os HS' El').
    rewrite Ei. exact Hos.
  - simpl. rewrite render_rows, <- list_fmap_compose. reflexivity.
  - eapply Forall_impl; [exact Hos|]. intros r Hr. simpl in Hr.
    apply (row_of_in _ r Hr).
Qed.

Lemma solution_strings_from_chosen_item_knuth :
  well_formed knuth ∧ small knuth ∧
  ∃ m0, build knuth = Some m0 ∧
  ∃ n0, ∀ n, n0 ≤ n → ∃ m sols,
    Solve n m0 = Some (m, sols) ∧
    ∀ sol, sol ∈ sols →
      ∃ (os : list nat) (H' : list Element),
        enters (store m0) os H' ∧
        (∀ s0, evt (λ n, search n (mkMatrix H' (Some <$> os) s0) (length os))
                   (mkMatrix H' (Some <$> os) (s0 ++ [sol]))) ∧
        sol = (λ r, join (col_name (shape_of knuth) <$>
                            (r :: others (row_of (shape_of knuth) r) r))) <$> os ∧
        Forall (λ r, row_of (shape_of knuth) r ∈ s_rows (shape_of knuth) ∧
                     r ∈ row_of (shape_of knuth) r) os.
Proof.
  split; [by_compute|]. split; [unfold small; vm_compute; reflexivity|].
  apply (solution_strings_from_chosen_item knuth); [by_compute|].
  unfold small; vm_compute; reflexivity.
Defined.

(** C6, counterexample.  The row of Knuth's matrix pushed under [C], then
    [E], then [F] is chosen through its item in column [E]; its string is
    [E F C], which does not start with the first column of the row. *)
Lemma row_string_not_from_first_column :
  [8; 9; 10] ∈ s_rows (shape_of knuth) ∧
  col_name (shape_of knuth) <$> [8; 9; 10] = ["C"; "E"; "F"] ∧
  (m0 ← build knuth; snd <$> Solve 40 m0) = Some [["A D"; "E F C"; "B G"]].
Proof.
  split; [by_compute|]. split; vm_compute; reflexivity.
Qed.

(** C7, as the code has it.  After a well-formed script (no row with
    two items in one column), and after any sequence of [cover] of a live
    column and [uncover] of the column covered last, the size of every
    header is the number of items met going round its vertical ring. *)
Theorem size_counts_ring (cs : list call) (ps : list op) (S' : astate) :
  well_formed cs → small cs → aops (shape_of cs, []) ps = Some S' →
  ∃ H', (∃ n0, ∀ n, n0 ≤ n → session n cs ps = Some H') ∧
    ∀ c, c ∈ pushed_heads cs →
      ∃ k, (∃ n0, ∀ n, n0 ≤ n → ring_size n H' c = Some k) ∧
           size_of H' c = Z.of_nat k.
Proof.
  intros Hok Hs E.
  destruct (session_run cs ps S' Hok E) as (H' & Hev & [HS _] & _ & Hl & Hcols).
  exists H'. split; [exact Hev|]. intros c Hc. rewrite <- Hcols in Hc.
  exists (length (s_vr S'.1 c)). split; [apply (ring_size_run H' _ c HS Hc)|].
  rewrite (size_of_col HS c Hc).
  apply (asize_small HS c); [|exact Hc]. unfold fits. rewrite Hl. exact Hs.
Qed.

Lemma size_counts_ring_knuth :
  well_formed knuth ∧ small knuth ∧
  ∃ S', aops (shape_of knuth, []) [OCover (Some 1); OCover (Some 4); OUncover (Some 4)]
          = Some S' ∧
  ∃ H', (∃ n0, ∀ n, n0 ≤ n →
           session n knuth [OCover (Some 1); OCover (Some 4); OUncover (Some 4)]
             = Some H') ∧
    ∀ c, c ∈ pushed_heads knuth →
      ∃ k, (∃ n0, ∀ n, n0 ≤ n → ring_size n H' c = Some k) ∧
           size_of H' c = Z.of_nat k.
Proof.
  split; [by_compute|]. split; [unfold small; vm_compute; reflexivity|].
  eexists. split; [lazy; reflexivity|].
  eapply (size_counts_ring knuth); [by_compute| |lazy; reflexivity].
  unfold small; vm_compute; reflexivity.
Defined.

(** C7, counterexample.  In [duo], [cover] of the column [A] twice in
    a row takes the size of [B] from 1 to 0 and then to [2^64 - 1], while
    the vertical ring of [B] is empty.  In [twin], whose row has two items
    in [A], the covers and uncovers [search] itself makes leave [A] with
    the size 3 and a vertical ring of 2 items. *)
Lemma size_differs_from_ring :
  (∃ H, session 10 duo [OCover (Some 1); OCover (Some 1)] = Some H ∧
        size_of H 2 = uint64_max ∧ ring_size 10 H 2 = Some 0) ∧
  (∃ H, session 10 twin [OCover (Some 1); OCover (Some 1); OUncover (Some 1);
                         OCover (Some 1); OUncover (Some 1); OUncover (Some 1)]
          = Some H ∧
        size_of H 1 = 3%Z ∧ ring_size 10 H 1 = Some 2).
Proof.
  split; eexists; (split; [vm_compute; reflexivity|]); split; reflexivity.
Qed.

Lemma links_symmetric (H : list Element) (A : shape) (e : nat) :
  SInv H A → e < length H →
  (e ∉ s_cols A ∨ e ∈ s_live A →
     round_trip Lright Lleft H e ∧ round_trip Lleft Lright H e) ∧
  (¬ unlinked A e → round_trip Lup Ldown H e ∧ round_trip Ldown Lup H e).
Proof.
  intros HS He. apply (si_addr _ _ HS) in He.
  apply elem_of_cons in He as [->|He]; [|apply elem_of_app in He as [He|He]].
  - split.
    + intros _. apply (ring_round_trip H Lright Lleft (0 :: s_live A) 0).
      * apply (si_hring _ _ HS).
      * apply (si_hring_nodup HS).
      * intros x Hx. apply elem_of_cons in Hx as [->|Hx]; [apply (si_len HS)|].
        apply (si_col_lt HS), (si_live _ _ HS), Hx.
      * left.
    + intros _. destruct (si_sent_v _ _ HS) as [Eu Ed].
      pose proof (si_len HS) as Hl.
      split; exists 0; rewrite !load_Some by assumption; rewrite Eu, Ed; tauto.
  - split.
    + intros [Hn|Hl]; [contradiction|].
      apply (ring_round_trip H Lright Lleft (0 :: s_live A) e).
      * apply (si_hring _ _ HS).
      * apply (si_hring_nodup HS).
      * intros x Hx. apply elem_of_cons in Hx as [->|Hx]; [apply (si_len HS)|].
        apply (si_col_lt HS), (si_live _ _ HS), Hx.
      * right. exact Hl.
    + intros _. destruct (ring_round_trip H Ldown Lup (e :: s_vr A e) e) as [E1 E2].
      * apply (si_vring _ _ HS e He).
      * apply (si_vring_nodup HS e He).
      * intros x Hx. apply (si_vring_lt HS e x He Hx).
      * left.
      * tauto.
  - destruct (row_of_in A e He) as [HR HeR].
    destruct (si_row _ _ HS _ HR) as (_ & Hring & _).
    split.
    + intros _. apply (ring_round_trip H Lright Lleft (row_of A e) e).
      * exact Hring.
      * apply (si_row_nodup HS _ HR).
      * intros x Hx. apply (si_item_lt HS). eapply si_row_item; eassumption.
      * exact HeR.
    + intros Hnu.
      destruct (decide (e ∈ s_vr A (s_col A e))) as [Hin|Hnin].
      2:{ exfalso. apply Hnu. split; assumption. }
      destruct (si_item _ _ HS e He) as (_ & _ & _ & Hc).
      destruct (ring_round_trip H Ldown Lup (s_col A e :: s_vr A (s_col A e)) e)
        as [E1 E2].
      * apply (si_vring _ _ HS _ Hc).
      * apply (si_vring_nodup HS _ Hc).
      * intros x Hx. apply (si_vring_lt HS _ x Hc Hx).
      * right. exact Hin.
      * tauto.
Qed.

(** C8, as the code has it.  [cover] takes a header out of the header
    ring, and items out of their vertical rings, leaving their own links
    as they were: until the matching [uncover], the neighbours of such an
    element do not point back to it.  After a well-formed script and any
    sequence of [cover] of a live column and [uncover] of the column
    covered last, [e.right.left == e] and [e.left.right == e] hold for
    every element but the headers still covered, [e.up.down == e] and
    [e.down.up == e] for every element but the items still unlinked; all
    four hold for every element once every cover is undone. *)
Theorem ring_symmetry_of_linked (cs : list call) (ps : list op)
    (A : shape) (stk : list (nat * shape)) :
  well_formed cs → aops (shape_of cs, []) ps = Some (A, stk) →
  ∃ H', (∃ n0, ∀ n, n0 ≤ n → session n cs ps = Some H') ∧
    ∀ e, e < length H' →
      (e ∉ stk.*1 → round_trip Lright Lleft H' e ∧ round_trip Lleft Lright H' e) ∧
      (¬ unlinked A e → round_trip Lup Ldown H' e ∧ round_trip Ldown Lup H' e) ∧
      (stk = [] →
         round_trip Lright Lleft H' e ∧ round_trip Lleft Lright H' e ∧
         round_trip Lup Ldown H' e ∧ round_trip Ldown Lup H' e).
Proof.
  intros Hok E.
  destruct (session_run cs ps (A, stk) Hok E) as (H' & Hev & [HS _] & Hst & _ & _).
  simpl in HS, Hst. destruct (stack_static stk H' A Hst) as [Hcov Hpr].
  exists H'. split; [exact Hev|]. intros e He.
  destruct (links_symmetric H' A e HS He) as [Hh Hv].
  assert (e ∉ stk.*1 → e ∉ s_cols A ∨ e ∈ s_live A) as Hlive.
  { intros Hn. destruct (decide (e ∈ s_cols A)) as [Hc|]; [|tauto].
    destruct (Hcov e Hc); [tauto|contradiction]. }
  split_and!.
  - intros Hn. apply Hh, Hlive, Hn.
  - exact Hv.
  - intros ->. destruct (Hpr eq_refl) as [_ Hall].
    assert (¬ unlinked A e) as Hnu by (intros [Hi Hn]; apply Hn, Hall, Hi).
    destruct (Hh (Hlive (not_elem_of_nil e))). destruct (Hv Hnu). tauto.
Qed.

Lemma ring_symmetry_of_linked_knuth :
  well_formed knuth ∧
  ∃ A stk, aops (shape_of knuth, []) [OCover (Some 1); OCover (Some 4)]
             = Some (A, stk) ∧
  ∃ H', (∃ n0, ∀ n, n0 ≤ n →
           session n knuth [OCover (Some 1); OCover (Some 4)] = Some H') ∧
    ∀ e, e < length H' →
      (e ∉ stk.*1 → round_trip Lright Lleft H' e ∧ round_trip Lleft Lright H' e) ∧
      (¬ unlinked A e → round_trip Lup Ldown H' e ∧ round_trip Ldown Lup H' e) ∧
      (stk = [] →
         round_trip Lright Lleft H' e ∧ round_trip Lleft Lright H' e ∧
         round_trip Lup Ldown H' e ∧ round_trip Ldown Lup H' e).
Proof.
  split; [by_compute|].
  eexists _, _. split; [lazy; reflexivity|].
  eapply (ring_symmetry_of_linked knuth); [by_compute|lazy; reflexivity].
Defined.

(** C8, counterexample.  One column [A] is pushed and covered: its right
    neighbour is the sentinel, whose left neighbour is no longer [A]. *)
Lemma covered_header_not_symmetric :
  ∃ H', session 5 [CPushHead "A"] [OCover (Some 1)] = Some H' ∧
        load H' (Some 1) Lright = Some (Some 0) ∧
        load H' (Some 0) Lleft = Some (Some 0) ∧
        ¬ round_trip Lright Lleft H' 1.
Proof.
  eexists. split; [vm_compute; reflexivity|].
  split; [reflexivity|]. split; [reflexivity|].
  intros (y & E1 & E2). vm_compute in E1. injection E1 as <-.
  vm_compute in E2. discriminate.
Qed.

(** C9, as the code has it.  When a well-formed script pushes no item
    under one of its headers, the first [Solve] on the matrix it builds
    returns, and returns no solution. *)
Theorem Solve_empty_column (cs : list call) (c : nat) :
  well_formed cs → small cs → c ∈ pushed_heads cs → ¬ pushes_under c cs →
  ∃ n0, ∀ n, n0 ≤ n → ∃ m, (m0 ← build cs; Solve n m0) = Some (m, []).
Proof.
  intros Hok Hs Hc Hno. destruct (build_Solve cs Hok Hs) as [n0 Hn0].
  destruct (build_ok cs Hok) as (_ & [HS _] & [El _] & _).
  rewrite <- (pushed_heads_cols cs Hok), <- El in Hc.
  assert (found (shape_of cs) = []) as Ef.
  { apply (found_empty (store_of cs) (shape_of cs) c HS (small_fits cs Hok Hs) Hc).
    apply vr_from_empty; [exact Hno|reflexivity]. }
  rewrite Ef in Hn0. exists n0. intros n Hn. eexists. apply Hn0, Hn.
Qed.

Lemma Solve_empty_column_lonely :
  well_formed lonely ∧ small lonely ∧ 2 ∈ pushed_heads lonely ∧
  ¬ pushes_under 2 lonely ∧
  ∃ n0, ∀ n, n0 ≤ n → ∃ m, (m0 ← build lonely; Solve n m0) = Some (m, []).
Proof.
  split; [by_compute|]. split; [unfold small; vm_compute; reflexivity|].
  split; [by_compute|]. split; [by_compute|].
  apply (Solve_empty_column lonely 2); [by_compute| |by_compute|by_compute].
  unfold small; vm_compute; reflexivity.
Defined.

(** C9, counterexample.  [Solve] never clears the solutions of earlier
    calls.  After [PushHead "A"], [PushItem], [Solve], [PushHead "B"], the
    column [B] has no item and [Solve] returns the solution [A] recorded
    before; after [Solve], [PushHead "A"] on a new matrix, the column [A]
    has no item and [Solve] returns the empty solution recorded before. *)
Lemma Solve_keeps_old_solutions :
  (m ← New;
   m ← run_apis 10 m [APushHead "A"; APushItem None (Some 1); ASolve; APushHead "B"];
   snd <$> Solve 10 m) = Some [["A"]] ∧
  (m ← New; m ← run_apis 10 m [ASolve; APushHead "A"]; snd <$> Solve 10 m)
    = Some [[]].
Proof. split; vm_compute; reflexivity. Qed.

(** C10, as the code has it.  [lazyInit] runs [Init] in the first
    [PushHead] on a zero-value matrix, and [Init] clears the solutions: a
    [Solve] before that [PushHead] is forgotten on the zero value and kept
    after [New].  A sequence of calls that starts with [PushHead] gives
    the same matrix, solutions included, from the zero value and from
    [New]: the first [PushHead] succeeds on both and leaves the same
    matrix [m1], from which both go on. *)
Theorem zero_value_from_PushHead (n : nat) (nm : string) (l : list api) :
  ∃ m1,
    run_apis n zeroMatrix [APushHead nm] = Some m1 ∧
    (m ← New; run_apis n m [APushHead nm]) = Some m1 ∧
    run_apis n zeroMatrix (APushHead nm :: l) = run_apis n m1 l ∧
    (m ← New; run_apis n m (APushHead nm :: l)) = run_apis n m1 l.
Proof.
  eexists. split_and!; reflexivity.
Qed.

(** C10, counterexample.  [Solve], [PushHead "A"], [Solve]: the zero value
    ends with no solution, the matrix of [New] with the empty solution
    recorded by the first [Solve]. *)
Lemma zero_value_forgets_solutions :
  solutions <$> run_apis 5 zeroMatrix [ASolve; APushHead "A"; ASolve] = Some [] ∧
  (m ← New; solutions <$> run_apis 5 m [ASolve; APushHead "A"; ASolve]) = Some [[]].
Proof. split; vm_compute; reflexivity. Qed.

(** * Further properties of the package *)

Lemma vr_from_under (c : nat) (cs : list call) : ∀ (A : shape) (e : nat),
  script_ok A e cs → (∀ x, x ∈ s_cols A → x < e) →
  (c ∉ s_cols A → s_vr A c = []) →
  s_vr (shape_from A e cs) c = s_vr A c ++ under_from c e cs.
Proof.
  induction cs as [|a cs IH]; intros A e Hok Hlt Hemp; simpl.
  - rewrite app_nil_r. reflexivity.
  - destruct Hok as [Ha Hok].
    destruct a as [nm|row [ch|]]; simpl in *; [| |contradiction].
    + rewrite (IH _ _ Hok); simpl.
      * destruct (decide (c = e)) as [->|]; [|reflexivity].
        rewrite Hemp; [reflexivity|]. intros Hin. apply Hlt in Hin. lia.
      * intros x Hx. apply elem_of_app in Hx as [Hx|Hx]; [apply Hlt in Hx; lia|].
        apply list_elem_of_singleton in Hx. lia.
      * intros Hn. rewrite decide_False.
        -- apply Hemp. intros Hin. apply Hn. apply elem_of_app. tauto.
        -- intros ->. apply Hn. apply elem_of_app. right. left.
    + destruct Ha as [Hch _]. rewrite (IH _ _ Hok); simpl.
      * destruct (decide (c = ch)) as [->|Hne].
        -- rewrite decide_True by reflexivity. rewrite <- app_assoc. reflexivity.
        -- rewrite decide_False by congruence. reflexivity.
      * intros x Hx. apply Hlt in Hx. lia.
      * intros Hn. rewrite decide_False by (intros ->; contradiction).
        apply Hemp, Hn.
Qed.

Lemma pushed_under_vr (cs : list call) (c : nat) :
  well_formed cs → s_vr (shape_of cs) c = pushed_under c cs.
Proof.
  intros Hok. unfold shape_of, pushed_under.
  rewrite (vr_from_under c cs empty_shape 1 Hok); [reflexivity| |reflexivity].
  simpl. intros x Hx. inversion Hx.
Qed.

Lemma built (cs : list call) :
  well_formed cs →
  build cs = Some (mkMatrix (store_of cs) [] []) ∧
  SInv (store_of cs) (shape_of cs) ∧
  s_live (shape_of cs) = pushed_heads cs ∧ s_cols (shape_of cs) = pushed_heads cs ∧
  (∀ x, x ∈ items (shape_of cs) → x ∈ s_vr (shape_of cs) (s_col (shape_of cs) x)) ∧
  length (store_of cs) = S (length cs).
Proof.
  intros Hok. destruct (build_ok cs Hok) as (Eb & [HS _] & [El Hall] & Hl).
  pose proof (pushed_heads_cols cs Hok) as Ec.
  split_and!; try assumption. rewrite El. exact Ec.
Qed.

(** X1.  [Head] returns the header pushed first, and nil when no header
    was pushed. *)
Theorem Head_first_pushed (cs : list call) :
  well_formed cs → (m ← build cs; MHead m) = Some (head (pushed_heads cs)).
Proof.
  intros Hok. destruct (built cs Hok) as (-> & HS & El & _). simpl.
  rewrite (MHead_run HS), El. reflexivity.
Qed.

Lemma Head_first_pushed_knuth :
  well_formed knuth ∧ (m ← build knuth; MHead m) = Some (head (pushed_heads knuth)).
Proof. split; [by_compute|]. apply (Head_first_pushed knuth). by_compute. Defined.

(** X2.  [PushHead] appends at the right end of the header ring: the
    headers met from [Head] on by [Right], until it returns nil, are the
    headers pushed, in the order they were pushed. *)
Theorem headers_in_push_order (cs : list call) :
  well_formed cs →
  ∃ n0, ∀ n, n0 ≤ n → (m ← build cs; headers n m) = Some (pushed_heads cs).
Proof.
  intros Hok. destruct (built cs Hok) as (-> & HS & El & _).
  destruct (headers_run (store_of cs) (shape_of cs) [] [] HS) as [n0 Hn0].
  exists n0. intros n Hn. simpl. rewrite (Hn0 n Hn), El. reflexivity.
Qed.

Lemma headers_in_push_order_knuth :
  well_formed knuth ∧
  ∃ n0, ∀ n, n0 ≤ n → (m ← build knuth; headers n m) = Some (pushed_heads knuth).
Proof. split; [by_compute|]. apply (headers_in_push_order knuth). by_compute. Defined.

(** X3.  [Right] of a header is the header pushed next, and nil for the
    last one; [Left] is the header pushed before, and nil for the first
    one: the sentinel is never returned. *)
Theorem header_neighbours (cs : list call) (l1 : list nat) (c : nat) (l2 : list nat) :
  well_formed cs → pushed_heads cs = l1 ++ c :: l2 →
  ∃ m, build cs = Some m ∧
    Right (store m) (Some c) = Some (head l2) ∧
    Left (store m) (Some c) = Some (last l1).
Proof.
  intros Hok E. destruct (built cs Hok) as (Eb & HS & El & Ec & _).
  eexists. split; [exact Eb|]. simpl.
  assert (c ∈ s_cols (shape_of cs)) as Hc by (rewrite Ec, E; apply elem_of_app; right; left).
  assert (c ∈ 0 :: s_live (shape_of cs)) as HcL by (right; rewrite El, <- Ec; exact Hc).
  destruct (si_hring _ _ HS c HcL) as [Er Elf].
  destruct (si_head _ _ HS c Hc) as (Hm & _ & _).
  pose proof (si_hring_nodup HS) as Hnd. rewrite El, E in Hnd, Er, Elf.
  assert (∀ y, y ∈ l1 ++ c :: l2 → y ≠ 0) as Hne0.
  { intros y Hy. apply (si_col_ne0 HS). rewrite Ec, E. exact Hy. }
  unfold Right, Left. rewrite !neighbour_Some by apply (si_col_lt HS c Hc).
  rewrite Hm, Er, Elf. simpl. split.
  - pose proof (cnext_mid (0 :: l1) c l2) as E1. simpl in E1. rewrite E1.
    2:{ rewrite app_comm_cons in Hnd. apply NoDup_app in Hnd as (_ & Hd & _).
        intros Hin. eapply Hd; [eassumption|left]. }
    destruct l2 as [|y l2]; simpl.
    + reflexivity.
    + unfold ptr_eqb. rewrite bool_decide_eq_false_2; [reflexivity|].
      intros [= ->]. apply (Hne0 0); [|reflexivity].
      apply elem_of_app. right. right. left.
  - pose proof (cprev_mid (0 :: l1) c l2) as E1. simpl in E1. rewrite E1.
    2:{ rewrite app_comm_cons in Hnd. apply NoDup_app in Hnd as (_ & _ & Hn).
        apply NoDup_cons in Hn. tauto. }
    destruct l1 as [|y l1 _] using rev_ind; simpl.
    + reflexivity.
    + rewrite rev_app_distr. simpl. rewrite last_snoc.
      unfold ptr_eqb. rewrite bool_decide_eq_false_2; [reflexivity|].
      intros [= ->]. apply (Hne0 0); [|reflexivity].
      apply elem_of_app. left. apply elem_of_app. right. left.
Qed.

Lemma header_neighbours_knuth :
  well_formed knuth ∧ pushed_heads knuth = [1; 2; 3; 4; 5; 6] ++ 7 :: [] ∧
  ∃ m, build knuth = Some m ∧
    Right (store m) (Some 7) = Some (head []) ∧
    Left (store m) (Some 7) = Some (last [1; 2; 3; 4; 5; 6]).
Proof.
  split; [by_compute|]. split; [reflexivity|].
  apply (header_neighbours knuth [1; 2; 3; 4; 5; 6] 7 []); [by_compute|reflexivity].
Defined.

Lemma ring_neighbour (H : list Element) (fn fp : link) (L : list nat) (x : nat) :
  ring H fn fp L →
  (∀ y, y ∈ L → y ≠ 0 ∧ y < length H ∧ mtx H y = true) → x ∈ L →
  neighbour fn H (Some x) = Some (Some (cnext L x)) ∧
  neighbour fp H (Some x) = Some (Some (cprev L x)).
Proof.
  intros Hr Hall Hx. destruct (Hr x Hx) as [En Ep].
  destruct (Hall x Hx) as (_ & Hlt & Hm).
  destruct (Hall _ (cnext_in L x Hx)) as (Hn0 & _).
  destruct (Hall _ (cprev_in L x Hx)) as (Hp0 & _).
  rewrite !neighbour_Some by assumption. rewrite Hm, En, Ep. simpl.
  unfold ptr_eqb. rewrite !bool_decide_eq_false_2 by congruence. tauto.
Qed.

(** X4.  In the matrix of a well-formed script, [Up] and [Down] never
    return nil: the vertical rings do not hold the sentinel, and going
    down from the last item of a column gives its header.  [Left] and
    [Right] never return nil on an item.  On a header without items, [Up]
    and [Down] return the header itself. *)
Theorem neighbours_never_nil (cs : list call) (x : nat) :
  well_formed cs → 0 < x → x ≤ length cs →
  ∃ m u d, build cs = Some m ∧
    Up (store m) (Some x) = Some (Some u) ∧
    Down (store m) (Some x) = Some (Some d) ∧
    (x ∉ pushed_heads cs →
       ∃ l r, Left (store m) (Some x) = Some (Some l) ∧
              Right (store m) (Some x) = Some (Some r)) ∧
    (x ∈ pushed_heads cs → ¬ pushes_under x cs → u = x ∧ d = x).
Proof.
  intros Hok H0 Hle. destruct (built cs Hok) as (Eb & HS & El & Ec & Hall & Hl).
  set (A := shape_of cs) in *. set (H := store_of cs) in *.
  assert (x ∈ 0 :: s_cols A ++ items A) as Hx by (apply (si_addr _ _ HS); lia).
  apply elem_of_cons in Hx as [->|Hx]; [lia|].
  assert (∀ c, c ∈ s_cols A →
            ∀ y, y ∈ c :: s_vr A c → y ≠ 0 ∧ y < length H ∧ mtx H y = true) as Hv.
  { intros c Hc y Hy. destruct (si_vring_lt HS c y Hc Hy) as [Hlt Hy0].
    split_and!; try assumption.
    apply elem_of_cons in Hy as [->|Hy]; [apply (si_head _ _ HS c Hc)|].
    apply (si_item _ _ HS). apply (si_vr_item _ _ HS c y Hc Hy). }
  apply elem_of_app in Hx as [Hx|Hx].
  - destruct (ring_neighbour H Ldown Lup (x :: s_vr A x) x (si_vring _ _ HS x Hx) (Hv x Hx))
      as [Ed Eu]; [left|].
    eexists _, _, _. split; [exact Eb|]. simpl. fold H.
    split; [exact Eu|]. split; [exact Ed|]. split.
    + intros Hn. rewrite <- Ec in Hn. contradiction.
    + intros _ Hno.
      assert (s_vr A x = []) as ->
        by (apply vr_from_empty; [exact Hno|reflexivity]).
      rewrite cnext_single, cprev_single. tauto.
  - destruct (si_item _ _ HS x Hx) as (_ & _ & _ & Hc).
    destruct (ring_neighbour H Ldown Lup (s_col A x :: s_vr A (s_col A x)) x
                (si_vring _ _ HS _ Hc) (Hv _ Hc)) as [Ed Eu]; [right; apply Hall, Hx|].
    destruct (row_of_in A x Hx) as [HR HxR].
    destruct (si_row _ _ HS _ HR) as (_ & Hring & _).
    destruct (ring_neighbour H Lright Lleft (row_of A x) x Hring) as [Er Elf];
      [|exact HxR|].
    { intros y Hy. pose proof (si_row_item _ y HR Hy) as Hyi.
      split_and!; [apply (si_item_ne0 HS y Hyi)|apply (si_item_lt HS y Hyi)|].
      apply (si_item _ _ HS y Hyi). }
    eexists _, _, _. split; [exact Eb|]. simpl. fold H.
    split; [exact Eu|]. split; [exact Ed|]. split.
    + intros _. eexists _, _. split; [exact Elf|exact Er].
    + intros Hin. rewrite <- Ec in Hin. exfalso.
      apply (si_col_not_item HS x Hin Hx).
Qed.

Lemma neighbours_never_nil_lonely :
  well_formed lonely ∧ 0 < 2 ∧ 2 ≤ length lonely ∧
  ∃ m u d, build lonely = Some m ∧
    Up (store m) (Some 2) = Some (Some u) ∧
    Down (store m) (Some 2) = Some (Some d) ∧
    (2 ∉ pushed_heads lonely →
       ∃ l r, Left (store m) (Some 2) = Some (Some l) ∧
              Right (store m) (Some 2) = Some (Some r)) ∧
    (2 ∈ pushed_heads lonely → ¬ pushes_under 2 lonely → u = 2 ∧ d = 2).
Proof.
  split; [by_compute|]. split; [lia|]. split; [simpl; lia|].
  apply (neighbours_never_nil lonely 2); [by_compute|lia|simpl; lia].
Defined.

(** X5.  The header pushed [i]-th keeps the name it was pushed with, and
    its size is the number of items pushed under it. *)
Theorem header_name_and_size (cs : list call) (i c : nat) (nm : string) :
  well_formed cs → small cs →
  pushed_heads cs !! i = Some c → pushed_names cs !! i = Some nm →
  ∃ m hd, build cs = Some m ∧ load_Head (store m) (Some c) = Some hd ∧
    Name hd = nm ∧ Size hd = Z.of_nat (length (pushed_under c cs)).
Proof.
  intros Hok Hs Hc Hnm. destruct (built cs Hok) as (Eb & HS & El & Ec & _ & Hl).
  assert (c ∈ s_cols (shape_of cs)) as Hcc
    by (rewrite Ec; eapply list_elem_of_lookup_2; eassumption).
  destruct (si_head _ _ HS c Hcc) as (_ & _ & Hv).
  eexists _, _. split; [exact Eb|]. simpl.
  split; [apply (load_Head_Some _ _ _ Hv)|]. simpl. split.
  - pose proof (names_of cs) as En. rewrite Ec in En.
    rewrite <- En, list_lookup_fmap, Hc in Hnm. simpl in Hnm. congruence.
  - unfold Size. simpl.
    destruct (asize_small HS c (small_fits cs Hok Hs) Hcc) as [Ea _].
    unfold asize in Ea. rewrite Ea, (pushed_under_vr cs c Hok). reflexivity.
Qed.

Lemma header_name_and_size_knuth :
  well_formed knuth ∧ small knuth ∧
  pushed_heads knuth !! 3 = Some 4 ∧ pushed_names knuth !! 3 = Some "D" ∧
  ∃ m hd, build knuth = Some m ∧ load_Head (store m) (Some 4) = Some hd ∧
    Name hd = "D" ∧ Size hd = Z.of_nat (length (pushed_under 4 knuth)).
Proof.
  split; [by_compute|]. split; [unfold small; vm_compute; reflexivity|].
  split; [reflexivity|]. split; [reflexivity|].
  apply (header_name_and_size knuth 3 4 "D"); [by_compute| |reflexivity|reflexivity].
  unfold small; vm_compute; reflexivity.
Defined.

(** X6.  [PushItem] appends at the bottom of the column: the items met
    going [Down] from a header until it comes back are the items pushed
    under it, in the order they were pushed; going [Up], in the reverse
    order. *)
Theorem column_in_push_order (cs : list call) (c : nat) :
  well_formed cs → c ∈ pushed_heads cs →
  ∃ n0, ∀ n, n0 ≤ n →
    (m ← build cs; walk n Down (store m) (Some c)) =
      Some (Some <$> pushed_under c cs) ∧
    (m ← build cs; walk n Up (store m) (Some c)) =
      Some (Some <$> rev (pushed_under c cs)).
Proof.
  intros Hok Hc. destruct (built cs Hok) as (-> & HS & _ & Ec & _).
  rewrite <- Ec in Hc.
  destruct (column_walk _ _ c HS Hc) as [[n1 Hn1] [n2 Hn2]].
  rewrite (pushed_under_vr cs c Hok) in Hn1, Hn2.
  exists (n1 `max` n2). intros n Hn. simpl. split; [apply Hn1|apply Hn2]; lia.
Qed.

Lemma column_in_push_order_knuth :
  well_formed knuth ∧ 4 ∈ pushed_heads knuth ∧
  ∃ n0, ∀ n, n0 ≤ n →
    (m ← build knuth; walk n Down (store m) (Some 4)) =
      Some (Some <$> pushed_under 4 knuth) ∧
    (m ← build knuth; walk n Up (store m) (Some 4)) =
      Some (Some <$> rev (pushed_under 4 knuth)).
Proof.
  split; [by_compute|]. split; [by_compute|].
  apply (column_in_push_order knuth 4); by_compute.
Defined.

Lemma script_ok_app (cs : list call) (a : call) : ∀ (A : shape) (e : nat),
  script_ok A e (cs ++ [a]) ↔
  script_ok A e cs ∧ call_ok (shape_from A e cs) a.
Proof.
  induction cs as [|b cs IH]; intros A e; simpl; [tauto|].
  rewrite IH. tauto.
Qed.

Lemma load_Head_val (H H' : list Element) (x : nat) :
  x < length H → x < length H' → val H' x = val H x →
  load_Head H' (Some x) = load_Head H (Some x).
Proof.
  intros Hx Hx'. unfold val, load_Head, deref. simpl.
  destruct (lookup_lt_is_Some_2 H x Hx) as [e ->].
  destruct (lookup_lt_is_Some_2 H' x Hx') as [e' ->]. simpl. intros ->. reflexivity.
Qed.

Lemma neighbour_item (f : link) (H : list Element) (x y : nat) :
  x < length H → mtx H x = true → fld f H x = Some y → y ≠ 0 →
  neighbour f H (Some x) = Some (Some y).
Proof.
  intros Hx Hm Ef Hy. rewrite neighbour_Some by assumption. rewrite Hm, Ef. simpl.
  unfold ptr_eqb. rewrite bool_decide_eq_false_2 by congruence. reflexivity.
Qed.

(** X7.  [PushItem row c] links the new item right after [row] in the
    ring of its row, or alone in a ring of its own when [row] is nil, and
    at the bottom of the column of [c]; its column pointer is [c], the
    size of [c] grows by one, and no other header changes. *)
Theorem PushItem_links (cs : list call) (row : ptr) (c : nat) :
  well_formed (cs ++ [CPushItem row (Some c)]) →
  ∃ m m' hd, build cs = Some m ∧
    PushItem m row (Some c) = Some (m', Some (S (length cs))) ∧
    load (store m') (Some (S (length cs))) Lcolumn = Some (Some c) ∧
    Down (store m') (Some (S (length cs))) = Some (Some c) ∧
    Up (store m') (Some c) = Some (Some (S (length cs))) ∧
    Up (store m') (Some (S (length cs))) = Up (store m) (Some c) ∧
    match row with
    | None =>
        Left (store m') (Some (S (length cs))) = Some (Some (S (length cs))) ∧
        Right (store m') (Some (S (length cs))) = Some (Some (S (length cs)))
    | Some a =>
        Right (store m') (Some a) = Some (Some (S (length cs))) ∧
        Left (store m') (Some (S (length cs))) = Some (Some a) ∧
        Right (store m') (Some (S (length cs))) = Right (store m) (Some a)
    end ∧
    load_Head (store m) (Some c) = Some hd ∧
    load_Head (store m') (Some c) =
      Some (mkHead (Name hd) (wrap64 (Size hd + 1))) ∧
    ∀ x, x ≠ c → x ≤ length cs →
      load_Head (store m') (Some x) = load_Head (store m) (Some x).
Proof.
  intros Hok. apply script_ok_app in Hok as [Hok Hc]. fold (well_formed cs) in Hok.
  fold (shape_of cs) in Hc. simpl in Hc.
  destruct (build_ok cs Hok) as (Eb & [HS _] & Hp & Hl).
  set (A := shape_of cs) in *. set (H := store_of cs) in *.
  pose proof (PushItem_run HS row c Hc [] []) as Erun. rewrite Hl in Erun.
  pose proof (fld_item_store HS row c Hc) as Hf. rewrite Hl in Hf.
  pose proof (mtx_item_store HS row c Hc) as Hm. rewrite Hl in Hm.
  pose proof (val_item_store HS row c Hc) as Hv. rewrite Hl in Hv.
  pose proof (length_item_store HS row c Hc) as Hl'. rewrite Hl in Hl'.
  destruct (pi_t_lt HS row c Hc) as [Htlt Ht0]. rewrite Hl in Htlt.
  destruct (pi_c_lt HS row c Hc) as [Hclt Hc0]. rewrite Hl in Hclt.
  pose proof (pi_up_c HS row c Hc) as Eup.
  pose proof (pi_val_c HS row c Hc) as Eval.
  pose proof (pi_c row c Hc) as Hcc.
  set (e := S (length cs)) in *. set (H' := item_store H row c) in *.
  set (t := cprev (c :: s_vr A c) c) in *.
  assert (mtx H c = true) as Hmc by apply (si_head _ _ HS c Hcc).
  eexists _, _, _. split; [exact Eb|]. split; [exact Erun|]. simpl.
  fold H H' e.
  split.
  { rewrite load_Some by lia. rewrite Hf, decide_True by reflexivity. reflexivity. }
  split.
  { apply neighbour_item; [lia| | |assumption].
    - rewrite Hm, decide_True by reflexivity. reflexivity.
    - rewrite Hf, decide_True by reflexivity. reflexivity. }
  split.
  { apply neighbour_item; [lia| | |unfold e; lia].
    - rewrite Hm, decide_False by lia. exact Hmc.
    - rewrite Hf. dec_tac. reflexivity. }
  split.
  { unfold Up. rewrite (neighbour_item Lup H c t); [|lia|assumption|assumption|assumption].
    apply neighbour_item; [lia| | |assumption].
    - rewrite Hm, decide_True by reflexivity. reflexivity.
    - rewrite Hf, decide_True by reflexivity. reflexivity. }
  split.
  { destruct row as [a|].
    - destruct (pi_row HS (Some a) c Hc a eq_refl)
        as (Hai & Ha & _ & _ & Er & _ & Hni & Hn).
      rewrite Hl in Ha, Hn. fold e in Ha, Hn. simpl in Er.
      set (nx := cnext (row_of A a) a) in *.
      pose proof (si_item_ne0 HS a Hai) as Ha0.
      pose proof (si_item_ne0 HS nx Hni) as Hn0.
      assert (mtx H a = true) as Hma by apply (si_item _ _ HS a Hai).
      split_and!.
      + apply neighbour_item; [lia| | |unfold e; lia].
        * rewrite Hm, decide_False by lia. exact Hma.
        * rewrite Hf. simpl. dec_tac. reflexivity.
      + apply neighbour_item; [lia| | |assumption].
        * rewrite Hm, decide_True by reflexivity. reflexivity.
        * rewrite Hf, decide_True by reflexivity. reflexivity.
      + unfold Right.
        rewrite (neighbour_item Lright H a nx); [|lia|assumption|assumption|assumption].
        apply neighbour_item; [lia| | |assumption].
        * rewrite Hm, decide_True by reflexivity. reflexivity.
        * rewrite Hf, decide_True by reflexivity. reflexivity.
    - split; (apply neighbour_item; [lia| | |unfold e; lia]).
      + rewrite Hm, decide_True by reflexivity. reflexivity.
      + rewrite Hf, decide_True by reflexivity. reflexivity.
      + rewrite Hm, decide_True by reflexivity. reflexivity.
      + rewrite Hf, decide_True by reflexivity. reflexivity. }
  split; [apply (load_Head_Some _ _ _ Eval)|].
  split.
  { apply load_Head_Some. rewrite Hv, decide_True by reflexivity.
    unfold Name, Size. simpl. rewrite wrap64_succ. reflexivity. }
  intros x Hx Hxe. apply load_Head_val; [lia|lia|].
  rewrite Hv. rewrite decide_False by assumption. rewrite decide_False by (unfold e; lia).
  reflexivity.
Qed.

Lemma PushItem_links_lonely :
  well_formed (lonely ++ [CPushItem (Some 3) (Some 2)]) ∧
  ∃ m m' hd, build lonely = Some m ∧
    PushItem m (Some 3) (Some 2) = Some (m', Some (S (length lonely))) ∧
    load (store m') (Some (S (length lonely))) Lcolumn = Some (Some 2) ∧
    Down (store m') (Some (S (length lonely))) = Some (Some 2) ∧
    Up (store m') (Some 2) = Some (Some (S (length lonely))) ∧
    Up (store m') (Some (S (length lonely))) = Up (store m) (Some 2) ∧
    (Right (store m') (Some 3) = Some (Some (S (length lonely))) ∧
     Left (store m') (Some (S (length lonely))) = Some (Some 3) ∧
     Right (store m') (Some (S (length lonely))) = Right (store m) (Some 3)) ∧
    load_Head (store m) (Some 2) = Some hd ∧
    load_Head (store m') (Some 2) =
      Some (mkHead (Name hd) (wrap64 (Size hd + 1))) ∧
    ∀ x, x ≠ 2 → x ≤ length lonely →
      load_Head (store m') (Some x) = load_Head (store m) (Some x).
Proof.
  split; [by_compute|].
  apply (PushItem_links lonely (Some 3) 2). by_compute.
Defined.

Lemma poke_inv (H H' : list Element) (p : ptr) (f : link) (v : ptr) :
  poke H p f v = Some H' →
  length H' = length H ∧ (∀ y, val H' y = val H y) ∧
  (∀ g y, g ≠ f → fld g H' y = fld g H y).
Proof.
  destruct p as [a|]; [|discriminate]. unfold poke. simpl.
  destruct (H !! a) as [el|] eqn:E; [|discriminate]. simpl. intros [= <-].
  assert (a < length H) as Ha by (eapply lookup_lt_Some, E).
  assert (<[a := setl f v el]> H = hset H a f v) as -> by (unfold hset; rewrite E; reflexivity).
  split_and!.
  - apply length_hset.
  - intros y. apply val_hset.
  - intros g y Hg. rewrite fld_hset by assumption. rewrite decide_False; [reflexivity|].
    intros [_ ?]. contradiction.
Qed.

Lemma poke_matrix_inv (H H' : list Element) (p : ptr) :
  poke_matrix H p = Some H' → length H' = length H ∧ ∀ y, val H' y = val H y.
Proof.
  destruct p as [a|]; [|discriminate]. unfold poke_matrix. simpl.
  destruct (H !! a) as [el|] eqn:E; [|discriminate]. simpl. intros [= <-].
  assert (<[a := set_matrix true el]> H = hsetm H a) as -> by (unfold hsetm; rewrite E; reflexivity).
  split; [apply length_hsetm|]. intros y. apply val_hsetm.
Qed.

Lemma load_Head_item (H : list Element) (x : nat) :
  val H x = VBool true → load_Head H (Some x) = None.
Proof.
  unfold val, load_Head, deref. simpl. destruct (H !! x) as [el|]; simpl; [|reflexivity].
  intros ->. reflexivity.
Qed.

(** The part of [insertItem] that follows the linking of the row fails
    on the type assertion when the column pointer leads to an item. *)
Lemma insertItem_column_item (H1 : list Element) (e : ptr) (u x : nat) :
  fld Ldown H1 u = Some x → val H1 x = VBool true →
  (ch ← load H1 (Some u) Ldown;
   H ← poke H1 (Some u) Ldown e;
   H ← poke H e Lup (Some u);
   H ← poke H e Ldown ch;
   H ← poke H ch Lup e;
   H ← poke_matrix H e;
   H ← poke H e Lcolumn ch;
   hd ← load_Head H ch;
   hd' ← load_Head H ch;
   poke_Value H ch (VHead (mkHead (name hd) (wrap64 (size hd' + 1))))) = None.
Proof.
  intros Ed Ev.
  rewrite load_Some by (eapply fld_lt, Ed). rewrite Ed. simpl.
  destruct (poke H1 (Some u) Ldown e) as [H2|] eqn:E2; simpl; [|reflexivity].
  destruct (poke H2 e Lup (Some u)) as [H3|] eqn:E3; simpl; [|reflexivity].
  destruct (poke H3 e Ldown (Some x)) as [H4|] eqn:E4; simpl; [|reflexivity].
  destruct (poke H4 (Some x) Lup e) as [H5|] eqn:E5; simpl; [|reflexivity].
  destruct (poke_matrix H5 e) as [H6|] eqn:E6; simpl; [|reflexivity].
  destruct (poke H6 e Lcolumn (Some x)) as [H7|] eqn:E7; simpl; [|reflexivity].
  apply poke_inv in E2 as (_ & V2 & _). apply poke_inv in E3 as (_ & V3 & _).
  apply poke_inv in E4 as (_ & V4 & _). apply poke_inv in E5 as (_ & V5 & _).
  apply poke_matrix_inv in E6 as (_ & V6). apply poke_inv in E7 as (_ & V7 & _).
  rewrite load_Head_item; [reflexivity|].
  rewrite V7, V6, V5, V4, V3, V2. exact Ev.
Qed.

(** X8.  [PushItem] panics when the column pointer is nil, and when it
    is an item rather than a header: [colHead.up.down] is then the item
    itself, whose value is not a [Head]. *)
Theorem PushItem_bad_column (cs : list call) (row colHead : ptr) :
  well_formed cs →
  (colHead = None ∨
   ∃ x, colHead = Some x ∧ 0 < x ∧ x ≤ length cs ∧ x ∉ pushed_heads cs) →
  (m ← build cs; PushItem m row colHead) = None.
Proof.
  intros Hok Hcol. destruct (built cs Hok) as (-> & HS & El & Ec & Hall & Hl). simpl.
  destruct Hcol as [->|(x & -> & H0 & Hle & Hnh)]; [reflexivity|].
  set (A := shape_of cs) in *. set (H := store_of cs) in *.
  assert (x ∈ items A) as Hx.
  { assert (x ∈ 0 :: s_cols A ++ items A) as Hin by (apply (si_addr _ _ HS); lia).
    apply elem_of_cons in Hin as [->|Hin]; [lia|].
    apply elem_of_app in Hin as [Hin|Hin]; [|assumption].
    rewrite Ec in Hin. contradiction. }
  destruct (si_item _ _ HS x Hx) as (_ & Hvx & _ & Hc).
  set (c := s_col A x) in *. set (L := c :: s_vr A c) in *.
  assert (x ∈ L) as HxL by (right; apply Hall, Hx).
  set (u := cprev L x).
  assert (u ∈ L) as HuL by (apply cprev_in, HxL).
  destruct (si_vring _ _ HS c Hc x HxL) as [_ Eup].
  destruct (si_vring _ _ HS c Hc u HuL) as [Edn _].
  unfold u in Edn. rewrite (cnext_cprev L x (si_vring_nodup HS c Hc) HxL) in Edn.
  fold u in Edn. fold L u in Eup.
  destruct (si_vring_lt HS c u Hc HuL) as [Hult _].
  unfold PushItem, alloc. simpl. fold H.
  set (H0' := H ++ [set_Value (VBool true) zeroElement]).
  assert (length H0' = S (length H)) as Hl0 by apply length_alloc.
  assert (∀ f y, y < length H → fld f H0' y = fld f H y) as Hf0.
  { intros f y Hy. unfold H0'. rewrite fld_alloc. rewrite decide_False by lia. reflexivity. }
  assert (val H0' x = VBool true) as Hv0.
  { unfold H0'. rewrite val_alloc. rewrite decide_False by lia. exact Hvx. }
  rewrite load_Some by lia. rewrite Hf0 by lia. rewrite Eup. simpl.
  unfold insertItem.
  assert (∀ H1, (if ptr_eqb row None
                 then H2 ← poke H0' (Some (length H)) Lleft (Some (length H));
                      poke H2 (Some (length H)) Lright (Some (length H))
                 else n ← load H0' row Lright;
                      H2 ← poke H0' row Lright (Some (length H));
                      H2 ← poke H2 (Some (length H)) Lleft row;
                      H2 ← poke H2 (Some (length H)) Lright n;
                      poke H2 n Lleft (Some (length H))) = Some H1 →
            fld Ldown H1 u = Some x ∧ val H1 x = VBool true) as Hrow.
  { intros H1 E1. destruct (ptr_eqb row None).
    - destruct (poke H0' (Some (length H)) Lleft (Some (length H))) as [H2|] eqn:E2;
        simpl in E1; [|discriminate].
      apply poke_inv in E2 as (_ & V2 & F2). apply poke_inv in E1 as (_ & V1 & F1).
      rewrite F1, F2, V1, V2 by discriminate. rewrite Hf0 by lia. tauto.
    - destruct (load H0' row Lright) as [n|]; simpl in E1; [|discriminate].
      destruct (poke H0' row Lright (Some (length H))) as [H2|] eqn:E2;
        simpl in E1; [|discriminate].
      destruct (poke H2 (Some (length H)) Lleft row) as [H3|] eqn:E3;
        simpl in E1; [|discriminate].
      destruct (poke H3 (Some (length H)) Lright n) as [H4|] eqn:E4;
        simpl in E1; [|discriminate].
      apply poke_inv in E2 as (_ & V2 & F2). apply poke_inv in E3 as (_ & V3 & F3).
      apply poke_inv in E4 as (_ & V4 & F4). apply poke_inv in E1 as (_ & V1 & F1).
      rewrite F1, F4, F3, F2, V1, V4, V3, V2 by discriminate.
      rewrite Hf0 by lia. tauto. }
  match goal with
  | |- context [mbind _ ?R] =>
      match R with
      | (if ptr_eqb row None then _ else _) =>
          destruct R as [H1|] eqn:E1; simpl; [|reflexivity]
      end
  end.
  destruct (Hrow H1 eq_refl) as [Ed Ev].
  rewrite (insertItem_column_item H1 (Some (length H)) u x Ed Ev). reflexivity.
Qed.

Lemma PushItem_bad_column_knuth :
  well_formed knuth ∧
  (Some 8 = None ∨
   ∃ x, Some 8 = Some x ∧ 0 < x ∧ x ≤ length knuth ∧ x ∉ pushed_heads knuth) ∧
  (m ← build knuth; PushItem m None (Some 8)) = None.
Proof.
  assert ((Some 8 : ptr) = None ∨
          ∃ x, Some 8 = Some x ∧ 0 < x ∧ x ≤ length knuth ∧ x ∉ pushed_heads knuth) as Hb.
  { right. exists 8. split; [reflexivity|]. split; [lia|]. split; [simpl; lia|].
    by_compute. }
  split; [by_compute|]. split; [exact Hb|].
  apply (PushItem_bad_column knuth None (Some 8)); [by_compute|exact Hb].
Defined.

(** X9.  [getColumn] returns nil exactly when no header is left in the
    header ring. *)
Theorem getColumn_nil_iff_empty (H : list Element) (A : shape)
    (os : list ptr) (sols : list (list string)) :
  Inv H A → fits H →
  ∃ hs r, evt (λ n, headers n (mkMatrix H os sols)) hs ∧
          evt (λ n, getColumn n (mkMatrix H os sols)) r ∧
          (r = None ↔ hs = []).
Proof.
  intros [HS _] Hf. exists (s_live A), (choose A).
  split; [apply (headers_run H A os sols HS)|]. split; [apply (getColumn_run HS)|].
  split.
  - intros En. destruct (s_live A) as [|c l] eqn:El; [reflexivity|].
    destruct (choose_live HS Hf) as (_ & c' & _ & _ & Ec & _); [rewrite El; discriminate|].
    congruence.
  - intros El. unfold choose. rewrite El. reflexivity.
Qed.

Lemma getColumn_nil_iff_empty_knuth :
  Inv (store_of knuth) (shape_of knuth) ∧ fits (store_of knuth) ∧
  ∃ hs r, evt (λ n, headers n (mkMatrix (store_of knuth) [] [])) hs ∧
          evt (λ n, getColumn n (mkMatrix (store_of knuth) [] [])) r ∧
          (r = None ↔ hs = []).
Proof.
  assert (well_formed knuth) as Hok by by_compute.
  assert (fits (store_of knuth)) as Hf by (unfold fits; vm_compute; reflexivity).
  split; [apply (build_ok knuth Hok)|]. split; [exact Hf|].
  apply (getColumn_nil_iff_empty (store_of knuth) (shape_of knuth) [] []);
    [apply (build_ok knuth Hok)|exact Hf].
Defined.



Lemma ops_run_base (ps : list op) : ∀ Hb Ab (H : list Element) (A : shape) stk S',
  Inv H A → stack_base Hb Ab H A stk → aops (A, stk) ps = Some S' →
  ∃ H', evt (λ n, run_ops n H ps) H' ∧ Inv H' S'.1 ∧ stack_base Hb Ab H' S'.1 S'.2.
Proof.
  induction ps as [|p ps IH]; intros Hb Ab H A stk S' HI Hst E; simpl in E.
  - injection E as <-. exists H. split_and!; try assumption. apply evt_ret.
  - destruct p as [[c|]|[c|]]; simpl in E; try discriminate.
    + destruct (decide (c ∈ s_live A)) as [Hc|]; [|discriminate]. simpl in E.
      pose proof (cover_Inv H A c HI Hc) as HI1.
      destruct (IH Hb Ab (cover_store H A c) (acover A c) ((c, A) :: stk) S' HI1) as
        (H' & Hev & HI' & Hst'); [|assumption|].
      { simpl. exists H. tauto. }
      exists H'. split_and!; try assumption.
      simpl. apply (evt_bind (λ n, cover n H (Some c)) (λ n H1, run_ops n H1 ps)
                      (cover_store H A c) H'); [|exact Hev].
      exact (cover_run HI c Hc).
    + destruct stk as [|[c' A0] stk]; [discriminate|].
      destruct (decide (c = c')) as [<-|]; [|discriminate]. simpl in E.
      destruct Hst as (H0 & HI0 & Hc & -> & -> & Hst0).
      destruct (IH Hb Ab H0 A0 stk S' HI0 Hst0 E) as (H' & Hev & HI' & Hst').
      exists H'. split_and!; try assumption.
      simpl. apply (evt_bind (λ n, uncover n (cover_store H0 A0 c) (Some c))
                      (λ n H1, run_ops n H1 ps) H0 H'); [|exact Hev].
      exact (uncover_run HI0 c Hc).
Qed.

(** X11.  Covers and uncovers compose: a sequence in which every
    [cover] is of a live column, every [uncover] is of the column covered
    last, and every cover is undone at the end gives the store back as it
    was. *)
Theorem balanced_covers_restore (H : list Element) (A A' : shape) (ps : list op) :
  Inv H A → aops (A, []) ps = Some (A', []) →
  ∃ n0, ∀ n, n0 ≤ n → run_ops n H ps = Some H.
Proof.
  intros HI E.
  destruct (ops_run_base ps H A H A [] (A', []) HI (conj eq_refl eq_refl) E)
    as (H' & Hev & _ & [-> _]).
  exact Hev.
Qed.

Lemma balanced_covers_restore_knuth :
  Inv (store_of knuth) (shape_of knuth) ∧
  ∃ A', aops (shape_of knuth, [])
          [OCover (Some 1); OCover (Some 4); OUncover (Some 4); OCover (Some 2);
           OUncover (Some 2); OUncover (Some 1)] = Some (A', []) ∧
  ∃ n0, ∀ n, n0 ≤ n →
    run_ops n (store_of knuth)
      [OCover (Some 1); OCover (Some 4); OUncover (Some 4); OCover (Some 2);
       OUncover (Some 2); OUncover (Some 1)] = Some (store_of knuth).
Proof.
  assert (well_formed knuth) as Hok by by_compute.
  split; [apply (build_ok knuth Hok)|].
  eexists. split; [lazy; reflexivity|].
  eapply (balanced_covers_restore (store_of knuth) (shape_of knuth));
    [apply (build_ok knuth Hok)|lazy; reflexivity].
Defined.

(** X12.  The two loops of [search] around its recursive call undo each
    other: covering the columns of the other items of a row, going right
    from the chosen item, and then uncovering them going left, gives the
    store back as it was. *)
Theorem uncover_row_after_cover_row (H : list Element) (A : shape) (r : nat) :
  Inv H A → r ∈ items A → (∀ y, y ∈ mates A r → s_col A y ∈ s_live A) →
  ∃ n0, ∀ n, n0 ≤ n →
    ∃ H1, cover_row n H (Some r) = Some H1 ∧ uncover_row n H1 (Some r) = Some H.
Proof.
  intros HI Hr Hm.
  destruct (cover_row_run HI r Hr Hm) as [n1 Hn1].
  destruct (uncover_row_run HI r Hr Hm) as [n2 Hn2].
  exists (n1 `max` n2). intros n Hn. eexists. split; [apply Hn1; lia|apply Hn2; lia].
Qed.

Lemma uncover_row_after_cover_row_knuth :
  Inv (store_of knuth) (shape_of knuth) ∧ 11 ∈ items (shape_of knuth) ∧
  (∀ y, y ∈ mates (shape_of knuth) 11 →
        s_col (shape_of knuth) y ∈ s_live (shape_of knuth)) ∧
  ∃ n0, ∀ n, n0 ≤ n →
    ∃ H1, cover_row n (store_of knuth) (Some 11) = Some H1 ∧
          uncover_row n H1 (Some 11) = Some (store_of knuth).
Proof.
  assert (well_formed knuth) as Hok by by_compute.
  assert (11 ∈ items (shape_of knuth)) as Hr by by_compute.
  assert (∀ y, y ∈ mates (shape_of knuth) 11 →
               s_col (shape_of knuth) y ∈ s_live (shape_of knuth)) as Hm.
  { intros y Hy. vm_compute in Hy.
    repeat (apply elem_of_cons in Hy as [->|Hy]; [by_compute|]). inversion Hy. }
  split; [apply (build_ok knuth Hok)|]. split; [exact Hr|]. split; [exact Hm|].
  apply (uncover_row_after_cover_row (store_of knuth) (shape_of knuth) 11);
    [apply (build_ok knuth Hok)|exact Hr|exact Hm].
Defined.

(** X13.  [Init] makes any matrix empty, whatever was pushed before:
    [Head] is nil, no row is chosen, no solution is kept, and [Solve]
    then returns the empty solution alone.  The elements pushed before are
    left as they were. *)
Theorem Init_empties (m : Matrix) :
  store m ≠ [] →
  ∃ m', Init m = Some m' ∧ o m' = [] ∧ solutions m' = [] ∧
    MHead m' = Some None ∧
    (∀ x, 0 < x → store m' !! x = store m !! x) ∧
    ∀ n, 0 < n → Solve n m' = Some (mkMatrix (store m') [] [[]], [[]]).
Proof.
  intros Hne. assert (0 < length (store m)) as Hl
    by (destruct (store m); [congruence|simpl; lia]).
  unfold Init.
  rewrite poke_Some by assumption. simpl.
  rewrite poke_Some by hlen. simpl.
  rewrite poke_Some by hlen. simpl.
  rewrite poke_Some by hlen. simpl.
  rewrite poke_Some by hlen. simpl.
  set (H' := hset _ 0 Lcolumn (Some 0)).
  assert (0 < length H') as Hl' by (unfold H'; hlen).
  assert (fld Lright H' 0 = Some 0) as Er by (unfold H'; hsimp; dec_tac; reflexivity).
  assert (MHead (mkMatrix H' [] []) = Some None) as Eh.
  { unfold MHead. simpl. rewrite load_Some by assumption. rewrite Er. reflexivity. }
  eexists. split; [reflexivity|]. simpl. split_and!; try reflexivity.
  - exact Eh.
  - intros x Hx. unfold H'. rewrite !lookup_hset.
    rewrite !decide_False by lia. reflexivity.
  - intros [|n] Hn; [lia|]. unfold Solve. rewrite search_unfold, Eh. simpl.
    destruct n; reflexivity.
Qed.

Lemma Init_empties_knuth :
  store (mkMatrix (store_of knuth) [] []) ≠ [] ∧
  ∃ m', Init (mkMatrix (store_of knuth) [] []) = Some m' ∧
    o m' = [] ∧ solutions m' = [] ∧ MHead m' = Some None ∧
    (∀ x, 0 < x → store m' !! x = store (mkMatrix (store_of knuth) [] []) !! x) ∧
    ∀ n, 0 < n → Solve n m' = Some (mkMatrix (store m') [] [[]], [[]]).
Proof.
  assert (store (mkMatrix (store_of knuth) [] []) ≠ []) as Hne
    by (vm_compute; discriminate).
  split; [exact Hne|]. apply (Init_empties _ Hne).
Defined.

Lemma acover_ready (H : list Element) (A : shape) (c : nat) :
  Inv H A → c ∈ s_live A → rows_ready A → rows_ready (acover A c).
Proof.
  intros HI Hc HJ z Hz Hrow. pose proof (proj1 HI) as HS.
  destruct (acover_static A c) as (Ecols & Elive & Erows & Ecol & Ename).
  assert (same_static (acover A c) A) as Hst by (unfold same_static; tauto).
  destruct (static_ext _ _ Hst) as (Ei & _ & _ & _ & _ & Ero).
  rewrite Ei in Hz. rewrite Ero, Ecol, Elive in Hrow. rewrite Ecol.
  assert (∀ y, y ∈ row_of A z → s_col A y ∈ s_live A ∧ s_col A y ≠ c) as Hrow'.
  { intros y Hy. apply elem_of_remove1. apply Hrow, Hy. }
  apply acover_vr. split.
  - apply HJ; [assumption|]. intros y Hy. apply Hrow', Hy.
  - intros Hin. apply elem_of_cover_items in Hin as (i & Hi & Hzi).
    assert (c ∈ s_cols A) as Hcc by (apply (si_live _ _ HS), Hc).
    destruct (si_vr_item _ _ HS c i Hcc Hi) as [Hii Hic].
    apply (elem_of_mates HS i z Hii) in Hzi as [HzR _].
    destruct (row_of_in A i Hii) as [HRi HiR].
    rewrite <- (row_of_eq HS _ z HRi HzR) in HiR.
    destruct (Hrow' i HiR) as [_ Hne]. contradiction.
Qed.

Lemma fold_ready (p : list nat) : ∀ (H : list Element) (A : shape),
  Inv H A → NoDup p → (∀ c, c ∈ p → c ∈ s_live A) → rows_ready A →
  rows_ready (fold_left acover p A).
Proof.
  induction p as [|c p IH]; intros H A HI Hnd Hlive HJ; simpl; [assumption|].
  apply NoDup_cons in Hnd as [Hc Hnd].
  apply (IH (cover_store H A c)).
  - apply cover_Inv; [assumption|]. apply Hlive. left.
  - assumption.
  - intros c' Hc'. destruct (acover_static A c) as (_ & -> & _).
    apply elem_of_remove1. split; [apply Hlive; right; assumption|].
    intros ->. contradiction.
  - apply (acover_ready H); [assumption| |assumption]. apply Hlive. left.
Qed.

Lemma descend_ready (H : list Element) (A : shape) (c x : nat) :
  Inv H A → c ∈ s_live A → x ∈ s_vr A c → rows_ready A →
  rows_ready (acover_row (acover A c) x).
Proof.
  intros HI Hc Hxv HJ. pose proof (proj1 HI) as HS.
  pose proof (cover_Inv H A c HI Hc) as HI1.
  destruct (acover_static A c) as (Ecols & Elive & Erows & Ecol & Ename).
  assert (c ∈ s_cols A) as Hcc by (apply (si_live _ _ HS), Hc).
  destruct (si_vr_item _ _ HS c x Hcc Hxv) as [Hxi Hxc].
  assert (x ∈ items (acover A c)) as Hxi1 by (rewrite acover_items; assumption).
  assert (∀ y, y ∈ mates (acover A c) x → s_col (acover A c) y ∈ s_live (acover A c)) as Hm1.
  { intros y Hy. rewrite acover_mates in Hy. rewrite Ecol, Elive.
    destruct (cl_mate HI c Hc x y Hxv Hy) as (_ & _ & Hne & Hl).
    apply elem_of_remove1. tauto. }
  unfold acover_row. apply (fold_ready _ (cover_store H A c)).
  - assumption.
  - apply (cr_nodup HI1 x Hxi1).
  - intros c' Hc'. apply (cr_live x Hm1 c' Hc').
  - apply (acover_ready H); assumption.
Qed.

Lemma pristine_ready (H : list Element) (A : shape) :
  SInv H A → pristine A → rows_ready A.
Proof. intros HS [_ Hall] z Hz _. apply Hall, Hz. Qed.

(** The search on shapes finds every exact cover of the live columns by
    rows of the matrix. *)
Lemma asearch_complete (k : nat) :
  ∀ (H : list Element) (A : shape) (os : list nat) (Rs : list (list nat)),
  Inv H A → fits H → rows_ready A → length (s_live A) ≤ k →
  Forall (λ R, R ∈ s_rows A) Rs →
  concat ((λ R : list nat, s_col A <$> R) <$> Rs) ≡ₚ s_live A →
  ∃ os2 : list nat, render A (os ++ os2) ∈ asearch k A os ∧ row_of A <$> os2 ≡ₚ Rs.
Proof.
  induction k as [|k IH]; intros H A os Rs HI Hf HJ Hk HRs Hperm;
    pose proof (proj1 HI) as HS.
  - destruct (s_live A) as [|c0 l0] eqn:El; [|simpl in Hk; lia].
    destruct Rs as [|R Rs].
    + exists []. rewrite app_nil_r. simpl. rewrite El. split; [left|reflexivity].
    + exfalso. apply Forall_cons in HRs as [HR _].
      destruct (si_row _ _ HS R HR) as (Hne & _).
      apply Permutation_nil_r in Hperm. simpl in Hperm.
      apply app_eq_nil in Hperm as [E _]. apply fmap_nil_inv in E. contradiction.
  - destruct (s_live A) as [|c0 l0] eqn:El.
    + destruct Rs as [|R Rs].
      * exists []. rewrite app_nil_r, asearch_leaf by assumption.
        split; [left|reflexivity].
      * exfalso. apply Forall_cons in HRs as [HR _].
        destruct (si_row _ _ HS R HR) as (Hne & _).
        apply Permutation_nil_r in Hperm. simpl in Hperm.
        apply app_eq_nil in Hperm as [E _]. apply fmap_nil_inv in E. contradiction.
    + rewrite <- El in *.
      assert (s_live A ≠ []) as Hne by (rewrite El; discriminate).
      destruct (choose_live HS Hf Hne) as (l1 & c & l2 & E & Ec & _).
      assert (c ∈ s_live A) as Hc by (rewrite E; apply elem_of_app; right; left).
      assert (c ∈ concat ((λ R : list nat, s_col A <$> R) <$> Rs)) as Hcin by (rewrite Hperm; exact Hc).
      apply elem_of_concat in Hcin as (l & Hl & Hcl).
      apply list_elem_of_fmap in Hl as (R & -> & HR).
      apply list_elem_of_fmap in Hcl as (x & Exc & HxR).
      rewrite Forall_forall in HRs. pose proof (HRs R HR) as HRrow.
      pose proof (si_row_item R x HRrow HxR) as Hxi.
      pose proof (row_of_eq HS R x HRrow HxR) as ER.
      assert (x ∈ s_vr A c) as Hxv.
      { rewrite Exc. apply HJ; [assumption|]. intros y Hy. rewrite ER in Hy.
        rewrite <- Hperm. apply elem_of_concat. exists (s_col A <$> R). split.
        - apply list_elem_of_fmap. exists R. tauto.
        - apply list_elem_of_fmap. exists y. tauto. }
      apply list_elem_of_split in HR as (Ra & Rb & ERs).
      assert (Rs ≡ₚ R :: (Ra ++ Rb)) as HRs'
        by (rewrite ERs; symmetry; apply Permutation_middle).
      set (Rs' := Ra ++ Rb) in *.
      destruct (descend H A c x HI Hc Hxv) as (H2 & HI2 & Hl2 & Hst & _ & _ & Hlive).
      pose proof (descend_ready H A c x HI Hc Hxv HJ) as HJ2.
      set (A2 := acover_row (acover A c) x) in *.
      destruct (static_ext _ _ Hst) as (Ei & Er & _ & _ & _ & Ero).
      destruct Hst as (Ecols & Erows & Ecol & Ename).
      assert (s_col A <$> row_items A x ≡ₚ s_col A <$> R) as HpR.
      { apply fmap_Permutation. unfold row_items, mates. rewrite ER.
        symmetry. apply others_perm. exact HxR. }
      assert (concat ((λ R : list nat, s_col A <$> R) <$> Rs') ≡ₚ s_live A2) as Hperm2.
      { rewrite HRs' in Hperm. simpl in Hperm. rewrite Hlive, HpR in Hperm.
        apply Permutation_app_inv_l in Hperm. exact Hperm. }
      destruct (IH H2 A2 (os ++ [x]) Rs' HI2) as (os2 & Hin & Hrows).
      * unfold fits. rewrite Hl2. exact Hf.
      * exact HJ2.
      * apply Permutation_length in Hlive. rewrite length_app in Hlive.
        unfold row_items in Hlive. simpl in Hlive. lia.
      * apply Forall_forall. intros R' HR'. rewrite Erows. apply HRs.
        rewrite HRs'. right. exact HR'.
      * rewrite Ecol. exact Hperm2.
      * exists (x :: os2). split.
        -- rewrite (asearch_branch k A os c Hne Ec). apply elem_of_concat.
           exists (asearch k A2 (os ++ [x])). split.
           ++ apply list_elem_of_fmap. exists x. tauto.
           ++ rewrite <- Er. rewrite <- app_assoc in Hin. exact Hin.
        -- simpl. rewrite ER, HRs'. apply Permutation_skip. rewrite <- Ero. exact Hrows.
Qed.

(** X14.  [Solve] is complete: for every choice of rows of the matrix
    that covers each column once, it returns a solution made of these
    rows, each written from one of its items on. *)
Theorem Solve_finds_every_cover (cs : list call) (Rs : list (list nat)) :
  well_formed cs → small cs → exact_cover cs Rs →
  ∃ n0, ∀ n, n0 ≤ n → ∃ m sols (os : list nat),
    (m0 ← build cs; Solve n m0) = Some (m, sols) ∧
    (λ r, join (col_name (shape_of cs) <$>
                  (r :: others (row_of (shape_of cs) r) r))) <$> os ∈ sols ∧
    row_of (shape_of cs) <$> os ≡ₚ Rs.
Proof.
  intros Hok Hs [HRs Hperm]. destruct (build_Solve cs Hok Hs) as [n0 Hn0].
  destruct (build_ok cs Hok) as (_ & HI & Hp & _).
  pose proof (proj1 HI) as HS.
  destruct (asearch_complete (length (s_live (shape_of cs))) (store_of cs) (shape_of cs)
              [] Rs HI (small_fits cs Hok Hs) (pristine_ready _ _ HS Hp) (le_n _) HRs)
    as (os & Hin & Hrows).
  { destruct Hp as [-> _]. rewrite (pushed_heads_cols cs Hok). exact Hperm. }
  exists n0. intros n Hn. eexists _, _, os. split; [apply Hn0, Hn|].
  split; [|exact Hrows].
  simpl in Hin. rewrite render_rows, <- list_fmap_compose in Hin. exact Hin.
Qed.

Lemma Solve_finds_every_cover_knuth :
  well_formed knuth ∧ small knuth ∧
  exact_cover knuth [[17; 18]; [19; 20]; [8; 9; 10]] ∧
  ∃ n0, ∀ n, n0 ≤ n → ∃ m sols (os : list nat),
    (m0 ← build knuth; Solve n m0) = Some (m, sols) ∧
    (λ r, join (col_name (shape_of knuth) <$>
                  (r :: others (row_of (shape_of knuth) r) r))) <$> os ∈ sols ∧
    row_of (shape_of knuth) <$> os ≡ₚ [[17; 18]; [19; 20]; [8; 9; 10]].
Proof.
  assert (exact_cover knuth [[17; 18]; [19; 20]; [8; 9; 10]]) as Hc.
  { split; [by_compute|]. vm_compute.
    apply (Permutation_trans (l' := [1; 2; 4; 7; 3; 5; 6])).
    { apply perm_skip. apply perm_swap. }
    apply perm_skip, perm_skip.
    apply (Permutation_trans (l' := [4; 3; 7; 5; 6])).
    { apply perm_skip. apply perm_swap. }
    apply (Permutation_trans (l' := [3; 4; 7; 5; 6])).
    { apply perm_swap. }
    apply perm_skip, perm_skip.
    apply (Permutation_trans (l' := [5; 7; 6])).
    { apply perm_swap. }
    apply perm_skip. apply perm_swap. }
  split; [by_compute|]. split; [unfold small; vm_compute; reflexivity|].
  split; [exact Hc|].
  apply (Solve_finds_every_cover knuth _); [by_compute| |exact Hc].
  unfold small; vm_compute; reflexivity.
Defined.

Lemma chosen_rows_cols (H : list Element) (A : shape) (os : list nat) :
  SInv H A → Forall (λ r, r ∈ items A) os →
  Forall (λ R, R ∈ s_rows A) (row_of A <$> os) ∧
  concat ((λ R : list nat, s_col A <$> R) <$> (row_of A <$> os)) ≡ₚ chosen_cols A os.
Proof.
  intros HS Hos. induction Hos as [|r os Hr Hos [IH1 IH2]].
  - split; [constructor|reflexivity].
  - destruct (row_of_in A r Hr) as [HR HrR]. split.
    + rewrite fmap_cons. constructor; assumption.
    + unfold chosen_cols in *.
      change (((s_col A <$> row_of A r) ++
                concat ((λ R : list nat, s_col A <$> R) <$> (row_of A <$> os))) ≡ₚ
              (s_col A <$> row_items A r) ++
                concat ((λ r, s_col A <$> row_items A r) <$> os)).
      rewrite IH2. apply Permutation_app_tail. apply fmap_Permutation.
      unfold row_items, mates. apply others_perm. exact HrR.
Qed.

(** X15.  [Solve] returns no solution exactly when no choice of rows
    covers each column of the matrix once. *)
Theorem Solve_empty_iff_no_cover (cs : list call) :
  well_formed cs → small cs →
  ∃ n0, ∀ n, n0 ≤ n → ∃ m sols,
    (m0 ← build cs; Solve n m0) = Some (m, sols) ∧
    (sols = [] ↔ ¬ ∃ Rs, exact_cover cs Rs).
Proof.
  intros Hok Hs. destruct (build_Solve cs Hok Hs) as [n0 Hn0].
  destruct (build_ok cs Hok) as (_ & HI & Hp & _).
  pose proof (proj1 HI) as HS.
  exists n0. intros n Hn. eexists _, _. split; [apply Hn0, Hn|]. split.
  - intros Ef [Rs [HRs Hperm]].
    destruct (asearch_complete (length (s_live (shape_of cs))) (store_of cs)
                (shape_of cs) [] Rs HI (small_fits cs Hok Hs)
                (pristine_ready _ _ HS Hp) (le_n _) HRs) as (os & Hin & _).
    { destruct Hp as [-> _]. rewrite (pushed_heads_cols cs Hok). exact Hperm. }
    fold (found (shape_of cs)) in Hin. rewrite Ef in Hin. inversion Hin.
  - intros Hno. destruct (found (shape_of cs)) as [|sol sols] eqn:Ef; [reflexivity|].
    exfalso. apply Hno.
    destruct (found_sound _ _ sol HI Hp) as (os & _ & Hos & Hcov);
      [rewrite Ef; left|].
    destruct (chosen_rows_cols _ _ os HS Hos) as [HRs Hperm].
    exists (row_of (shape_of cs) <$> os). split; [exact HRs|].
    rewrite Hperm, Hcov. rewrite (pushed_heads_cols cs Hok). reflexivity.
Qed.

Lemma Solve_empty_iff_no_cover_lonely :
  well_formed lonely ∧ small lonely ∧
  ∃ n0, ∀ n, n0 ≤ n → ∃ m sols,
    (m0 ← build lonely; Solve n m0) = Some (m, sols) ∧
    (sols = [] ↔ ¬ ∃ Rs, exact_cover lonely Rs).
Proof.
  split; [by_compute|]. split; [unfold small; vm_compute; reflexivity|].
  apply (Solve_empty_iff_no_cover lonely); [by_compute|].
  unfold small; vm_compute; reflexivity.
Defined.

(** X16.  The ring of a row holds the items of the row only: going
    [Right] from an item until it comes back meets the other items of its
    row, in ring order, and going [Left] meets them in the reverse order;
    no header and no nil is met on the way. *)
Theorem row_walk (cs : list call) (R : list nat) (r : nat) :
  well_formed cs → R ∈ s_rows (shape_of cs) → r ∈ R →
  ∃ n0, ∀ n, n0 ≤ n →
    (m ← build cs; walk n Right (store m) (Some r)) = Some (Some <$> others R r) ∧
    (m ← build cs; walk n Left (store m) (Some r)) = Some (Some <$> rev (others R r)).
Proof.
  intros Hok HR Hr. destruct (built cs Hok) as (-> & HS & _).
  set (A := shape_of cs) in *. set (H := store_of cs) in *.
  destruct (si_row _ _ HS R HR) as (_ & Hring & _).
  pose proof (si_row_nodup HS R HR) as Hnd.
  pose proof (others_perm R r Hr) as Hperm.
  assert (NoDup (r :: others R r)) as Hnd' by (rewrite <- Hperm; exact Hnd).
  assert (∀ x, x ∈ r :: others R r →
            x ≠ 0 ∧ x < length H ∧ mtx H x = true ∧
            fld Lright H x = Some (cnext (r :: others R r) x) ∧
            fld Lleft H x = Some (cprev (r :: others R r) x)) as Hall.
  { intros x Hx. assert (x ∈ R) as HxR by (rewrite Hperm; exact Hx).
    pose proof (si_row_item R x HR HxR) as Hxi.
    destruct (Hring x HxR) as [En Ep].
    destruct (split_at R r Hr) as [E _].
    assert (cnext R x = cnext (r :: others R r) x ∧
            cprev R x = cprev (r :: others R r) x) as [<- <-].
    { rewrite E in Hnd, HxR |- *. unfold others.
      rewrite (cnext_rotate (before R r) (r :: after R r) x Hnd HxR).
      rewrite (cprev_rotate (before R r) (r :: after R r) x Hnd HxR).
      rewrite <- !app_comm_cons.
      replace (before (before R r ++ r :: after R r) r) with (before R r)
        by (rewrite <- E; reflexivity).
      replace (after (before R r ++ r :: after R r) r) with (after R r)
        by (rewrite <- E; reflexivity).
      tauto. }
    split_and!; try assumption.
    - apply (si_item_ne0 HS x Hxi).
    - apply (si_item_lt HS x Hxi).
    - apply (si_item _ _ HS x Hxi). }
  destruct (walk_ring Lright H r (others R r) Hnd') as [n1 Hn1].
  { intros x Hx. destruct (Hall x Hx) as (? & ? & ? & ? & ?). tauto. }
  destruct (walk_ring_back Lleft H r (others R r) Hnd') as [n2 Hn2].
  { intros x Hx. destruct (Hall x Hx) as (? & ? & ? & ? & ?). tauto. }
  exists (n1 `max` n2). intros n Hn. simpl. split; [apply Hn1|apply Hn2]; lia.
Qed.

Lemma row_walk_knuth :
  well_formed knuth ∧ [8; 9; 10] ∈ s_rows (shape_of knuth) ∧ 9 ∈ [8; 9; 10] ∧
  ∃ n0, ∀ n, n0 ≤ n →
    (m ← build knuth; walk n Right (store m) (Some 9)) =
      Some (Some <$> others [8; 9; 10] 9) ∧
    (m ← build knuth; walk n Left (store m) (Some 9)) =
      Some (Some <$> rev (others [8; 9; 10] 9)).
Proof.
  split; [by_compute|]. split; [by_compute|]. split; [by_compute|].
  apply (row_walk knuth [8; 9; 10] 9); by_compute.
Defined.
